(** * Crazy Eights: the rules engine of [src/App.tsx]

    A shallow embedding of the game logic of the React component [App]
    (deck construction and shuffle, the deal, the move validator, the
    human's handlers, the opponent's turn effect) and the properties of the
    specification checked against it.

    Conventions of the embedding.
    - An array is a [list]; index 0 is the head, [pop()] removes the last
      element, [splice(0, n)] removes the first [n].
    - A value of [Math.random()] is a fraction [rnd_num / rnd_den] of the
      half-open unit interval; [Math.floor(Math.random() * n)] is [floorMul],
      the floor of the exact product.  The program floors the product
      rounded to a double, which for a few values at the upper end of an
      interval is the next integer: the indices that can come out are the
      same, the values they come out for differ there.
    - A handler that throws a [TypeError] returns [None].
    - A handler reads the variables of the render it was created in (its
      closure) and queues updates on the current state.  Handlers attached to
      the page always belong to the latest render, so closure and current
      state coincide for them; [playCard] is also called from a timer of an
      older render, so it takes both.
    - [setTimeout] callbacks are values of type [Timer], returned by the
      handler that schedules them and run by [fire].
    - The game is modelled twice.  The operations ([step], [reachable]) run
      each handler together with the timeout it starts, on the state the
      handler saw: the games in which nothing happens between a
      [setTimeout] and its callback.  The page ([appStep], [appReach]) keeps
      the pending timeouts with their due times and the render each closed
      over, and lets the human click, or restart the game, in between. *)

From Stdlib Require Import String.
From Stdlib Require Import List Arith Bool Lia ZArith Permutation.
Import ListNotations.
Open Scope nat_scope.

(** ** types.ts *)

Inductive Suit := hearts | diamonds | clubs | spades.

Inductive Rank := RA | R2 | R3 | R4 | R5 | R6 | R7 | R8 | R9 | R10 | RJ | RQ | RK.

Record CardData := mkCard { id : string; suit : Suit; rank : Rank }.

Inductive GamePhase := dealing | playing | gameOver.

Inductive Turn := player | ai.

Definition SUITS : list Suit := [hearts; diamonds; clubs; spades].

Definition RANKS : list Rank :=
  [RA; R2; R3; R4; R5; R6; R7; R8; R9; R10; RJ; RQ; RK].

(** The string values of the two union types, used to build a card id. *)
Definition suit_str (s : Suit) : string :=
  match s with
  | hearts => "hearts" | diamonds => "diamonds"
  | clubs => "clubs" | spades => "spades"
  end%string.

Definition rank_str (r : Rank) : string :=
  match r with
  | RA => "A" | R2 => "2" | R3 => "3" | R4 => "4" | R5 => "5" | R6 => "6"
  | R7 => "7" | R8 => "8" | R9 => "9" | R10 => "10" | RJ => "J" | RQ => "Q"
  | RK => "K"
  end%string.

Definition suit_eqb (a b : Suit) : bool :=
  match a, b with
  | hearts, hearts | diamonds, diamonds | clubs, clubs | spades, spades => true
  | _, _ => false
  end.

Definition rank_eqb (a b : Rank) : bool :=
  match a, b with
  | RA, RA | R2, R2 | R3, R3 | R4, R4 | R5, R5 | R6, R6 | R7, R7 | R8, R8
  | R9, R9 | R10, R10 | RJ, RJ | RQ, RQ | RK, RK => true
  | _, _ => false
  end.

Definition turn_eqb (a b : Turn) : bool :=
  match a, b with
  | player, player | ai, ai => true
  | _, _ => false
  end.

Definition phase_eqb (a b : GamePhase) : bool :=
  match a, b with
  | dealing, dealing | playing, playing | gameOver, gameOver => true
  | _, _ => false
  end.

(** The status line.  The texts are fixed sentences with at most a suit and
    a rank spliced in, so each [setMessage] argument is one constructor. *)
Inductive Message :=
| MsgWelcome
| MsgYourTurn
| MsgDeckEmptySkip
| MsgYouDrew
| MsgYouWin
| MsgAiThinking
| MsgAiEight (chosen : Suit)
| MsgAiPlayed (s : Suit) (r : Rank)
| MsgAiWins
| MsgYouChose (chosen : Suit)
| MsgAiDrew
| MsgAiSkip.

(** ** Utils *)

(** The object literal pushed by [createDeck], with id [`${rank}-${suit}`]. *)
Definition newCard (s : Suit) (r : Rank) : CardData :=
  mkCard (rank_str r ++ "-" ++ suit_str s)%string s r.

(** [createDeck]: suits in the outer loop, ranks in the inner one. *)
Definition createDeck : list CardData :=
  flat_map (fun s => map (fun r => newCard s r) RANKS) SUITS.

(** A result of [Math.random()]: a fraction in the interval from 0
    (included) to 1 (excluded). *)
Record Random01 := mkRandom01 {
  rnd_num : nat;
  rnd_den : nat;
  rnd_lt : rnd_num < rnd_den
}.

(** [Math.floor(u * n)]. *)
Definition floorMul (u : Random01) (n : nat) : nat :=
  (rnd_num u * n) / rnd_den u.

(** Array write [a[i] = x]; every write of the program is inside the array,
    outside it this function leaves the list alone. *)
Fixpoint set_nth {A} (i : nat) (x : A) (l : list A) : list A :=
  match l, i with
  | [], _ => []
  | _ :: t, 0 => x :: t
  | h :: t, S i' => h :: set_nth i' x t
  end.

(** [[a[i], a[j]] = [a[j], a[i]]]: both reads happen first, then the write
    to index [i], then the write to index [j]. *)
Definition swap {A} (i j : nat) (l : list A) : list A :=
  match nth_error l i, nth_error l j with
  | Some x, Some y => set_nth j x (set_nth i y l)
  | _, _ => l
  end.

(** The loop of [shuffle], from index [i] down to 1; [rnd i] is the random
    number drawn in the iteration with index [i]. *)
Fixpoint shuffle_from {A} (rnd : nat -> Random01) (i : nat) (l : list A)
  : list A :=
  match i with
  | 0 => l
  | S i' => shuffle_from rnd i' (swap i (floorMul (rnd i) (i + 1)) l)
  end.

Definition shuffle (rnd : nat -> Random01) (deck : list CardData)
  : list CardData :=
  shuffle_from rnd (length deck - 1) deck.

(** ** State of the component *)

Record State := mkState {
  deck : list CardData;
  playerHand : list CardData;
  aiHand : list CardData;
  discardPile : list CardData;
  currentSuit : option Suit;
  turn : Turn;
  phase : GamePhase;
  showSuitPicker : bool;
  pendingEightCard : option CardData;
  message : Message
}.

(** The values given to [useState]. *)
Definition initialState : State :=
  mkState [] [] [] [] None player dealing false None MsgWelcome.

Definition set_deck v (s : State) :=
  mkState v (playerHand s) (aiHand s) (discardPile s) (currentSuit s) (turn s)
          (phase s) (showSuitPicker s) (pendingEightCard s) (message s).
Definition set_playerHand v (s : State) :=
  mkState (deck s) v (aiHand s) (discardPile s) (currentSuit s) (turn s)
          (phase s) (showSuitPicker s) (pendingEightCard s) (message s).
Definition set_aiHand v (s : State) :=
  mkState (deck s) (playerHand s) v (discardPile s) (currentSuit s) (turn s)
          (phase s) (showSuitPicker s) (pendingEightCard s) (message s).
Definition set_discardPile v (s : State) :=
  mkState (deck s) (playerHand s) (aiHand s) v (currentSuit s) (turn s)
          (phase s) (showSuitPicker s) (pendingEightCard s) (message s).
Definition set_currentSuit v (s : State) :=
  mkState (deck s) (playerHand s) (aiHand s) (discardPile s) v (turn s)
          (phase s) (showSuitPicker s) (pendingEightCard s) (message s).
Definition set_turn v (s : State) :=
  mkState (deck s) (playerHand s) (aiHand s) (discardPile s) (currentSuit s) v
          (phase s) (showSuitPicker s) (pendingEightCard s) (message s).
Definition set_phase v (s : State) :=
  mkState (deck s) (playerHand s) (aiHand s) (discardPile s) (currentSuit s)
          (turn s) v (showSuitPicker s) (pendingEightCard s) (message s).
Definition set_showSuitPicker v (s : State) :=
  mkState (deck s) (playerHand s) (aiHand s) (discardPile s) (currentSuit s)
          (turn s) (phase s) v (pendingEightCard s) (message s).
Definition set_pendingEightCard v (s : State) :=
  mkState (deck s) (playerHand s) (aiHand s) (discardPile s) (currentSuit s)
          (turn s) (phase s) (showSuitPicker s) v (message s).
Definition set_message v (s : State) :=
  mkState (deck s) (playerHand s) (aiHand s) (discardPile s) (currentSuit s)
          (turn s) (phase s) (showSuitPicker s) (pendingEightCard s) v.

(** [arr.pop()]: the array without its last element, and that element;
    [None] for the [undefined] of an empty array. *)
Definition pop {A} (l : list A) : option (list A * A) :=
  match rev l with
  | [] => None
  | x :: r => Some (rev r, x)
  end.

(** [arr[arr.length - 1]]. *)
Definition lastOf {A} (l : list A) : option A :=
  match rev l with
  | [] => None
  | x :: _ => Some x
  end.

(** [initGame]: the state after the eight setters.  [firstDiscard.suit]
    throws when [pop] gave [undefined]. *)
Definition initGame (rnd : nat -> Random01) (s : State) : option State :=
  let fullDeck := shuffle rnd createDeck in
  let pHand := firstn 8 fullDeck in
  let fullDeck := skipn 8 fullDeck in
  let aHand := firstn 8 fullDeck in
  let fullDeck := skipn 8 fullDeck in
  match pop fullDeck with
  | None => None
  | Some (fullDeck, firstDiscard) =>
      Some (set_message MsgYourTurn
           (set_phase playing
           (set_turn player
           (set_currentSuit (Some (suit firstDiscard))
           (set_discardPile [firstDiscard]
           (set_aiHand aHand
           (set_playerHand pHand
           (set_deck fullDeck s))))))))
  end.

(** [topDiscard] of a render. *)
Definition topDiscard (s : State) : option CardData := lastOf (discardPile s).

(** [isValidMove] as a function of what it reads: the card, and
    [currentSuit] and [topDiscard] of its render.  A [null] suit is falsy and
    skips the second test; reading [rank] of an [undefined] top card
    throws. *)
Definition isValidMove (cur : option Suit) (top : option CardData)
  (card : CardData) : option bool :=
  if rank_eqb (rank card) R8 then Some true
  else if match cur with
          | Some cs => suit_eqb (suit card) cs
          | None => false
          end then Some true
  else match top with
       | None => None
       | Some t => if rank_eqb (rank card) (rank t) then Some true
                   else Some false
       end.

(** [isValidMove] inside the render of state [s]. *)
Definition isValidMoveIn (s : State) (card : CardData) : option bool :=
  isValidMove (currentSuit s) (topDiscard s) card.

(** ** Handlers *)

(** A callback given to [setTimeout], with its delay in milliseconds.
    - [SetTurnAi]: [() => setTurn('ai')] of [handleDraw];
    - [PlayDrawn snap card]: [() => playCard(drawnCard, false)] of the AI
      effect, where [playCard] is the function of the render [snap] in which
      the effect was created. *)
Inductive Timer :=
| SetTurnAi (ms : nat)
| PlayDrawn (snap : State) (drawnCard : CardData) (ms : nat).

(** [prev.filter(c => c.id !== card.id)]. *)
Definition removeById (card : CardData) (l : list CardData) : list CardData :=
  filter (fun c => negb (String.eqb (id c) (id card))) l.

(** [acc[s] = (acc[s] || 0) + 1] on an object whose keys are kept in
    insertion order. *)
Fixpoint bump (s : Suit) (acc : list (Suit * nat)) : list (Suit * nat) :=
  match acc with
  | [] => [(s, 1)]
  | (k, n) :: t =>
      if suit_eqb k s then (k, n + 1) :: t else (k, n) :: bump s t
  end.

(** The [reduce] of the AI's eight branch. *)
Definition suitCounts (hand : list CardData) (card : CardData)
  : list (Suit * nat) :=
  fold_left
    (fun acc c =>
       if negb (String.eqb (id c) (id card)) then bump (suit c) acc else acc)
    hand [].

(** [obj[k]] for a key of the object ([0] stands for a missing key, which
    the program never reads). *)
Fixpoint getCount (k : Suit) (acc : list (Suit * nat)) : nat :=
  match acc with
  | [] => 0
  | (k', n) :: t => if suit_eqb k' k then n else getCount k t
  end.

(** [Array.prototype.sort] with a comparator: a stable sort, [x] is put
    after [y] exactly when [cmp x y > 0]. *)
Fixpoint insertBy {A} (cmp : A -> A -> Z) (x : A) (l : list A) : list A :=
  match l with
  | [] => [x]
  | y :: t => if (0 <? cmp x y)%Z then y :: insertBy cmp x t else x :: y :: t
  end.

Definition sortBy {A} (cmp : A -> A -> Z) (l : list A) : list A :=
  fold_right (insertBy cmp) [] l.

(** [bestSuit] of the AI's eight branch. *)
Definition bestSuit (hand : list CardData) (card : CardData) : Suit :=
  let counts := suitCounts hand card in
  let cmp a b := (Z.of_nat (getCount b counts) - Z.of_nat (getCount a counts))%Z in
  match sortBy cmp (map fst counts) with
  | [] => hearts
  | k :: _ => k
  end.

(** [playCard] of the render [snap], run on the current state [cur]: the
    updates written [setX(prev => ...)] act on [cur], what the body reads
    directly ([playerHand.length], [aiHand]) comes from [snap]. *)
Definition playCard (snap : State) (card : CardData) (isPlayer : bool)
  (cur : State) : State :=
  if isPlayer then
    if rank_eqb (rank card) R8 then
      set_showSuitPicker true (set_pendingEightCard (Some card) cur)
    else
      let cur := set_currentSuit (Some (suit card))
                (set_discardPile (discardPile cur ++ [card])
                (set_playerHand (removeById card (playerHand cur)) cur)) in
      if length (playerHand snap) =? 1 then
        set_message MsgYouWin (set_phase gameOver cur)
      else
        set_message MsgAiThinking (set_turn ai cur)
  else
    let cur := set_discardPile (discardPile cur ++ [card])
              (set_aiHand (removeById card (aiHand cur)) cur) in
    let cur :=
      if rank_eqb (rank card) R8 then
        let best := bestSuit (aiHand snap) card in
        set_message (MsgAiEight best) (set_currentSuit (Some best) cur)
      else
        set_message (MsgAiPlayed (suit card) (rank card))
                    (set_currentSuit (Some (suit card)) cur) in
    if length (aiHand snap) =? 1 then
      set_message MsgAiWins (set_phase gameOver cur)
    else
      set_turn player cur.

(** [handleDraw]: the state after its updates and the timer it starts. *)
Definition handleDraw (s : State) : option (State * option Timer) :=
  if negb (turn_eqb (turn s) player) || negb (phase_eqb (phase s) playing)
     || showSuitPicker s
  then Some (s, None)
  else if length (deck s) =? 0 then
    Some (set_message MsgDeckEmptySkip s, Some (SetTurnAi 1500))
  else
    match pop (deck s) with
    | None => None
    | Some (newDeck, drawnCard) =>
        let s' := set_message MsgYouDrew
                 (set_playerHand (playerHand s ++ [drawnCard])
                 (set_deck newDeck s)) in
        match isValidMoveIn s drawnCard with
        | None => None
        | Some true => Some (s', None)
        | Some false => Some (s', Some (SetTurnAi 1000))
        end
    end.

(** [handleSuitPick]. *)
Definition handleSuitPick (chosen : Suit) (s : State) : State :=
  match pendingEightCard s with
  | None => s
  | Some pending =>
      let s' := set_showSuitPicker false
               (set_pendingEightCard None
               (set_currentSuit (Some chosen)
               (set_discardPile (discardPile s ++ [pending])
               (set_playerHand (removeById pending (playerHand s)) s)))) in
      if length (playerHand s) =? 1 then
        set_message MsgYouWin (set_phase gameOver s')
      else
        set_message (MsgYouChose chosen) (set_turn ai s')
  end.

(** The [isPlayable] property of a card of the player's hand; [&&] stops at
    the first false operand. *)
Definition isPlayable (s : State) (card : CardData) : option bool :=
  if turn_eqb (turn s) player && phase_eqb (phase s) playing then
    match isValidMoveIn s card with
    | None => None
    | Some v => Some (v && negb (showSuitPicker s))
    end
  else Some false.

(** A click on a card of the player's hand: [onClick] is
    [() => playCard(card, true)] when the card is playable and [undefined]
    otherwise. *)
Definition cardClick (card : CardData) (s : State) : option State :=
  match isPlayable s card with
  | None => None
  | Some true => Some (playCard s card true s)
  | Some false => Some s
  end.

(** [arr.filter(f)] for a callback that may throw. *)
Fixpoint filterOpt {A} (f : A -> option bool) (l : list A) : option (list A) :=
  match l with
  | [] => Some []
  | x :: t =>
      match f x with
      | None => None
      | Some b =>
          match filterOpt f t with
          | None => None
          | Some r => Some (if b then x :: r else r)
          end
      end
  end.

(** [cardToPlay] of the AI effect; [u] is the value of [Math.random()],
    drawn only when there is a playable card that is not an eight. *)
Definition cardToPlay (u : Random01) (playableCards : list CardData)
  : option CardData :=
  let nonEight := filter (fun c => negb (rank_eqb (rank c) R8)) playableCards in
  if 0 <? length nonEight
  then nth_error nonEight (floorMul u (length nonEight))
  else nth_error playableCards 0.

(** The AI effect with the callback of its 1500 ms timer, when the render
    [s] in which the effect ran is still the current state as the timer
    fires. *)
Definition aiEffect (u : Random01) (s : State) : option (State * option Timer) :=
  if turn_eqb (turn s) ai && phase_eqb (phase s) playing then
    match filterOpt (isValidMoveIn s) (aiHand s) with
    | None => None
    | Some playableCards =>
        if 0 <? length playableCards then
          match cardToPlay u playableCards with
          | None => None
          | Some c => Some (playCard s c false s, None)
          end
        else if 0 <? length (deck s) then
          match pop (deck s) with
          | None => None
          | Some (newDeck, drawnCard) =>
              let s' := set_message MsgAiDrew
                       (set_aiHand (aiHand s ++ [drawnCard])
                       (set_deck newDeck s)) in
              match isValidMoveIn s drawnCard with
              | None => None
              | Some true => Some (s', Some (PlayDrawn s drawnCard 1000))
              | Some false => Some (set_turn player s', None)
              end
          end
        else Some (set_turn player (set_message MsgAiSkip s), None)
    end
  else Some (s, None).

(** Running a timer callback on the state current when it fires. *)
Definition fire (t : Timer) (cur : State) : State :=
  match t with
  | SetTurnAi _ => set_turn ai cur
  | PlayDrawn snap drawnCard _ => playCard snap drawnCard false cur
  end.

Definition settle (r : State * option Timer) : State :=
  match snd r with
  | None => fst r
  | Some t => fire t (fst r)
  end.

(** ** Operations

    An operation is a handler together with the timer it started, fired
    before anything else happens. *)

Definition playerDraw (s : State) : option State :=
  option_map settle (handleDraw s).

Definition aiTurn (u : Random01) (s : State) : option State :=
  option_map settle (aiEffect u s).

(** The events of a game, and the state they lead to: a click on the draw
    pile, a click on the card shown at position [i] of the player's hand, a
    click on a button of the suit picker, and the AI effect's timer with the
    random number it draws. *)
Inductive Event :=
| Draw
| Click (i : nat)
| SuitPick (chosen : Suit)
| AiTurn (u : Random01).

Definition step (e : Event) (s : State) : option State :=
  match e with
  | Draw => playerDraw s
  | Click i =>
      match nth_error (playerHand s) i with
      | None => None
      | Some card => cardClick card s
      end
  | SuitPick chosen => Some (handleSuitPick chosen s)
  | AiTurn u => aiTurn u s
  end.

Fixpoint run (es : list Event) (s : State) : option State :=
  match es with
  | [] => Some s
  | e :: es' =>
      match step e s with
      | None => None
      | Some s' => run es' s'
      end
  end.

(** [a / (a + d + 1)], a value [Math.random()] may return. *)
Definition ratio (a d : nat) : Random01 :=
  mkRandom01 a (a + S d) (Nat.lt_add_pos_r (S d) a (Nat.lt_0_succ d)).

(** The random numbers under which [shuffle] swaps every index with
    itself. *)
Definition rnd_id (i : nat) : Random01 := ratio i 0.

(** States of a game: the deal on the freshly mounted component, then any
    events. *)
Inductive reachable : State -> Prop :=
| reach_deal rnd s : initGame rnd initialState = Some s -> reachable s
| reach_step e s s' : reachable s -> step e s = Some s' -> reachable s'.

(** ** Notions used by the statements *)

(** The four containers, one after the other. *)
Definition allCards (s : State) : list CardData :=
  deck s ++ playerHand s ++ aiHand s ++ discardPile s.

(** What the proofs carry along a game: the containers hold the 52 cards
    of [createDeck], and a pending eight is a card of the player's hand with
    the suit picker open. *)
Definition Inv (s : State) : Prop :=
  Permutation (allCards s) createDeck /\
  (forall c, pendingEightCard s = Some c ->
             In c (playerHand s) /\ showSuitPicker s = true).

(** The head of a list is a maximum of [f] over the list. *)
Definition head_max {A} (f : A -> nat) (l : list A) : Prop :=
  match l with
  | [] => True
  | h :: t => forall y, In y t -> f y <= f h
  end.

(** No string occurs twice in a list, as a test. *)
Fixpoint distinctb (l : list string) : bool :=
  match l with
  | [] => true
  | x :: t => negb (existsb (String.eqb x) t) && distinctb t
  end.

(** When a timer may fire: the card an AI timer is about to play is in the
    AI's hand. *)
Definition timer_ok (t : option Timer) (s : State) : Prop :=
  match t with
  | Some (PlayDrawn _ c _) => In c (aiHand s)
  | _ => True
  end.

(** What holds of the phase along a game: the deal is over, a game still
    in the playing phase has two non-empty hands, and an eight is pending
    only during the player's turn. *)
Definition Live (s : State) : Prop :=
  phase s <> dealing /\
  (phase s = playing -> playerHand s <> [] /\ aiHand s <> []) /\
  (forall c, pendingEightCard s = Some c ->
             turn s = player /\ phase s = playing).

(** Number of cards of suit [t] in a hand. *)
Definition countSuit (t : Suit) (hand : list CardData) : nat :=
  length (filter (fun c => suit_eqb (suit c) t) hand).

(** The cards of a list that are not eights, as [cardToPlay] computes
    them. *)
Definition nonEights (l : list CardData) : list CardData :=
  filter (fun c => negb (rank_eqb (rank c) R8)) l.

(** ** Concrete games *)

(** The state after the deal of the identity shuffle. *)
Definition dealt : State :=
  Eval vm_compute in
    match initGame rnd_id initialState with
    | Some s => s
    | None => initialState
    end.

Definition first : Random01 := ratio 0 0.

(** A game after the identity shuffle in which the AI, down to the king of
    hearts, cannot play, draws the eight of spades and plays it. *)
Definition stale_win_trace : list Event :=
  [ Draw; Click 7; SuitPick hearts; AiTurn first;
    Click 3; AiTurn first; Click 3; AiTurn first; Click 3; AiTurn first;
    Click 0; AiTurn (ratio 1 0);
    Draw; AiTurn first; Draw; AiTurn first; Draw; AiTurn first ].

(** The state before the last event of [stale_win_trace]. *)
Definition before_stale_win : State :=
  Eval vm_compute in
    match run (removelast stale_win_trace) dealt with
    | Some s => s
    | None => initialState
    end.

(** A game after the identity shuffle that leaves the ten diamonds from the
    four to the king in the deck, diamonds as the active suit, and the
    player to move; then nine draws. *)
Definition drain_trace : list Event :=
  repeat Draw 14 ++
  [ AiTurn first; Draw; AiTurn first; Draw; AiTurn first; Draw; AiTurn first;
    Draw; Draw; AiTurn first; Draw; AiTurn first; Draw; AiTurn first;
    Draw; AiTurn first; Click 0; AiTurn first ] ++
  repeat Draw 9.

(** The state after [drain_trace]: the four of diamonds is the only card of
    the deck and is legal. *)
Definition one_card_left : State :=
  Eval vm_compute in
    match run drain_trace dealt with
    | Some s => s
    | None => initialState
    end.

(** The state after the player's eight of hearts and the choice of clubs:
    the AI is to move. *)
Definition opponent_to_move : State :=
  Eval vm_compute in
    match run [Click 7; SuitPick clubs] dealt with
    | Some s => s
    | None => initialState
    end.

(** Scenario C of the specification: the AI holds the eight of spades and
    three threes. *)
Definition scenarioC_hand : list CardData :=
  [newCard spades R8; newCard hearts R3; newCard diamonds R3; newCard clubs R3].


(** The state after the last card of the deck has been drawn by the player
    and found legal. *)
Definition deck_drained : State :=
  Eval vm_compute in
    match run [Draw] one_card_left with
    | Some s => s
    | None => initialState
    end.

(** A table where the AI has no legal card and the deck is empty. *)
Definition ai_stuck : State :=
  mkState []
          [newCard hearts R5]
          [newCard clubs R4; newCard diamonds R6]
          [newCard spades RK; newCard spades R9]
          (Some spades) ai playing false None MsgAiThinking.


(** ** The specification's wording, where the code differs *)

(** The deal as Scenario A of the specification words it: first eight
    cards, next eight, and the 17th card as the first discard. *)
Definition deal_as_stated (rnd : nat -> Random01) : Prop :=
  shuffle rnd createDeck = createDeck ->
  exists s d,
    initGame rnd initialState = Some s /\
    playerHand s = firstn 8 createDeck /\
    aiHand s = firstn 8 (skipn 8 createDeck) /\
    nth_error createDeck 16 = Some d /\
    discardPile s = [d] /\
    currentSuit s = Some (suit d).

(** The component's only output besides its state is the status line: a
    call reports something when it changes the line. *)
Definition reports_reason (before after : State) : Prop :=
  message after <> message before.

(** Same game: every field but the status line agrees. *)
Definition same_game (a b : State) : Prop :=
  deck a = deck b /\ playerHand a = playerHand b /\ aiHand a = aiHand b /\
  discardPile a = discardPile b /\ currentSuit a = currentSuit b /\
  turn a = turn b /\ phase a = phase b /\
  showSuitPicker a = showSuitPicker b /\
  pendingEightCard a = pendingEightCard b.

Definition rejected_with_reason (s : State) (r : option State) : Prop :=
  exists s', r = Some s' /\ same_game s s' /\ reports_reason s s'.

(** The treatment of erroneous calls as the specification words it: no
    change to the game, and a reason reported. *)
Definition erroneous_calls_as_stated (s : State) : Prop :=
  (turn s <> player \/ phase s <> playing ->
   rejected_with_reason s (playerDraw s) /\
   forall c, In c (playerHand s) -> rejected_with_reason s (cardClick c s)) /\
  (pendingEightCard s = None ->
   forall chosen, rejected_with_reason s (Some (handleSuitPick chosen s))).

(** Repeated draws as C10 words them: after a draw of a legal card, a
    further draw moves another card from the deck to the player's hand. *)
Definition further_draw_as_stated (s0 : State) : Prop :=
  forall d x s,
    turn s0 = player -> phase s0 = playing -> showSuitPicker s0 = false ->
    pendingEightCard s0 = None ->
    deck s0 = d ++ [x] -> isValidMoveIn s0 x = Some true ->
    playerDraw s0 = Some s ->
    exists s' d' y,
      playerDraw s = Some s' /\ deck s = d' ++ [y] /\
      deck s' = d' /\ playerHand s' = playerHand s ++ [y].


(** ** The rest of the component *)

(** The random numbers that agree with [rnd] below index [i] and make the
    iteration with index [i] pick [j]. *)
Definition pickAt (i j : nat) (rnd : nat -> Random01) (k : nat) : Random01 :=
  if k =? i then ratio j (i - j) else rnd k.

(** The state after the player, resp. the AI, has taken [x] from a deck
    [d ++ [x]]. *)
Definition afterPlayerDraw (d : list CardData) (x : CardData) (s : State) :=
  set_message MsgYouDrew (set_playerHand (playerHand s ++ [x]) (set_deck d s)).

Definition afterAiDraw (d : list CardData) (x : CardData) (s : State) :=
  set_message MsgAiDrew (set_aiHand (aiHand s ++ [x]) (set_deck d s)).

(** What an event can make of a state: the paths through the handlers, each
    with the tests passed on the way. *)
Inductive Outcome (s : State) : State -> Prop :=
| out_ignored : Outcome s s
| out_player_skips :
    turn s = player -> phase s = playing -> showSuitPicker s = false ->
    deck s = [] ->
    Outcome s (set_turn ai (set_message MsgDeckEmptySkip s))
| out_player_keeps d x :
    turn s = player -> phase s = playing -> showSuitPicker s = false ->
    deck s = d ++ [x] -> isValidMoveIn s x = Some true ->
    Outcome s (afterPlayerDraw d x s)
| out_player_passes d x :
    turn s = player -> phase s = playing -> showSuitPicker s = false ->
    deck s = d ++ [x] -> isValidMoveIn s x = Some false ->
    Outcome s (set_turn ai (afterPlayerDraw d x s))
| out_player_plays c :
    In c (playerHand s) -> isPlayable s c = Some true ->
    Outcome s (playCard s c true s)
| out_suit_picked c chosen :
    pendingEightCard s = Some c ->
    Outcome s (handleSuitPick chosen s)
| out_ai_plays c :
    turn s = ai -> phase s = playing ->
    In c (aiHand s) -> isValidMoveIn s c = Some true ->
    Outcome s (playCard s c false s)
| out_ai_draws_plays d x :
    turn s = ai -> phase s = playing ->
    filterOpt (isValidMoveIn s) (aiHand s) = Some [] ->
    deck s = d ++ [x] -> isValidMoveIn s x = Some true ->
    Outcome s (playCard s x false (afterAiDraw d x s))
| out_ai_draws_passes d x :
    turn s = ai -> phase s = playing ->
    filterOpt (isValidMoveIn s) (aiHand s) = Some [] ->
    deck s = d ++ [x] -> isValidMoveIn s x = Some false ->
    Outcome s (set_turn player (afterAiDraw d x s))
| out_ai_skips :
    turn s = ai -> phase s = playing ->
    filterOpt (isValidMoveIn s) (aiHand s) = Some [] ->
    deck s = [] ->
    Outcome s (set_turn player (set_message MsgAiSkip s)).

(** The table of a render: a top discard and an active suit, which is the
    suit of the top discard unless that card is an eight. *)
Definition Table (s : State) : Prop :=
  exists top cs,
    topDiscard s = Some top /\ currentSuit s = Some cs /\
    (rank top <> R8 -> cs = suit top).

(** The suit picker is open only with a pending card, and a pending card is
    an eight. *)
Definition Picker (s : State) : Prop :=
  (showSuitPicker s = true -> pendingEightCard s <> None) /\
  (forall c, pendingEightCard s = Some c -> rank c = R8).


(** The state after the player has drawn the queen of spades from the deck
    of [dealt]. *)
Definition queen_drawn : State :=
  Eval vm_compute in
    match run [Draw] dealt with
    | Some s => s
    | None => initialState
    end.

(** The state [stale_win_trace] ends in. *)
Definition stale_win : State :=
  Eval vm_compute in
    match run stale_win_trace dealt with
    | Some s => s
    | None => initialState
    end.


(** The [reduce] of the AI's eight branch over a hand from which the played
    card has been taken out already. *)
Definition tally (l : list CardData) : list (Suit * nat) :=
  fold_left (fun acc c => bump (suit c) acc) l [].

(** A table on which nobody can move: the deck is empty and neither hand
    holds a legal card. *)
Definition Stalemate (s : State) : Prop :=
  phase s = playing /\ showSuitPicker s = false /\
  pendingEightCard s = None /\ deck s = [] /\
  filterOpt (isValidMoveIn s) (playerHand s) = Some [] /\
  filterOpt (isValidMoveIn s) (aiHand s) = Some [].

(** * The component with its pending timers

    The operations above run a handler together with the timer it starts.
    The page does not: between a [setTimeout] and its callback the human can
    click, the restart button calls [initGame] at any moment, and the
    callback of the AI effect reads the render in which the effect last ran.
    [App] keeps what that needs: the state of the latest render, a clock in
    milliseconds, the pending timeout of the AI effect with the render it
    closed over, and the pending timeouts started by [handleDraw] and by the
    AI callback, each with the time at which it is due. *)

(** What the human can do on the page: click the draw pile, the card at
    position [i] of the hand, a button of the suit picker, or one of the two
    restart buttons ([onClick={initGame}]), with the random numbers the
    shuffle then draws. *)
Inductive Action :=
| DrawPile
| HandCard (i : nat)
| PickSuit (chosen : Suit)
| Restart (rnd : nat -> Random01).

(** The handler behind an action, in the latest render [s]: the state after
    its updates and the timer it starts. *)
Definition handle (act : Action) (s : State) : option (State * option Timer) :=
  match act with
  | DrawPile => handleDraw s
  | HandCard i =>
      match nth_error (playerHand s) i with
      | None => None
      | Some card => option_map (fun s' => (s', None)) (cardClick card s)
      end
  | PickSuit chosen => Some (handleSuitPick chosen s, None)
  | Restart rnd => option_map (fun s' => (s', None)) (initGame rnd s)
  end.

(** The callback of the AI effect's 1500 ms timer.  [aiHand], [deck],
    [isValidMove] and [playCard] are those of the render [snap] in which the
    effect ran; [setDeck(newDeck)] stores a value computed from [snap], the
    other updates act on the state [cur] current when the timer fires. *)
Definition aiCallback (u : Random01) (snap cur : State)
  : option (State * option Timer) :=
  match filterOpt (isValidMoveIn snap) (aiHand snap) with
  | None => None
  | Some playableCards =>
      if 0 <? length playableCards then
        match cardToPlay u playableCards with
        | None => None
        | Some c => Some (playCard snap c false cur, None)
        end
      else if 0 <? length (deck snap) then
        match pop (deck snap) with
        | None => None
        | Some (newDeck, drawnCard) =>
            let cur' := set_message MsgAiDrew
                       (set_aiHand (aiHand cur ++ [drawnCard])
                       (set_deck newDeck cur)) in
            match isValidMoveIn snap drawnCard with
            | None => None
            | Some true => Some (cur', Some (PlayDrawn snap drawnCard 1000))
            | Some false => Some (set_turn player cur', None)
            end
        end
      else Some (set_turn player (set_message MsgAiSkip cur), None)
  end.

Definition card_eqb (a b : CardData) : bool :=
  String.eqb (id a) (id b) && suit_eqb (suit a) (suit b)
  && rank_eqb (rank a) (rank b).

Fixpoint cards_eqb (a b : list CardData) : bool :=
  match a, b with
  | [], [] => true
  | x :: a', y :: b' => card_eqb x y && cards_eqb a' b'
  | _, _ => false
  end.

Definition suitOpt_eqb (a b : option Suit) : bool :=
  match a, b with
  | None, None => true
  | Some x, Some y => suit_eqb x y
  | _, _ => false
  end.

(** The dependency array [[turn, aiHand, phase, deck, currentSuit]] of the
    AI effect, compared between two renders.  React compares with
    [Object.is]: the three strings by value, the two arrays by identity.  An
    update that does not call [setDeck] or [setAiHand] keeps the array, and
    [handleDraw] stores a deck that is one card shorter, so for those the
    comparison by value is the comparison React makes.  The updates that
    store a newly built array of possibly the same content are flagged
    [renewed] in [aiEffectTimer]. *)
Definition sameDeps (a b : State) : bool :=
  turn_eqb (turn a) (turn b) && cards_eqb (aiHand a) (aiHand b)
  && phase_eqb (phase a) (phase b) && cards_eqb (deck a) (deck b)
  && suitOpt_eqb (currentSuit a) (currentSuit b).

Record App := mkApp {
  state : State;
  clock : nat;
  aiTimer : option (nat * State);
  timers : list (nat * Timer)
}.

Definition delay (t : Timer) : nat :=
  match t with
  | SetTurnAi ms => ms
  | PlayDrawn _ _ ms => ms
  end.

(** [setTimeout(t, delay)] at time [now]. *)
Definition started (now : nat) (t : option Timer) : list (nat * Timer) :=
  match t with
  | None => []
  | Some t => [(now + delay t, t)]
  end.

(** The times at which the pending timeouts are due. *)
Definition dues (a : App) : list nat :=
  match aiTimer a with
  | None => []
  | Some (due, _) => [due]
  end ++ map fst (timers a).

(** No pending timeout is due before [t]. *)
Definition noneBefore (t : nat) (a : App) : bool :=
  forallb (Nat.leb t) (dues a).

(** The AI effect after the render of [s'], which follows the render of
    [s], at time [now]; [old] is the timeout it has pending.  When a
    dependency changed the cleanup clears that timeout and the effect runs
    again: it starts a timeout of 1500 ms, whose callback closes over [s'],
    if the AI is to move in a running game.  Otherwise nothing happens and
    the pending timeout keeps the render it closed over. *)
Definition aiEffectTimer (now : nat) (renewed : bool)
  (old : option (nat * State)) (s s' : State) : option (nat * State) :=
  if renewed || negb (sameDeps s s') then
    if turn_eqb (turn s') ai && phase_eqb (phase s') playing
    then Some (now + 1500, s')
    else None
  else old.

Definition dropNth {A} (k : nat) (l : list A) : list A :=
  firstn k l ++ skipn (S k) l.

(** [initGame] stores new arrays in [deck] and [aiHand]. *)
Definition isRestart (act : Action) : bool :=
  match act with
  | Restart _ => true
  | _ => false
  end.

(** [playCard(drawnCard, false)] stores a new array in [aiHand]. *)
Definition isPlayDrawn (t : Timer) : bool :=
  match t with
  | PlayDrawn _ _ _ => true
  | SetTurnAi _ => false
  end.

(** What happens on the page: the human acts [dt] ms after the event
    before, the pending timeout at position [k] fires, or the timeout of the
    AI effect fires and draws [u] from [Math.random()]. *)
Inductive AppEvent :=
| User (dt : nat) (act : Action)
| TimerFires (k : nat)
| AiTimerFires (u : Random01).

(** One event.  An action of the human at time [clock + dt] is possible
    when no timeout was due earlier; a timeout fires when none is due before
    it, and the clock moves to its due time.  After the updates of a handler
    or callback the component renders and the AI effect is looked at
    ([aiEffectTimer]).  After the AI callback its own timeout is spent, and
    every path of the callback stores a new [aiHand] or sets the turn to the
    player: the effect runs again, or would start nothing if it did.  [None]
    stands for an event that cannot happen, or a handler that throws. *)
Definition appStep (e : AppEvent) (a : App) : option App :=
  match e with
  | User dt act =>
      let now := clock a + dt in
      if noneBefore now a then
        match handle act (state a) with
        | None => None
        | Some (s', t) =>
            Some (mkApp s' now
                    (aiEffectTimer now (isRestart act) (aiTimer a) (state a) s')
                    (timers a ++ started now t))
        end
      else None
  | TimerFires k =>
      match nth_error (timers a) k with
      | None => None
      | Some (due, t) =>
          if noneBefore due a then
            let s' := fire t (state a) in
            Some (mkApp s' due
                    (aiEffectTimer due (isPlayDrawn t) (aiTimer a) (state a) s')
                    (dropNth k (timers a)))
          else None
      end
  | AiTimerFires u =>
      match aiTimer a with
      | None => None
      | Some (due, snap) =>
          if noneBefore due a then
            match aiCallback u snap (state a) with
            | None => None
            | Some (s', t) =>
                Some (mkApp s' due
                        (aiEffectTimer due true None (state a) s')
                        (timers a ++ started due t))
            end
          else None
      end
  end.

Fixpoint appRun (es : list AppEvent) (a : App) : option App :=
  match es with
  | [] => Some a
  | e :: es' =>
      match appStep e a with
      | None => None
      | Some a' => appRun es' a'
      end
  end.

(** The page after the component has mounted and its first effect has
    dealt [s]: the player is to move, no timeout is pending. *)
Definition mount (s : State) : App := mkApp s 0 None [].

(** The states the page reaches through events that are [allowed]. *)
Inductive appReach (allowed : AppEvent -> App -> Prop) : App -> Prop :=
| reach_mount rnd s :
    initGame rnd initialState = Some s -> appReach allowed (mount s)
| reach_event e a a' :
    appReach allowed a -> allowed e a -> appStep e a = Some a' ->
    appReach allowed a'.

Definition anyEvent (e : AppEvent) (a : App) : Prop := True.

(** The pending timeouts that will play a drawn card. *)
Definition drawnPending (a : App) : list (nat * Timer) :=
  filter (fun p => isPlayDrawn (snd p)) (timers a).

(** Restarts only at a quiet moment: no eight waits for its suit and no
    drawn card waits to be played. *)
Definition quietRestart (e : AppEvent) (a : App) : Prop :=
  match e with
  | User _ (Restart _) =>
      pendingEightCard (state a) = None /\ drawnPending a = []
  | _ => True
  end.

Definition noRestart (e : AppEvent) (a : App) : Prop :=
  match e with
  | User _ (Restart _) => False
  | _ => True
  end.

(** ** Concrete games on the page *)

(** The state of [a], or the initial state when the run is impossible. *)
Definition ran (es : list AppEvent) (a : App) : App :=
  match appRun es a with
  | Some a' => a'
  | None => mount initialState
  end.

(** The deal after a shuffle that differs from the identity in the
    iterations with the indices 50 and 40: the four of diamonds is the last
    card of the deck and the AI holds the two of spades. *)
Definition dealt_spade : State :=
  Eval vm_compute in
    match initGame (pickAt 50 16 (pickAt 40 15 rnd_id)) initialState with
    | Some s => s
    | None => initialState
    end.

(** The player draws the four of diamonds, which cannot be played, clicks
    the eight of hearts within the second that follows, and names spades,
    the suit already active, after the turn has gone to the AI. *)
Definition late_eight : list AppEvent :=
  [ User 0 DrawPile; User 500 (HandCard 7); TimerFires 0;
    User 500 (PickSuit spades) ].

Definition stale_table : App :=
  Eval vm_compute in ran late_eight (mount dealt_spade).

(** The deal after a shuffle that differs from the identity in the
    iterations with the indices 50, 49 and 17: the deck ends with the king of
    hearts and the four of diamonds, and the AI holds neither a king nor a
    spade nor an eight. *)
Definition dealt_king : State :=
  Eval vm_compute in
    match initGame (pickAt 50 16 (pickAt 49 12 (pickAt 17 12 rnd_id)))
                   initialState with
    | Some s => s
    | None => initialState
    end.

Definition stale_draw : App :=
  Eval vm_compute in ran late_eight (mount dealt_king).

(** [stale_draw] after the timeout of the AI effect has fired: the AI has
    drawn the king of hearts and will play it a second later. *)
Definition king_drawn : App :=
  Eval vm_compute in ran [AiTimerFires first] stale_draw.

(** [stale_win_trace] on the page: each operation is the click or the
    timeout of the AI effect, followed at once by the timeout it started. *)
Definition stale_win_events : list AppEvent :=
  [ User 0 DrawPile; User 0 (HandCard 7); User 0 (PickSuit hearts);
    AiTimerFires first; User 0 (HandCard 3); AiTimerFires first;
    User 0 (HandCard 3); AiTimerFires first; User 0 (HandCard 3);
    AiTimerFires first; User 0 (HandCard 0); AiTimerFires (ratio 1 0);
    User 0 DrawPile; TimerFires 0; AiTimerFires first;
    User 0 DrawPile; TimerFires 0; AiTimerFires first;
    User 0 DrawPile; TimerFires 0; AiTimerFires first; TimerFires 0 ].

Definition stale_win_page : App :=
  Eval vm_compute in ran stale_win_events (mount dealt).

(** After the identity shuffle the player plays the eight of hearts and
    names spades; the AI draws the queen of spades, which it will play a
    second later; the human restarts the game in between. *)
Definition restart_in_window : list AppEvent :=
  [ User 0 (HandCard 7); User 0 (PickSuit spades); AiTimerFires first;
    User 500 (Restart rnd_id); TimerFires 0 ].

(** After the identity shuffle the player clicks the eight of hearts and
    restarts the game while the suit picker is open; the new shuffle puts
    the eight of hearts into the deck; then the player names hearts. *)
Definition restart_with_picker : list AppEvent :=
  [ User 0 (HandCard 7); User 0 (Restart (pickAt 16 7 rnd_id));
    User 0 (PickSuit hearts) ].

(** ** What holds of the page *)

(** How far the render [snap] of the AI effect's timeout is behind the
    state [s]: the AI is to move in both, they agree on the five
    dependencies of the effect, and the discard pile of [s] is that of
    [snap], or that of [snap] with one eight on top, put there by a suit
    pick since. *)
Definition lags (snap s : State) : Prop :=
  turn s = ai /\ phase s = playing /\
  turn snap = ai /\ phase snap = playing /\
  aiHand snap = aiHand s /\ deck snap = deck s /\
  currentSuit snap = currentSuit s /\
  discardPile snap <> [] /\
  (discardPile s = discardPile snap \/
   pendingEightCard s = None /\
   exists c, rank c = R8 /\ discardPile s = discardPile snap ++ [c]).

Definition Fresh (a : App) : Prop :=
  forall due snap, aiTimer a = Some (due, snap) -> lags snap (state a).

(** The suit picker is open exactly while a card is pending, and a pending
    card is an eight. *)
Definition Waiting (s : State) : Prop :=
  (showSuitPicker s = true <-> pendingEightCard s <> None) /\
  (forall c, pendingEightCard s = Some c -> rank c = R8).

(** No pending timeout is overdue. *)
Definition DuesOk (a : App) : Prop :=
  Forall (fun d => clock a <= d) (dues a).

(** While the AI is to move in a running game the timeout of its effect is
    pending. *)
Definition Armed (a : App) : Prop :=
  turn (state a) = ai -> phase (state a) = playing -> aiTimer a <> None.

Definition AppOk (a : App) : Prop :=
  Fresh a /\ Waiting (state a) /\ DuesOk a /\ Armed a /\
  discardPile (state a) <> [].

(** At most one drawn card waits to be played.  It is the last card of the
    AI's hand, behind the hand of the render its timeout closed over; the
    timeout is due within a second and before the timeout of the AI
    effect. *)
Definition DrawnOk (a : App) : Prop :=
  drawnPending a = [] \/
  exists d snap c ms,
    drawnPending a = [(d, PlayDrawn snap c ms)] /\
    aiHand (state a) = aiHand snap ++ [c] /\ d <= clock a + 1000 /\
    forall d' sn, aiTimer a = Some (d', sn) -> d < d'.

Definition Sound (a : App) : Prop := Inv (state a) /\ DrawnOk a.

(** The restart events. *)
Definition restarts (e : AppEvent) : bool :=
  match e with
  | User _ (Restart _) => true
  | _ => false
  end.

(** A page on which nobody can move: the table is a stalemate, no drawn
    card waits to be played, and the render of the AI effect's timeout, if
    one is pending, sees the current hand, deck, suit and discard pile. *)
Definition seesTable (snap s : State) : Prop :=
  aiHand snap = aiHand s /\ deck snap = deck s /\
  currentSuit snap = currentSuit s /\ discardPile snap = discardPile s.

Definition Deadlock (a : App) : Prop :=
  Stalemate (state a) /\ drawnPending a = [] /\
  forall due snap, aiTimer a = Some (due, snap) -> seesTable snap (state a).

(** [ai_stuck] on the page, with the timeout of the AI effect pending. *)
Definition stuck_page : App := mkApp ai_stuck 0 (Some (1500, ai_stuck)) [].

(** * Properties *)

(** ** Arrays *)

Section Arrays.
Context {A : Type}.
Implicit Types (l : list A) (x y : A).

Lemma pop_snoc l x : pop (l ++ [x]) = Some (l, x).
Proof.
  unfold pop. rewrite rev_app_distr. simpl. now rewrite rev_involutive.
Qed.

Lemma pop_Some l l' x : pop l = Some (l', x) -> l = l' ++ [x].
Proof.
  unfold pop. destruct (rev l) as [|y r] eqn:E; [discriminate|].
  intros H. injection H as <- <-.
  rewrite <- (rev_involutive l), E. reflexivity.
Qed.

Lemma pop_None l : pop l = None -> l = [].
Proof.
  unfold pop. destruct (rev l) as [|y r] eqn:E; [|discriminate].
  intros _. rewrite <- (rev_involutive l), E. reflexivity.
Qed.

Lemma lastOf_snoc l x : lastOf (l ++ [x]) = Some x.
Proof. unfold lastOf. now rewrite rev_app_distr. Qed.

Lemma lastOf_None l : lastOf l = None -> l = [].
Proof.
  unfold lastOf. destruct (rev l) as [|y r] eqn:E; [|discriminate].
  intros _. rewrite <- (rev_involutive l), E. reflexivity.
Qed.

Lemma nth_error_set_nth_eq l i y :
  i < length l -> nth_error (set_nth i y l) i = Some y.
Proof.
  revert i. induction l as [|h t IH]; intros [|i] Hi; simpl in *;
    try lia; auto. apply IH. lia.
Qed.

Lemma nth_error_set_nth_neq l i j y :
  i <> j -> nth_error (set_nth i y l) j = nth_error l j.
Proof.
  revert i j. induction l as [|h t IH]; intros [|i] [|j] Hij; simpl;
    try reflexivity; try congruence. apply IH. congruence.
Qed.

Lemma set_nth_perm l i x y :
  nth_error l i = Some x -> Permutation (y :: l) (x :: set_nth i y l).
Proof.
  revert i. induction l as [|h t IH]; intros [|i] Hi; simpl in *;
    try discriminate.
  - injection Hi as ->. apply perm_swap.
  - rewrite perm_swap. rewrite (IH _ Hi). apply perm_swap.
Qed.

Lemma swap_perm l i j : Permutation (swap i j l) l.
Proof.
  unfold swap.
  destruct (nth_error l i) as [x|] eqn:Ei; [|reflexivity].
  destruct (nth_error l j) as [y|] eqn:Ej; [|reflexivity].
  assert (Hj : nth_error (set_nth i y l) j = Some y).
  { destruct (Nat.eq_dec i j) as [->|Hne].
    - apply nth_error_set_nth_eq. apply nth_error_Some. congruence.
    - rewrite nth_error_set_nth_neq by assumption. exact Ej. }
  apply (Permutation_cons_inv (a := y)).
  rewrite <- (set_nth_perm _ _ _ x Hj).
  symmetry. apply set_nth_perm. exact Ei.
Qed.

Lemma swap_same l i : swap i i l = l.
Proof.
  unfold swap. destruct (nth_error l i) as [x|] eqn:Ei; [|reflexivity].
  assert (H : forall l i x, nth_error l i = Some x -> set_nth i x l = l).
  { clear. induction l as [|h t IH]; intros [|i] x Hx; simpl in *;
      try discriminate.
    - now injection Hx as ->.
    - f_equal. now apply IH. }
  rewrite (H l i x Ei). now apply H.
Qed.

Lemma shuffle_from_perm rnd i l : Permutation (shuffle_from rnd i l) l.
Proof.
  revert l. induction i as [|i IH]; intros l; simpl; [reflexivity|].
  rewrite IH. apply swap_perm.
Qed.
End Arrays.

(** ** Random numbers *)

Lemma floorMul_lt u n : 0 < n -> floorMul u n < n.
Proof.
  intros Hn. unfold floorMul. destruct u as [a d Hlt]. simpl.
  apply Nat.Div0.div_lt_upper_bound. nia.
Qed.

Lemma floorMul_ratio k d : floorMul (ratio k d) (k + S d) = k.
Proof. unfold floorMul, ratio. simpl. apply Nat.div_mul. lia. Qed.

Lemma floorMul_rnd_id i : floorMul (rnd_id i) (i + 1) = i.
Proof.
  unfold rnd_id. replace (i + 1) with (i + 1 * 1) by lia.
  change (1 * 1) with 1. replace (i + 1) with (i + S 0) by lia.
  apply floorMul_ratio.
Qed.

Lemma shuffle_from_rnd_id {A} i (l : list A) : shuffle_from rnd_id i l = l.
Proof.
  revert l. induction i as [|i IH]; intros l; [reflexivity|].
  cbn [shuffle_from].
  replace (floorMul (rnd_id (S i)) (S i + 1)) with (S i)
    by (symmetry; apply floorMul_rnd_id).
  rewrite swap_same. apply IH.
Qed.

Lemma shuffle_rnd_id l : shuffle rnd_id l = l.
Proof. apply shuffle_from_rnd_id. Qed.

Lemma shuffle_perm rnd l : Permutation (shuffle rnd l) l.
Proof. apply shuffle_from_perm. Qed.

(** Reading a field of an updated state. *)
Ltac fields :=
  cbn [deck playerHand aiHand discardPile currentSuit turn phase
       showSuitPicker pendingEightCard message
       set_deck set_playerHand set_aiHand set_discardPile set_currentSuit
       set_turn set_phase set_showSuitPicker set_pendingEightCard
       set_message].

(** ** Decidable equalities *)

Lemma suit_eqb_eq a b : suit_eqb a b = true <-> a = b.
Proof. destruct a, b; simpl; split; congruence. Qed.

Lemma rank_eqb_eq a b : rank_eqb a b = true <-> a = b.
Proof. destruct a, b; simpl; split; congruence. Qed.

Lemma turn_eqb_eq a b : turn_eqb a b = true <-> a = b.
Proof. destruct a, b; simpl; split; congruence. Qed.

Lemma phase_eqb_eq a b : phase_eqb a b = true <-> a = b.
Proof. destruct a, b; simpl; split; congruence. Qed.

(** ** The move validator *)

Lemma isValidMove_Some card top cur :
  exists b,
    isValidMove cur (Some top) card = Some b /\
    (b = true <->
     rank card = R8 \/ cur = Some (suit card) \/ rank card = rank top).
Proof.
  unfold isValidMove.
  destruct (rank_eqb (rank card) R8) eqn:E8.
  { exists true. apply rank_eqb_eq in E8. tauto. }
  assert (N8 : rank card <> R8).
  { intros H. apply rank_eqb_eq in H. congruence. }
  destruct (rank_eqb (rank card) (rank top)) eqn:Er.
  { exists true. apply rank_eqb_eq in Er.
    destruct cur as [cs|]; [destruct (suit_eqb (suit card) cs)|]; tauto. }
  assert (Nr : rank card <> rank top).
  { intros H. apply rank_eqb_eq in H. congruence. }
  destruct cur as [cs|].
  - destruct (suit_eqb (suit card) cs) eqn:Es.
    + exists true. apply suit_eqb_eq in Es. subst cs. tauto.
    + exists false. split; [reflexivity|]. split; [discriminate|].
      intros [H|[H|H]]; [tauto | | tauto].
      injection H as ->.
      assert (suit_eqb (suit card) (suit card) = true) by now apply suit_eqb_eq.
      congruence.
  - exists false. split; [reflexivity|]. split; [discriminate|].
    intros [H|[H|H]]; [tauto | discriminate | tauto].
Qed.

(** With a top discard on the table the validator answers in every render. *)
Lemma isValidMoveIn_total s top card :
  topDiscard s = Some top -> exists v, isValidMoveIn s card = Some v.
Proof.
  intros H. unfold isValidMoveIn. rewrite H.
  destruct (isValidMove_Some card top (currentSuit s)) as (b & Hb & _). eauto.
Qed.

(** C1. With a top discard on the table, [isValidMove] answers, and answers
    [true] exactly when the card is an eight, or its suit is the active
    suit, or its rank is the rank of the top discard.  The verdict is the
    same in every render that shows this active suit and this top discard,
    whatever the rest of the state is. *)
Theorem isValidMove_verdict :
  forall (card top : CardData) (cur : option Suit),
  exists b,
    isValidMove cur (Some top) card = Some b /\
    (b = true <->
     rank card = R8 \/ cur = Some (suit card) \/ rank card = rank top) /\
    (forall s, currentSuit s = cur -> topDiscard s = Some top ->
               isValidMoveIn s card = Some b).
Proof.
  intros card top cur.
  destruct (isValidMove_Some card top cur) as (b & Hb & Hiff).
  exists b. split; [exact Hb|]. split; [exact Hiff|].
  intros s Hc Ht. unfold isValidMoveIn. now rewrite Hc, Ht.
Qed.

(** ** The deal *)

(** C4, as the code has it.  When the shuffle leaves the deck in build
    order, the player's hand is the first 8 cards, the opponent's hand the
    next 8, and the first discard is the LAST card in build order (the 52nd,
    taken by [pop]); the draw pile is the 35 cards from the 17th to the
    51st, and the active suit is the suit of the first discard. *)
Theorem identity_deal :
  forall rnd, shuffle rnd createDeck = createDeck ->
  exists s d,
    initGame rnd initialState = Some s /\
    playerHand s = firstn 8 createDeck /\
    aiHand s = firstn 8 (skipn 8 createDeck) /\
    nth_error createDeck 51 = Some d /\
    discardPile s = [d] /\
    deck s = firstn 35 (skipn 16 createDeck) /\
    currentSuit s = Some (suit d) /\
    turn s = player /\ phase s = playing.
Proof.
  intros rnd H. unfold initGame. rewrite H.
  eexists. exists (newCard spades RK).
  split; [vm_compute; reflexivity|]. vm_compute. repeat split.
Qed.

Lemma identity_deal_witness :
  exists s d,
    initGame rnd_id initialState = Some s /\
    playerHand s = firstn 8 createDeck /\
    aiHand s = firstn 8 (skipn 8 createDeck) /\
    nth_error createDeck 51 = Some d /\
    discardPile s = [d] /\
    deck s = firstn 35 (skipn 16 createDeck) /\
    currentSuit s = Some (suit d) /\
    turn s = player /\ phase s = playing.
Proof. apply (identity_deal rnd_id). apply shuffle_rnd_id. Defined.

(** C4 as the specification words it fails for the identity shuffle: the
    first discard is the king of spades, not the 17th card, the four of
    diamonds. *)
Lemma identity_deal_not_17th : ~ deal_as_stated rnd_id.
Proof.
  intros H. destruct (H (shuffle_rnd_id _)) as (s & d & Hs & _ & _ & Hd & Hp & _).
  unfold initGame in Hs. rewrite shuffle_rnd_id in Hs.
  vm_compute in Hs. injection Hs as <-.
  vm_compute in Hd. injection Hd as <-.
  vm_compute in Hp. discriminate Hp.
Qed.

(** ** Card identities *)

Lemma distinctb_NoDup l : distinctb l = true -> NoDup l.
Proof.
  induction l as [|x t IH]; simpl; intros H; constructor.
  - apply andb_prop in H as [H _]. intros Hin.
    assert (E : existsb (String.eqb x) t = true).
    { apply existsb_exists. exists x. split; [assumption|apply String.eqb_refl]. }
    rewrite E in H. discriminate.
  - apply IH. now apply andb_prop in H as [_ H].
Qed.

Lemma createDeck_ids : NoDup (map id createDeck).
Proof. apply distinctb_NoDup. vm_compute. reflexivity. Qed.

Lemma createDeck_length : length createDeck = 52.
Proof. reflexivity. Qed.

Lemma removeById_fresh c l : ~ In (id c) (map id l) -> removeById c l = l.
Proof.
  induction l as [|h t IH]; simpl; intros H; [reflexivity|].
  destruct (String.eqb (id h) (id c)) eqn:E; simpl.
  - apply String.eqb_eq in E. tauto.
  - f_equal. apply IH. tauto.
Qed.

Lemma removeById_self c : removeById c [c] = [].
Proof. unfold removeById. simpl. now rewrite String.eqb_refl. Qed.

Lemma removeById_app c l1 l2 :
  removeById c (l1 ++ l2) = removeById c l1 ++ removeById c l2.
Proof. apply filter_app. Qed.

Lemma removeById_perm c l :
  In c l -> NoDup (map id l) -> Permutation l (c :: removeById c l).
Proof.
  induction l as [|h t IH]; simpl; intros Hin Hnd; [contradiction|].
  inversion Hnd as [|? ? Hnot Hnd']; subst.
  destruct (String.eqb (id h) (id c)) eqn:E; simpl.
  - apply String.eqb_eq in E.
    assert (h = c) as ->.
    { destruct Hin as [|Hin]; [assumption|].
      exfalso. apply Hnot. rewrite E. now apply in_map. }
    fold (removeById c t). now rewrite removeById_fresh.
  - destruct Hin as [->|Hin].
    + rewrite String.eqb_refl in E. discriminate.
    + fold (removeById c t). rewrite (IH Hin Hnd') at 1. apply perm_swap.
Qed.

Lemma removeById_not_In c l : ~ In c (removeById c l).
Proof.
  intros Hin. apply filter_In in Hin as [_ H].
  now rewrite String.eqb_refl in H.
Qed.

Lemma removeById_In c x l : In x (removeById c l) -> In x l.
Proof. intros H. now apply filter_In in H. Qed.

(** ** Moving a card between containers *)

Section Moves.
Implicit Types (d p a q : list CardData) (x : CardData).

Lemma move_deck_player d p a q x :
  Permutation ((d ++ [x]) ++ p ++ a ++ q) (d ++ (p ++ [x]) ++ a ++ q).
Proof.
  rewrite <- !app_assoc. apply Permutation_app_head. simpl.
  apply Permutation_middle.
Qed.

Lemma move_deck_ai d p a q x :
  Permutation ((d ++ [x]) ++ p ++ a ++ q) (d ++ p ++ (a ++ [x]) ++ q).
Proof.
  rewrite <- !app_assoc. apply Permutation_app_head. simpl.
  rewrite (app_assoc p a (x :: q)), (app_assoc p a q).
  apply Permutation_middle.
Qed.

Lemma move_player_discard d p p' a q x :
  Permutation p (x :: p') ->
  Permutation (d ++ p ++ a ++ q) (d ++ p' ++ a ++ q ++ [x]).
Proof.
  intros H. apply Permutation_app_head. rewrite H. simpl.
  rewrite !app_assoc. apply Permutation_cons_append.
Qed.

Lemma move_ai_discard d p a a' q x :
  Permutation a (x :: a') ->
  Permutation (d ++ p ++ a ++ q) (d ++ p ++ a' ++ q ++ [x]).
Proof.
  intros H. do 2 apply Permutation_app_head. rewrite H. simpl.
  rewrite !app_assoc. apply Permutation_cons_append.
Qed.
End Moves.

(** ** The invariant *)

Lemma Inv_ids s : Inv s -> NoDup (map id (allCards s)).
Proof.
  intros [H _]. apply (Permutation_NoDup (l := map id createDeck)).
  - symmetry. now apply Permutation_map.
  - apply createDeck_ids.
Qed.

Lemma Inv_player_ids s : Inv s -> NoDup (map id (playerHand s)).
Proof.
  intros H. apply Inv_ids in H. unfold allCards in H.
  rewrite !map_app in H.
  apply NoDup_app_remove_l in H. now apply NoDup_app_remove_r in H.
Qed.

Lemma Inv_ai_ids s : Inv s -> NoDup (map id (aiHand s)).
Proof.
  intros H. apply Inv_ids in H. unfold allCards in H.
  rewrite !map_app in H.
  do 2 apply NoDup_app_remove_l in H. now apply NoDup_app_remove_r in H.
Qed.

Lemma isPlayable_true s c :
  isPlayable s c = Some true ->
  turn s = player /\ phase s = playing /\ showSuitPicker s = false /\
  isValidMoveIn s c = Some true.
Proof.
  unfold isPlayable.
  destruct (turn_eqb (turn s) player) eqn:Et; simpl; [|discriminate].
  destruct (phase_eqb (phase s) playing) eqn:Ep; simpl; [|discriminate].
  apply turn_eqb_eq in Et. apply phase_eqb_eq in Ep.
  destruct (isValidMoveIn s c) as [[|]|]; simpl; try discriminate.
  destruct (showSuitPicker s); simpl; try discriminate. auto.
Qed.

Lemma filterOpt_In {A} (f : A -> option bool) l r x :
  filterOpt f l = Some r -> In x r -> In x l /\ f x = Some true.
Proof.
  revert r. induction l as [|h t IH]; simpl; intros r H Hin.
  - injection H as <-. contradiction.
  - destruct (f h) as [b|] eqn:Eh; [|discriminate].
    destruct (filterOpt f t) as [r'|]; [|discriminate].
    injection H as <-. destruct b.
    + destruct Hin as [<-|Hin]; [auto|].
      destruct (IH r' eq_refl Hin). auto.
    + destruct (IH r' eq_refl Hin). auto.
Qed.

Lemma cardToPlay_In u l c : cardToPlay u l = Some c -> In c l.
Proof.
  unfold cardToPlay.
  destruct (0 <? length _); intros H; apply nth_error_In in H.
  - now apply filter_In in H.
  - assumption.
Qed.

Lemma playCard_player_Inv snap c s :
  Inv s -> In c (playerHand s) -> showSuitPicker s = false ->
  Inv (playCard snap c true s).
Proof.
  intros HI Hin Hsp. pose proof (Inv_player_ids s HI) as Hnd.
  destruct HI as [Hperm Hpend].
  assert (Hnone : pendingEightCard s = None).
  { destruct (pendingEightCard s) as [c'|] eqn:E; [|reflexivity].
    destruct (Hpend c' eq_refl). congruence. }
  unfold playCard.
  destruct (rank_eqb (rank c) R8).
  - split; [exact Hperm|]. simpl. intros c' H. injection H as <-. auto.
  - assert (P : Permutation
               (allCards (set_currentSuit (Some (suit c))
                  (set_discardPile (discardPile s ++ [c])
                     (set_playerHand (removeById c (playerHand s)) s))))
               createDeck).
    { unfold allCards. simpl. rewrite <- Hperm. symmetry.
      apply move_player_discard. now apply removeById_perm. }
    destruct (length (playerHand snap) =? 1); (split; [exact P|]); simpl;
      rewrite Hnone; discriminate.
Qed.

Lemma playCard_ai_Inv snap c s :
  Inv s -> In c (aiHand s) -> Inv (playCard snap c false s).
Proof.
  intros HI Hin. pose proof (Inv_ai_ids s HI) as Hnd.
  destruct HI as [Hperm Hpend].
  assert (P : Permutation
             (deck s ++ playerHand s ++ removeById c (aiHand s)
                     ++ discardPile s ++ [c]) createDeck).
  { rewrite <- Hperm. symmetry. apply move_ai_discard.
    now apply removeById_perm. }
  unfold playCard.
  destruct (rank_eqb (rank c) R8); destruct (length (aiHand snap) =? 1);
    (split; [exact P | exact Hpend]).
Qed.

Lemma handleSuitPick_Inv chosen s : Inv s -> Inv (handleSuitPick chosen s).
Proof.
  intros HI. unfold handleSuitPick.
  destruct (pendingEightCard s) as [c|] eqn:E; [|exact HI].
  pose proof (Inv_player_ids s HI) as Hnd.
  destruct HI as [Hperm Hpend]. destruct (Hpend c E) as [Hin _].
  assert (P : Permutation
             (deck s ++ removeById c (playerHand s) ++ aiHand s
                     ++ discardPile s ++ [c]) createDeck).
  { rewrite <- Hperm. symmetry. apply move_player_discard.
    now apply removeById_perm. }
  destruct (length (playerHand s) =? 1); (split; [exact P|]); simpl;
    discriminate.
Qed.

Lemma handleDraw_Inv s s' t :
  Inv s -> handleDraw s = Some (s', t) -> Inv s' /\ timer_ok t s'.
Proof.
  intros HI. unfold handleDraw.
  destruct (_ || _ || _) eqn:G.
  { intros H. injection H as <- <-. now split. }
  apply orb_false_elim in G as [_ Hsp].
  destruct (length (deck s) =? 0).
  { intros H. injection H as <- <-. split; [|exact I].
    destruct HI as [Hperm Hpend]. split; [exact Hperm|exact Hpend]. }
  destruct (pop (deck s)) as [[nd x]|] eqn:Ep; [|discriminate].
  apply pop_Some in Ep. destruct HI as [Hperm Hpend].
  assert (I' : Inv (set_message MsgYouDrew
                     (set_playerHand (playerHand s ++ [x]) (set_deck nd s)))).
  { split.
    - unfold allCards. simpl. rewrite <- Hperm. unfold allCards. rewrite Ep.
      symmetry. apply move_deck_player.
    - simpl. intros c Hc. destruct (Hpend c Hc) as [Hin Hs]. split; [|exact Hs].
      apply in_or_app. now left. }
  destruct (isValidMoveIn s x) as [[|]|]; intros H; try discriminate;
    injection H as <- <-; (split; [exact I' | exact I]).
Qed.

Lemma aiEffect_Inv u s s' t :
  Inv s -> aiEffect u s = Some (s', t) -> Inv s' /\ timer_ok t s'.
Proof.
  intros HI. unfold aiEffect.
  destruct (_ && _).
  2:{ intros H. injection H as <- <-. now split. }
  destruct (filterOpt _ _) as [pl|] eqn:Ef; [|discriminate].
  destruct (0 <? length pl).
  { destruct (cardToPlay u pl) as [c|] eqn:Ec; [|discriminate].
    intros H. injection H as <- <-. split; [|exact I].
    apply playCard_ai_Inv; [exact HI|].
    apply cardToPlay_In in Ec. now apply (filterOpt_In _ _ _ _ Ef). }
  destruct (0 <? length (deck s)).
  2:{ intros H. injection H as <- <-. split; [|exact I].
      destruct HI as [Hperm Hpend]. split; [exact Hperm|exact Hpend]. }
  destruct (pop (deck s)) as [[nd x]|] eqn:Ep; [|discriminate].
  apply pop_Some in Ep. destruct HI as [Hperm Hpend].
  assert (P : Permutation (nd ++ playerHand s ++ (aiHand s ++ [x])
                              ++ discardPile s) createDeck).
  { rewrite <- Hperm. unfold allCards. rewrite Ep.
    symmetry. apply move_deck_ai. }
  destruct (isValidMoveIn s x) as [[|]|]; intros H; try discriminate;
    injection H as <- <-.
  - split; [split; [exact P | exact Hpend]|].
    simpl. apply in_or_app. right. now left.
  - split; [split; [exact P | exact Hpend] | exact I].
Qed.

Lemma fire_Inv t s : Inv s -> timer_ok (Some t) s -> Inv (fire t s).
Proof.
  intros HI Hok. destruct t as [ms|snap c ms]; simpl in *.
  - destruct HI as [Hperm Hpend]. split; [exact Hperm | exact Hpend].
  - now apply playCard_ai_Inv.
Qed.

Lemma settle_Inv r : Inv (fst r) -> timer_ok (snd r) (fst r) -> Inv (settle r).
Proof.
  destruct r as [s [t|]]; unfold settle; simpl; intros HI Hok;
    [now apply fire_Inv | exact HI].
Qed.

Lemma cardClick_Inv c s s' :
  Inv s -> In c (playerHand s) -> cardClick c s = Some s' -> Inv s'.
Proof.
  intros HI Hin. unfold cardClick.
  destruct (isPlayable s c) as [[|]|] eqn:E; intros H; try discriminate;
    injection H as <-; [|exact HI].
  apply isPlayable_true in E as (_ & _ & Hsp & _).
  now apply playCard_player_Inv.
Qed.

Lemma step_Inv e s s' : Inv s -> step e s = Some s' -> Inv s'.
Proof.
  intros HI. destruct e as [|i|chosen|u]; simpl.
  - unfold playerDraw. destruct (handleDraw s) as [[s1 t]|] eqn:E;
      simpl; intros H; [|discriminate]. injection H as <-.
    destruct (handleDraw_Inv _ _ _ HI E). now apply settle_Inv.
  - destruct (nth_error (playerHand s) i) as [c|] eqn:E; [|discriminate].
    apply cardClick_Inv; [exact HI|]. now apply nth_error_In in E.
  - intros H. injection H as <-. now apply handleSuitPick_Inv.
  - unfold aiTurn. destruct (aiEffect u s) as [[s1 t]|] eqn:E;
      simpl; intros H; [|discriminate]. injection H as <-.
    destruct (aiEffect_Inv _ _ _ _ HI E). now apply settle_Inv.
Qed.

Lemma shuffle_length rnd l : length (shuffle rnd l) = length l.
Proof. apply Permutation_length, shuffle_perm. Qed.


(** The deal returns: the shuffled deck has 52 cards, so [pop] finds one. *)
Lemma initGame_total rnd s0 : exists s, initGame rnd s0 = Some s.
Proof.
  unfold initGame.
  destruct (pop (skipn 8 (skipn 8 (shuffle rnd createDeck))))
    as [[nd x]|] eqn:E; [eexists; reflexivity|].
  apply pop_None in E. apply (f_equal (@length _)) in E.
  rewrite !length_skipn, shuffle_length, createDeck_length in E.
  discriminate E.
Qed.

Lemma initGame_Inv rnd s : initGame rnd initialState = Some s -> Inv s.
Proof.
  unfold initGame. pose proof (shuffle_perm rnd createDeck) as HL.
  generalize dependent (shuffle rnd createDeck). intros L HL.
  destruct (pop (skipn 8 (skipn 8 L))) as [[nd x]|] eqn:E; [|discriminate].
  intros H. injection H as <-. apply pop_Some in E.
  split; [|simpl; discriminate].
  unfold allCards.
  cbn [deck playerHand aiHand discardPile set_message set_phase set_turn
       set_currentSuit set_discardPile set_aiHand set_playerHand set_deck].
  rewrite <- HL.
  apply Permutation_trans
    with (firstn 8 L ++ firstn 8 (skipn 8 L) ++ nd ++ [x]).
  - rewrite (app_assoc (firstn 8 L)), (app_assoc (firstn 8 L) _ (nd ++ [x])).
    apply Permutation_app_swap_app.
  - rewrite <- E, !firstn_skipn. reflexivity.
Qed.

Lemma reachable_Inv s : reachable s -> Inv s.
Proof.
  induction 1 as [rnd s H|e s s' _ IH H].
  - now apply (initGame_Inv rnd).
  - now apply (step_Inv e s).
Qed.

Lemma run_reachable es s s' : reachable s -> run es s = Some s' -> reachable s'.
Proof.
  revert s. induction es as [|e es IH]; simpl; intros s Hr H.
  - now injection H as <-.
  - destruct (step e s) as [s1|] eqn:E; [|discriminate].
    apply (IH s1); [|exact H]. now apply (reach_step e s).
Qed.

(** ** The deal of the identity shuffle *)

Lemma dealt_is_the_deal : initGame rnd_id initialState = Some dealt.
Proof. vm_compute. reflexivity. Qed.

Lemma dealt_reachable : reachable dealt.
Proof. apply (reach_deal rnd_id). vm_compute. reflexivity. Defined.

(** ** End of the game *)

(** C3, where the code departs from it.  In the game [stale_win_trace] the
    AI holds one card it cannot play, draws an eight and plays it from the
    timer of the render before the draw: [playCard] reads that render's
    [aiHand], of length 1, and declares the AI the winner while it still
    holds a card and the player holds seven. *)
Theorem stale_hand_declares_winner :
  exists s,
    run stale_win_trace dealt = Some s /\
    reachable s /\
    aiEffect first before_stale_win
      = Some (set_message MsgAiDrew
                (set_aiHand [newCard hearts RK; newCard spades R8]
                   (set_deck (removelast (deck before_stale_win))
                      before_stale_win)),
              Some (PlayDrawn before_stale_win (newCard spades R8) 1000)) /\
    phase s = gameOver /\ message s = MsgAiWins /\
    aiHand s = [newCard hearts RK] /\
    length (playerHand s) = 7.
Proof.
  eexists. split; [vm_compute; reflexivity|]. split.
  - apply (run_reachable stale_win_trace dealt); [exact dealt_reachable|].
    vm_compute. reflexivity.
  - vm_compute. repeat split.
Qed.

(** Scenario D holds: a click on the player's last card, not an eight, ends
    the game at once; the turn is not passed. *)
Lemma last_card_ends_game s c :
  playerHand s = [c] -> isPlayable s c = Some true -> rank c <> R8 ->
  exists s', cardClick c s = Some s' /\
    phase s' = gameOver /\ turn s' = turn s /\ playerHand s' = [] /\
    discardPile s' = discardPile s ++ [c].
Proof.
  intros Hh Hp H8. unfold cardClick. rewrite Hp. eexists. split; [reflexivity|].
  unfold playCard.
  destruct (rank_eqb (rank c) R8) eqn:E; [apply rank_eqb_eq in E; tauto|].
  rewrite Hh. simpl. rewrite String.eqb_refl. auto.
Qed.

(** ** The human's eight *)

(** C5. A click on a playable eight of the player's hand keeps the phase at
    playing and the turn with the player, records the card as pending and
    moves no card; [handleSuitPick] then takes exactly that card out of the
    hand, puts it on top of the discard pile, makes the chosen suit the
    active suit and clears the pending card. *)
Theorem eight_waits_for_suit :
  forall s card chosen,
    In card (playerHand s) -> NoDup (map id (playerHand s)) ->
    isPlayable s card = Some true -> rank card = R8 ->
    exists s1,
      cardClick card s = Some s1 /\
      phase s1 = playing /\ turn s1 = player /\
      pendingEightCard s1 = Some card /\ showSuitPicker s1 = true /\
      deck s1 = deck s /\ playerHand s1 = playerHand s /\
      aiHand s1 = aiHand s /\ discardPile s1 = discardPile s /\
      currentSuit s1 = currentSuit s /\
      let s2 := handleSuitPick chosen s1 in
      Permutation (playerHand s) (card :: playerHand s2) /\
      ~ In card (playerHand s2) /\
      discardPile s2 = discardPile s ++ [card] /\
      topDiscard s2 = Some card /\
      currentSuit s2 = Some chosen /\
      pendingEightCard s2 = None /\ showSuitPicker s2 = false /\
      deck s2 = deck s /\ aiHand s2 = aiHand s.
Proof.
  intros s card chosen Hin Hnd Hp H8.
  unfold cardClick. rewrite Hp.
  apply isPlayable_true in Hp as (Ht & Hph & _ & _).
  eexists. split; [reflexivity|].
  unfold playCard. rewrite H8. simpl.
  repeat (split; [solve [auto]|]).
  unfold handleSuitPick. simpl.
  assert (Hperm := removeById_perm card (playerHand s) Hin Hnd).
  assert (Hnot := removeById_not_In card (playerHand s)).
  destruct (length (playerHand s) =? 1); simpl;
    unfold topDiscard; simpl; rewrite lastOf_snoc; repeat split; auto.
Qed.

Lemma eight_waits_for_suit_witness :
  exists s1,
    cardClick (newCard hearts R8) dealt = Some s1 /\
    phase s1 = playing /\ turn s1 = player /\
    pendingEightCard s1 = Some (newCard hearts R8) /\
    showSuitPicker s1 = true /\
    deck s1 = deck dealt /\ playerHand s1 = playerHand dealt /\
    aiHand s1 = aiHand dealt /\ discardPile s1 = discardPile dealt /\
    currentSuit s1 = currentSuit dealt /\
    let s2 := handleSuitPick clubs s1 in
    Permutation (playerHand dealt) (newCard hearts R8 :: playerHand s2) /\
    ~ In (newCard hearts R8) (playerHand s2) /\
    discardPile s2 = discardPile dealt ++ [newCard hearts R8] /\
    topDiscard s2 = Some (newCard hearts R8) /\
    currentSuit s2 = Some clubs /\
    pendingEightCard s2 = None /\ showSuitPicker s2 = false /\
    deck s2 = deck dealt /\ aiHand s2 = aiHand dealt.
Proof.
  apply (eight_waits_for_suit dealt (newCard hearts R8) clubs).
  - apply (nth_error_In _ 7). reflexivity.
  - apply distinctb_NoDup. vm_compute. reflexivity.
  - vm_compute. reflexivity.
  - reflexivity.
Defined.

(** ** Drawing *)

Lemma draw_guard_open s :
  turn s = player -> phase s = playing -> showSuitPicker s = false ->
  negb (turn_eqb (turn s) player) || negb (phase_eqb (phase s) playing)
    || showSuitPicker s = false.
Proof. intros -> -> ->. reflexivity. Qed.

Lemma length_snoc_eqb {A} (d : list A) x : (length (d ++ [x]) =? 0) = false.
Proof. rewrite length_app. simpl. apply Nat.eqb_neq. lia. Qed.

Lemma length_snoc_ltb {A} (d : list A) x : (0 <? length (d ++ [x])) = true.
Proof. rewrite length_app. simpl. apply Nat.ltb_lt. lia. Qed.

(** The player's draw on an empty deck. *)
Lemma playerDraw_empty s :
  turn s = player -> phase s = playing -> showSuitPicker s = false ->
  deck s = [] ->
  handleDraw s = Some (set_message MsgDeckEmptySkip s, Some (SetTurnAi 1500)).
Proof.
  intros Ht Hp Hs Hd. unfold handleDraw.
  rewrite (draw_guard_open s Ht Hp Hs), Hd. reflexivity.
Qed.

(** The player's draw on a deck that ends with [x]. *)
Lemma playerDraw_card s d x v :
  turn s = player -> phase s = playing -> showSuitPicker s = false ->
  deck s = d ++ [x] -> isValidMoveIn s x = Some v ->
  handleDraw s =
    Some (set_message MsgYouDrew
            (set_playerHand (playerHand s ++ [x]) (set_deck d s)),
          if v then None else Some (SetTurnAi 1000)).
Proof.
  intros Ht Hp Hs Hd Hv. unfold handleDraw.
  rewrite (draw_guard_open s Ht Hp Hs), Hd, length_snoc_eqb, pop_snoc, Hv.
  now destruct v.
Qed.

Lemma ai_guard_open s :
  turn s = ai -> phase s = playing ->
  turn_eqb (turn s) ai && phase_eqb (phase s) playing = true.
Proof. intros -> ->. reflexivity. Qed.

Lemma playCard_ai_containers snap c s :
  deck (playCard snap c false s) = deck s /\
  playerHand (playCard snap c false s) = playerHand s /\
  aiHand (playCard snap c false s) = removeById c (aiHand s) /\
  discardPile (playCard snap c false s) = discardPile s ++ [c].
Proof.
  unfold playCard.
  destruct (rank_eqb (rank c) R8); destruct (length (aiHand snap) =? 1);
    simpl; auto.
Qed.

(** ** The AI's choice of a card *)

Lemma In_nonEights c l : In c (nonEights l) <-> In c l /\ rank c <> R8.
Proof.
  unfold nonEights. rewrite filter_In. split; intros [H1 H2]; split; auto.
  - intros E. apply rank_eqb_eq in E. rewrite E in H2. discriminate.
  - destruct (rank_eqb (rank c) R8) eqn:E; [|reflexivity].
    apply rank_eqb_eq in E. contradiction.
Qed.

Lemma length_pos_ltb {A} (l : list A) : l <> [] -> (0 <? length l) = true.
Proof. destruct l; [congruence|reflexivity]. Qed.

Lemma cardToPlay_nonEight u l :
  nonEights l <> [] ->
  cardToPlay u l
    = nth_error (nonEights l) (floorMul u (length (nonEights l))) /\
  floorMul u (length (nonEights l)) < length (nonEights l).
Proof.
  intros H. unfold cardToPlay. fold (nonEights l).
  rewrite (length_pos_ltb _ H). split; [reflexivity|].
  apply floorMul_lt. destruct (nonEights l); [congruence|simpl; lia].
Qed.

Lemma cardToPlay_eight u l :
  nonEights l = [] -> cardToPlay u l = nth_error l 0.
Proof. intros H. unfold cardToPlay. fold (nonEights l). now rewrite H. Qed.

Lemma cardToPlay_Some u l : l <> [] -> exists c, cardToPlay u l = Some c.
Proof.
  intros Hl. destruct (nonEights l) as [|y t] eqn:E.
  - rewrite (cardToPlay_eight u l E). destruct l; [congruence|simpl; eauto].
  - assert (Hne : nonEights l <> []) by congruence.
    destruct (cardToPlay_nonEight u l Hne) as [-> Hlt].
    destruct (nth_error (nonEights l) _) eqn:En; [eauto|].
    apply nth_error_None in En. lia.
Qed.

(** ** The suit the AI names *)

Section SuitCounts.
Variable card : CardData.

Let step (acc : list (Suit * nat)) (c : CardData) :=
  if negb (String.eqb (id c) (id card)) then bump (suit c) acc else acc.

Lemma getCount_bump t s acc :
  getCount t (bump s acc)
    = getCount t acc + (if suit_eqb s t then 1 else 0).
Proof.
  induction acc as [|[k n] r IH]; simpl.
  - destruct (suit_eqb s t); reflexivity.
  - destruct (suit_eqb k s) eqn:Eks; simpl.
    + apply suit_eqb_eq in Eks. subst k.
      destruct (suit_eqb s t); lia.
    + destruct (suit_eqb k t) eqn:Ekt; [|exact IH].
      apply suit_eqb_eq in Ekt. subst k.
      destruct (suit_eqb s t) eqn:Est; [|lia].
      apply suit_eqb_eq in Est. subst s.
      assert (suit_eqb t t = true) by now apply suit_eqb_eq. congruence.
Qed.

Lemma getCount_fold t l acc :
  getCount t (fold_left step l acc)
    = getCount t acc + countSuit t (removeById card l).
Proof.
  revert acc. induction l as [|c l IH]; intros acc; simpl.
  - unfold countSuit. simpl. lia.
  - rewrite IH. unfold step.
    destruct (negb (String.eqb (id c) (id card))); [|reflexivity].
    rewrite getCount_bump. unfold countSuit. simpl.
    destruct (suit_eqb (suit c) t); simpl; lia.
Qed.


Lemma suitCounts_count t hand :
  getCount t (suitCounts hand card) = countSuit t (removeById card hand).
Proof. unfold suitCounts. fold step. now rewrite getCount_fold. Qed.

End SuitCounts.

Lemma getCount_key_or_zero t acc :
  In t (map fst acc) \/ getCount t acc = 0.
Proof.
  induction acc as [|[k n] r IH]; simpl; [now right|].
  destruct (suit_eqb k t) eqn:E.
  - left. left. now apply suit_eqb_eq.
  - destruct IH; auto.
Qed.

Section SortByCount.
Context {A : Type} (f : A -> nat).

Let cmp (a b : A) : Z := (Z.of_nat (f b) - Z.of_nat (f a))%Z.

Lemma In_insertBy y x l : In y (insertBy cmp x l) <-> y = x \/ In y l.
Proof.
  induction l as [|h t IH]; simpl.
  - intuition.
  - destruct (0 <? cmp x h)%Z; simpl; rewrite ?IH; intuition.
Qed.

Lemma In_sortBy y l : In y (sortBy cmp l) <-> In y l.
Proof.
  induction l as [|h t IH]; simpl; [tauto|].
  rewrite In_insertBy, IH. intuition.
Qed.

Lemma insertBy_head_max x l :
  head_max f l -> head_max f (insertBy cmp x l).
Proof.
  destruct l as [|h t]; simpl; [tauto|].
  intros H. destruct (0 <? cmp x h)%Z eqn:E; simpl.
  - apply Z.ltb_lt in E. unfold cmp in E.
    intros y Hy. apply In_insertBy in Hy as [->|Hy]; [lia|auto].
  - apply Z.ltb_ge in E. unfold cmp in E.
    intros y [<-|Hy]; [lia|]. specialize (H y Hy). lia.
Qed.

Lemma sortBy_head_max l : head_max f (sortBy cmp l).
Proof.
  induction l as [|h t IH]; simpl; [exact I|].
  now apply insertBy_head_max.
Qed.

Lemma sortBy_head l h t :
  sortBy cmp l = h :: t -> In h l /\ forall y, In y l -> f y <= f h.
Proof.
  intros E. pose proof (sortBy_head_max l) as H. rewrite E in H. simpl in H.
  split.
  - apply (In_sortBy h l). rewrite E. now left.
  - intros y Hy. apply (In_sortBy y l) in Hy. rewrite E in Hy.
    destruct Hy as [<-|Hy]; [lia|auto].
Qed.

Lemma sortBy_nil l : sortBy cmp l = [] -> l = [].
Proof.
  destruct l as [|h t]; [reflexivity|]. intros E. exfalso.
  assert (H : In h (sortBy cmp (h :: t))) by (apply In_sortBy; now left).
  rewrite E in H. contradiction.
Qed.
End SortByCount.

Lemma bestSuit_max hand card t :
  countSuit t (removeById card hand)
    <= countSuit (bestSuit hand card) (removeById card hand).
Proof.
  rewrite <- !suitCounts_count. unfold bestSuit.
  set (counts := suitCounts hand card).
  destruct (sortBy _ (map fst counts)) as [|h r] eqn:E.
  - apply (sortBy_nil (fun k => getCount k counts)) in E.
    destruct (getCount_key_or_zero t counts) as [H|H].
    + rewrite E in H. contradiction.
    + rewrite H. lia.
  - apply (sortBy_head (fun k => getCount k counts)) in E as [_ Hmax].
    destruct (getCount_key_or_zero t counts) as [H|H].
    + now apply Hmax.
    + rewrite H. lia.
Qed.


Lemma playCard_ai_suit snap c s :
  currentSuit (playCard snap c false s)
    = Some (if rank_eqb (rank c) R8 then bestSuit (aiHand snap) c
            else suit c).
Proof.
  unfold playCard.
  destruct (rank_eqb (rank c) R8); destruct (length (aiHand snap) =? 1);
    reflexivity.
Qed.





(** ** Erroneous calls *)

(** C9, as the code has it.  A draw or a click on a card out of turn or
    outside the playing phase, a draw while the suit picker is open, a suit
    pick with no pending eight and an AI timer outside the AI's turn return
    with the state exactly as it was, status line included, and start no
    timer: the call is ignored and nothing is reported. *)
Theorem erroneous_calls_ignored :
  forall s,
    (turn s <> player \/ phase s <> playing \/ showSuitPicker s = true ->
     handleDraw s = Some (s, None) /\ playerDraw s = Some s) /\
    (turn s <> player \/ phase s <> playing ->
     forall c, cardClick c s = Some s) /\
    (pendingEightCard s = None ->
     forall chosen, handleSuitPick chosen s = s) /\
    (turn s <> ai \/ phase s <> playing ->
     forall u, aiEffect u s = Some (s, None) /\ aiTurn u s = Some s).
Proof.
  intros s. split; [|split; [|split]].
  - intros H. unfold playerDraw, handleDraw.
    destruct (turn s), (phase s), (showSuitPicker s); simpl; auto;
      destruct H as [H|[H|H]]; congruence.
  - intros H c. unfold cardClick, isPlayable.
    destruct (turn s), (phase s); simpl; try reflexivity;
      destruct H as [H|H]; congruence.
  - intros H chosen. unfold handleSuitPick. now rewrite H.
  - intros H u. unfold aiTurn, aiEffect.
    destruct (turn s), (phase s); simpl; auto;
      destruct H as [H|H]; congruence.
Qed.

(** C9 as the specification words it fails when the player draws during
    the AI's turn: the status line stays as it was, so no reason is
    reported. *)
Lemma out_of_turn_draw_is_silent : ~ erroneous_calls_as_stated opponent_to_move.
Proof.
  intros [H _].
  destruct H as [(s' & Hs & _ & Hr) _]; [left; discriminate|].
  vm_compute in Hs. injection Hs as <-. apply Hr. reflexivity.
Qed.

(** ** Several draws in one turn *)

Lemma playerDraw_legal s d x :
  turn s = player -> phase s = playing -> showSuitPicker s = false ->
  deck s = d ++ [x] -> isValidMoveIn s x = Some true ->
  playerDraw s =
    Some (set_message MsgYouDrew
            (set_playerHand (playerHand s ++ [x]) (set_deck d s))).
Proof.
  intros Ht Hp Hs Hd Hv. unfold playerDraw.
  now rewrite (playerDraw_card s d x true Ht Hp Hs Hd Hv).
Qed.

Lemma legal_draws s d xs :
  turn s = player -> phase s = playing -> showSuitPicker s = false ->
  deck s = d ++ xs ->
  Forall (fun x => isValidMoveIn s x = Some true) xs ->
  exists s',
    run (repeat Draw (length xs)) s = Some s' /\
    deck s' = d /\ playerHand s' = playerHand s ++ rev xs /\
    aiHand s' = aiHand s /\ discardPile s' = discardPile s /\
    currentSuit s' = currentSuit s /\
    turn s' = player /\ phase s' = playing /\ showSuitPicker s' = false.
Proof.
  revert s. induction xs as [|x xs IH] using rev_ind; intros s Ht Hp Hs Hd Hall.
  - exists s. simpl. rewrite app_nil_r in *. repeat split; auto.
  - apply Forall_app in Hall as [Hall Hx]. inversion Hx as [|? ? Hx' _]; subst.
    rewrite app_assoc in Hd.
    rewrite length_app, Nat.add_comm. simpl.
    rewrite (playerDraw_legal s (d ++ xs) x Ht Hp Hs Hd Hx').
    set (s1 := set_message MsgYouDrew
                 (set_playerHand (playerHand s ++ [x]) (set_deck (d ++ xs) s))).
    destruct (IH s1) as (s' & Hrun & H1 & H2 & H3 & H4 & H5 & H6 & H7 & H8);
      try assumption; try reflexivity.
    exists s'. split; [exact Hrun|]. rewrite H1, H2, H3, H4, H5.
    subst s1. simpl. rewrite rev_app_distr, <- app_assoc. simpl.
    repeat split; assumption.
Qed.

(** C10, as the code has it.  While the turn is the player's, the phase is
    playing and no suit pick is pending, a run of legal cards at the draw
    end of the deck can be drawn one after the other in the same turn, each
    draw moving one card to the player's hand and leaving the turn with the
    player.  After them a further draw is accepted again: it moves the next
    card if the deck has one, and on an empty deck it moves no card and
    passes the turn.  So the draws of one turn are limited by the cards left
    in the deck, and by nothing else as long as the cards drawn are legal. *)
Theorem draws_limited_by_deck :
  forall s d xs top,
    turn s = player -> phase s = playing -> showSuitPicker s = false ->
    deck s = d ++ xs -> topDiscard s = Some top ->
    Forall (fun x => isValidMoveIn s x = Some true) xs ->
    exists s',
      run (repeat Draw (length xs)) s = Some s' /\
      deck s' = d /\ playerHand s' = playerHand s ++ rev xs /\
      aiHand s' = aiHand s /\ discardPile s' = discardPile s /\
      turn s' = player /\ phase s' = playing /\ showSuitPicker s' = false /\
      (forall d' y, d = d' ++ [y] ->
         exists s'', playerDraw s' = Some s'' /\
           deck s'' = d' /\ playerHand s'' = playerHand s' ++ [y]) /\
      (d = [] ->
         exists s'', playerDraw s' = Some s'' /\
           deck s'' = [] /\ playerHand s'' = playerHand s' /\ turn s'' = ai).
Proof.
  intros s d xs top Ht Hp Hs Hd Htop Hall.
  destruct (legal_draws s d xs Ht Hp Hs Hd Hall)
    as (s' & Hrun & H1 & H2 & H3 & H4 & H5 & H6 & H7 & H8).
  exists s'. repeat (split; [assumption|]). split.
  - intros d' y Hd'.
    assert (Htop' : topDiscard s' = Some top).
    { unfold topDiscard in *. now rewrite H4. }
    destruct (isValidMoveIn_total s' top y Htop') as [v Hv].
    unfold playerDraw.
    rewrite (playerDraw_card s' d' y v H6 H7 H8); [|congruence|exact Hv].
    eexists. split; [reflexivity|]. destruct v; unfold settle; simpl; auto.
  - intros ->. unfold playerDraw.
    rewrite (playerDraw_empty s' H6 H7 H8 H1).
    eexists. split; [reflexivity|]. unfold settle. simpl. auto.
Qed.

Lemma draws_limited_by_deck_witness :
  exists s',
    run (repeat Draw 2) dealt = Some s' /\
    deck s' = firstn 33 (deck dealt) /\
    playerHand s' = playerHand dealt ++ [newCard spades RQ; newCard spades RJ] /\
    aiHand s' = aiHand dealt /\ discardPile s' = discardPile dealt /\
    turn s' = player /\ phase s' = playing /\ showSuitPicker s' = false /\
    (forall d' y, firstn 33 (deck dealt) = d' ++ [y] ->
       exists s'', playerDraw s' = Some s'' /\
         deck s'' = d' /\ playerHand s'' = playerHand s' ++ [y]) /\
    (firstn 33 (deck dealt) = [] ->
       exists s'', playerDraw s' = Some s'' /\
         deck s'' = [] /\ playerHand s'' = playerHand s' /\ turn s'' = ai).
Proof.
  apply (draws_limited_by_deck dealt (firstn 33 (deck dealt))
           [newCard spades RJ; newCard spades RQ] (newCard spades RK));
    try reflexivity.
  repeat constructor.
Defined.

(** C10 as worded fails when the legal card just drawn was the
    last of the deck: the further draw moves no card. *)
Lemma further_draw_needs_a_card : ~ further_draw_as_stated one_card_left.
Proof.
  intros H.
  destruct (H [] (newCard diamonds R4) deck_drained)
    as (s' & d' & y & _ & Hd & _); try reflexivity.
  vm_compute in Hd. destruct d'; discriminate Hd.
Qed.

Lemma one_card_left_reachable : reachable one_card_left.
Proof.
  apply (run_reachable drain_trace dealt); [exact dealt_reachable|].
  vm_compute. reflexivity.
Qed.

Lemma opponent_to_move_reachable : reachable opponent_to_move.
Proof.
  apply (run_reachable [Click 7; SuitPick clubs] dealt);
    [exact dealt_reachable|].
  vm_compute. reflexivity.
Qed.


(** ** A hand that empties ends the game *)

Lemma removeById_length c l :
  In c l -> NoDup (map id l) -> length l = S (length (removeById c l)).
Proof.
  intros Hin Hnd. now rewrite (Permutation_length (removeById_perm c l Hin Hnd)).
Qed.

Lemma Inv_no_pending s :
  Inv s -> showSuitPicker s = false -> pendingEightCard s = None.
Proof.
  intros [_ H] Hs. destruct (pendingEightCard s) as [c|]; [|reflexivity].
  destruct (H c eq_refl). congruence.
Qed.

Lemma long_hand_survives c l :
  In c l -> NoDup (map id l) -> (length l =? 1) = false ->
  removeById c l <> [].
Proof.
  intros Hin Hnd Hlen Hnil. apply Nat.eqb_neq in Hlen.
  rewrite (removeById_length c l Hin Hnd), Hnil in Hlen. simpl in Hlen. lia.
Qed.

Ltac no_pending Hnone :=
  let c := fresh "c" in
  let H := fresh "H" in
  intros c H; simpl in H; rewrite Hnone in H; discriminate H.

Ltac snoc_not_nil :=
  let H := fresh "H" in
  intros H; apply app_eq_nil in H as [_ H]; discriminate H.

Lemma playCard_player_Live c s :
  Inv s -> Live s -> In c (playerHand s) ->
  isPlayable s c = Some true -> Live (playCard s c true s).
Proof.
  intros HI (Hd & Hh & Hpe) Hin Hpl.
  apply isPlayable_true in Hpl as (Ht & Hp & Hs & _).
  pose proof (Inv_no_pending s HI Hs) as Hnone.
  pose proof (Inv_player_ids s HI) as Hnd.
  destruct (Hh Hp) as [_ Hai].
  unfold playCard. destruct (rank_eqb (rank c) R8).
  - split; [exact Hd|]. split; [exact Hh|]. intros c' _. now split.
  - destruct (length (playerHand s) =? 1) eqn:E.
    + split; [discriminate|]. split; [discriminate|]. no_pending Hnone.
    + split; [exact Hd|]. split; [|no_pending Hnone].
      intros _. split; [|exact Hai]. now apply long_hand_survives.
Qed.

Lemma handleSuitPick_Live chosen s :
  Inv s -> Live s -> Live (handleSuitPick chosen s).
Proof.
  intros HI HL. unfold handleSuitPick.
  destruct (pendingEightCard s) as [c|] eqn:Epe; [|exact HL].
  destruct HL as (Hd & Hh & Hpe). destruct (Hpe c Epe) as [Ht Hp].
  destruct (Hh Hp) as [_ Hai].
  pose proof (Inv_player_ids s HI) as Hnd.
  destruct HI as [_ Hin]. destruct (Hin c Epe) as [Hin' _].
  destruct (length (playerHand s) =? 1) eqn:E.
  - split; [discriminate|]. split; discriminate.
  - split; [exact Hd|]. split; [|discriminate].
    intros _. split; [|exact Hai]. now apply long_hand_survives.
Qed.

(** An AI play by the function of render [snap] on the state [cur]: the
    hands stay non-empty when [snap] had more than one card and [cur] has
    more than one. *)
Lemma playCard_ai_Live snap c cur :
  Inv cur -> Live cur -> In c (aiHand cur) ->
  turn cur = ai -> phase cur = playing ->
  ((length (aiHand snap) =? 1) = false -> 2 <= length (aiHand cur)) ->
  Live (playCard snap c false cur).
Proof.
  intros HI (Hd & Hh & Hpe) Hin Ht Hp Hlen.
  pose proof (Inv_ai_ids cur HI) as Hnd.
  destruct (Hh Hp) as [Hpl _].
  assert (Hnone : pendingEightCard cur = None).
  { destruct (pendingEightCard cur) as [c'|]; [|reflexivity].
    destruct (Hpe c' eq_refl). congruence. }
  assert (Hrem : (length (aiHand snap) =? 1) = false ->
                 removeById c (aiHand cur) <> []).
  { intros E Hnil. specialize (Hlen E).
    rewrite (removeById_length c _ Hin Hnd), Hnil in Hlen.
    simpl in Hlen. lia. }
  unfold playCard.
  destruct (rank_eqb (rank c) R8); destruct (length (aiHand snap) =? 1);
    (split; [first [exact Hd | discriminate]|]);
    (split; [|no_pending Hnone]);
    first [discriminate | intros _; split; [exact Hpl | now apply Hrem]].
Qed.

Lemma playerDraw_Live s s' : Inv s -> Live s -> playerDraw s = Some s' -> Live s'.
Proof.
  intros HI HL. unfold playerDraw, handleDraw.
  destruct (_ || _ || _) eqn:G.
  { simpl. intros H. now injection H as <-. }
  apply orb_false_elim in G as [_ Hs].
  pose proof (Inv_no_pending s HI Hs) as Hnone.
  destruct HL as (Hd & Hh & Hpe).
  destruct (length (deck s) =? 0).
  { simpl. intros H. injection H as <-. unfold settle. simpl.
    split; [exact Hd|]. split; [exact Hh|]. no_pending Hnone. }
  destruct (pop (deck s)) as [[nd x]|]; [|discriminate].
  destruct (isValidMoveIn s x) as [[|]|]; simpl; intros H;
    try discriminate; injection H as <-; unfold settle; simpl;
    (split; [exact Hd|]); (split; [|no_pending Hnone]);
    intros Hp; (split; [snoc_not_nil | now apply Hh]).
Qed.

Lemma aiTurn_Live u s s' : Inv s -> Live s -> aiTurn u s = Some s' -> Live s'.
Proof.
  intros HI HL Hturn.
  destruct (turn_eqb (turn s) ai && phase_eqb (phase s) playing) eqn:G.
  2:{ unfold aiTurn, aiEffect in Hturn. rewrite G in Hturn.
      simpl in Hturn. now injection Hturn as <-. }
  apply andb_prop in G as [Et Ep].
  apply turn_eqb_eq in Et. apply phase_eqb_eq in Ep.
  pose proof HL as (Hd & Hh & Hpe). destruct (Hh Ep) as [Hpl Hai].
  assert (Hnone : pendingEightCard s = None).
  { destruct (pendingEightCard s) as [c'|]; [|reflexivity].
    destruct (Hpe c' eq_refl). congruence. }
  assert (Hlong : forall l : list CardData,
             l <> [] -> (length l =? 1) = false -> 2 <= length l).
  { intros [|? [|? ?]] H1 H2; simpl in *; try congruence; lia. }
  unfold aiTurn in Hturn.
  destruct (aiEffect u s) as [[s1 t]|] eqn:HE; [|discriminate].
  simpl in Hturn. injection Hturn as <-.
  destruct (aiEffect_Inv u s s1 t HI HE) as [HI1 Hok].
  revert HE. unfold aiEffect. rewrite (ai_guard_open s Et Ep).
  destruct (filterOpt _ _) as [pl|] eqn:Ef; [|discriminate].
  destruct (0 <? length pl).
  { destruct (cardToPlay u pl) as [c|] eqn:Ec; [|discriminate].
    intros H. injection H as <- <-. cbn [settle fst snd].
    apply cardToPlay_In in Ec.
    apply (filterOpt_In _ _ _ _ Ef) in Ec as [Ec _].
    apply playCard_ai_Live; auto. }
  destruct (0 <? length (deck s)).
  2:{ intros H. injection H as <- <-. cbn [settle fst snd].
      split; [exact Hd|]. split; [exact Hh|]. no_pending Hnone. }
  destruct (pop (deck s)) as [[nd x]|] eqn:Epop; [|discriminate].
  destruct (isValidMoveIn s x) as [[|]|] eqn:Ev; intros H;
    try discriminate; injection H as <- <-; cbn [settle fst snd fire].
  - simpl in Hok. apply playCard_ai_Live; auto.
    + split; [exact Hd|]. split; [|no_pending Hnone].
      intros _. split; [exact Hpl | snoc_not_nil].
    + intros _. simpl. rewrite length_app. simpl.
      destruct (aiHand s); [congruence|simpl; lia].
  - split; [exact Hd|]. split; [|no_pending Hnone].
    intros _. split; [exact Hpl | snoc_not_nil].
Qed.

Lemma step_Live e s s' : Inv s -> Live s -> step e s = Some s' -> Live s'.
Proof.
  intros HI HL. destruct e as [|i|chosen|u]; simpl.
  - now apply playerDraw_Live.
  - destruct (nth_error (playerHand s) i) as [c|] eqn:E; [|discriminate].
    apply nth_error_In in E. unfold cardClick.
    destruct (isPlayable s c) as [[|]|] eqn:Ep; intros H; try discriminate;
      injection H as <-; [|exact HL].
    now apply playCard_player_Live.
  - intros H. injection H as <-. now apply handleSuitPick_Live.
  - now apply aiTurn_Live.
Qed.

Lemma initGame_Live rnd s : initGame rnd initialState = Some s -> Live s.
Proof.
  unfold initGame. pose proof (shuffle_length rnd createDeck) as HL.
  rewrite createDeck_length in HL.
  generalize dependent (shuffle rnd createDeck). intros L HL.
  destruct (pop (skipn 8 (skipn 8 L))) as [[nd x]|]; [|discriminate].
  intros H.
  assert (Hp : phase s = playing) by (injection H as <-; reflexivity).
  assert (Hpe : pendingEightCard s = None)
    by (injection H as <-; reflexivity).
  assert (Hph : playerHand s = firstn 8 L)
    by (injection H as <-; reflexivity).
  assert (Hah : aiHand s = firstn 8 (skipn 8 L))
    by (injection H as <-; reflexivity).
  split; [congruence|]. split; [|intros c Hc; congruence].
  intros _. rewrite Hph, Hah. split.
  - intros Hnil. pose proof (length_firstn 8 L) as E.
    rewrite Hnil, HL in E. discriminate E.
  - intros Hnil. pose proof (length_firstn 8 (skipn 8 L)) as E.
    rewrite Hnil, length_skipn, HL in E. discriminate E.
Qed.

Lemma reachable_Live s : reachable s -> Live s.
Proof.
  induction 1 as [rnd s H|e s s' Hr IH H].
  - now apply (initGame_Live rnd).
  - apply (step_Live e s); auto. now apply reachable_Inv.
Qed.

(** The half of the end-of-game invariant of C3 that the code keeps: in
    every state of a game, an empty hand means the phase is gameOver. *)
Lemma empty_hand_ends_game s :
  reachable s -> playerHand s = [] \/ aiHand s = [] -> phase s = gameOver.
Proof.
  intros Hr He. destruct (reachable_Live s Hr) as (Hd & Hh & _).
  destruct (phase s) eqn:Ep; [congruence| |reflexivity].
  destruct (Hh eq_refl). tauto.
Qed.

(** * The rest of the component *)

(** ** The deck builder *)

Lemma NoDup_map_same {A B} (f : A -> B) l a b :
  NoDup (map f l) -> In a l -> In b l -> f a = f b -> a = b.
Proof.
  induction l as [|h t IH]; simpl; intros Hnd Ha Hb E; [contradiction|].
  inversion Hnd as [|? ? Hnot Hnd']; subst.
  destruct Ha as [->|Ha], Hb as [->|Hb]; auto.
  - exfalso. apply Hnot. rewrite E. now apply in_map.
  - exfalso. apply Hnot. rewrite <- E. now apply in_map.
Qed.

(** X1. [createDeck] builds every combination of a suit and a rank, each as
    the card [newCard] makes of them and nothing else: 52 cards whose ids
    are pairwise different, so an id names one card of the deck. *)
Theorem createDeck_complete :
  length createDeck = 52 /\
  NoDup (map id createDeck) /\
  (forall s r, In (newCard s r) createDeck) /\
  (forall c, In c createDeck -> c = newCard (suit c) (rank c)) /\
  (forall c c', In c createDeck -> In c' createDeck -> id c = id c' -> c = c').
Proof.
  split; [reflexivity|]. split; [exact createDeck_ids|]. split; [|split].
  - intros s r. unfold createDeck. apply in_flat_map. exists s. split.
    + destruct s; simpl; tauto.
    + apply in_map. destruct r; simpl; tauto.
  - intros c Hc. unfold createDeck in Hc. apply in_flat_map in Hc as (s & _ & Hc).
    apply in_map_iff in Hc as (r & <- & _). reflexivity.
  - intros c c' Hc Hc' E.
    exact (NoDup_map_same id createDeck c c' createDeck_ids Hc Hc' E).
Qed.

(** ** The shuffle *)

Section ShuffleFacts.
Context {A : Type}.
Implicit Types (l p q : list A).

Lemma set_nth_length i (y : A) l : length (set_nth i y l) = length l.
Proof.
  revert i. induction l as [|h t IH]; intros [|i]; simpl; auto.
Qed.

Lemma swap_length i j l : length (swap i j l) = length l.
Proof. apply Permutation_length, swap_perm. Qed.

Lemma set_nth_app_l i (y : A) p q :
  i < length p -> set_nth i y (p ++ q) = set_nth i y p ++ q.
Proof.
  revert i. induction p as [|h t IH]; intros [|i] Hi; simpl in *;
    try lia; auto. f_equal. apply IH. lia.
Qed.

Lemma swap_app_l i j p q :
  i < length p -> j < length p -> swap i j (p ++ q) = swap i j p ++ q.
Proof.
  intros Hi Hj. unfold swap. rewrite !nth_error_app1 by assumption.
  destruct (nth_error p i) as [x|]; [|reflexivity].
  destruct (nth_error p j) as [y|]; [|reflexivity].
  rewrite set_nth_app_l by assumption.
  apply set_nth_app_l. now rewrite set_nth_length.
Qed.

(** After the swap, the cell with index [i] holds what the cell with index
    [j] held. *)
Lemma nth_error_swap i j l (y : A) :
  i < length l -> nth_error l j = Some y ->
  nth_error (swap i j l) i = Some y.
Proof.
  intros Hi Hj. unfold swap.
  destruct (nth_error l i) as [x|] eqn:Ei.
  2:{ apply nth_error_None in Ei. lia. }
  rewrite Hj. destruct (Nat.eq_dec j i) as [->|Hne].
  - rewrite nth_error_set_nth_eq by now rewrite set_nth_length. congruence.
  - rewrite nth_error_set_nth_neq by assumption.
    now apply nth_error_set_nth_eq.
Qed.

(** The iterations from index [i] down leave the cells after [i] alone. *)
Lemma shuffle_from_app rnd i p q :
  i < length p -> shuffle_from rnd i (p ++ q) = shuffle_from rnd i p ++ q.
Proof.
  revert p. induction i as [|i IH]; intros p Hi; [reflexivity|].
  cbn [shuffle_from].
  assert (Hj : floorMul (rnd (S i)) (S i + 1) < length p).
  { pose proof (floorMul_lt (rnd (S i)) (S i + 1)). lia. }
  rewrite swap_app_l by assumption.
  apply IH. rewrite swap_length. lia.
Qed.

Lemma shuffle_from_ext rnd rnd' i l :
  (forall k, k <= i -> rnd k = rnd' k) ->
  shuffle_from rnd i l = shuffle_from rnd' i l.
Proof.
  revert l. induction i as [|i IH]; intros l H; [reflexivity|].
  cbn [shuffle_from]. rewrite (H (S i)) by lia. apply IH.
  intros k Hk. apply H. lia.
Qed.

Lemma snoc_of_length n l :
  length l = S n -> exists q z, l = q ++ [z] /\ length q = n.
Proof.
  intros H. destruct (exists_last (l := l)) as (q & z & ->).
  { intros ->. discriminate. }
  exists q, z. split; [reflexivity|].
  rewrite length_app in H. simpl in H. lia.
Qed.

Lemma shuffle_from_reaches n l l' :
  length l = S n -> Permutation l l' ->
  exists rnd, shuffle_from rnd n l = l'.
Proof.
  revert l l'. induction n as [|m IH]; intros l l' Hlen Hperm.
  - exists rnd_id. simpl.
    destruct l as [|a [|? ?]]; try discriminate.
    symmetry. now apply Permutation_length_1_inv.
  - assert (Hlen' : length l' = S (S m))
      by now rewrite <- (Permutation_length Hperm).
    destruct (snoc_of_length _ _ Hlen') as (q & y & -> & Hq).
    assert (Hy : In y l).
    { apply (Permutation_in y (Permutation_sym Hperm)).
      apply in_or_app. right. now left. }
    apply In_nth_error in Hy as [j Hj].
    assert (Hjlt : j < length l) by (apply nth_error_Some; congruence).
    pose proof (swap_length (S m) j l) as Hl1.
    pose proof (nth_error_swap (S m) j l y ltac:(lia) Hj) as Hlast.
    pose proof (swap_perm l (S m) j) as Hp1.
    destruct (snoc_of_length (S m) (swap (S m) j l) ltac:(lia))
      as (q1 & z & E1 & Hq1).
    rewrite E1 in Hlast, Hp1.
    rewrite nth_error_app2, Hq1, Nat.sub_diag in Hlast by lia.
    injection Hlast as ->.
    assert (Hq1q : Permutation q1 q).
    { apply (Permutation_app_inv_r [y]). now rewrite Hp1. }
    destruct (IH q1 q Hq1 Hq1q) as [rnd' Hrnd'].
    exists (pickAt (S m) j rnd'). cbn [shuffle_from].
    assert (Epick : floorMul (pickAt (S m) j rnd' (S m)) (S m + 1) = j).
    { unfold pickAt. rewrite Nat.eqb_refl.
      replace (S m + 1) with (j + S (S m - j)) by lia.
      apply floorMul_ratio. }
    rewrite Epick, E1, shuffle_from_app by lia. f_equal.
    rewrite <- Hrnd'. apply shuffle_from_ext.
    intros k Hk. unfold pickAt.
    destruct (k =? S m) eqn:E; [apply Nat.eqb_eq in E; lia|reflexivity].
Qed.
End ShuffleFacts.

(** X2. Whatever the random numbers, [shuffle] returns a permutation of its
    argument: the same cards, none lost and none twice; and the index it
    swaps the cell [i] with is never beyond [i]. *)
Theorem shuffle_permutes :
  forall rnd deck,
    Permutation (shuffle rnd deck) deck /\
    length (shuffle rnd deck) = length deck /\
    forall i, floorMul (rnd i) (i + 1) <= i.
Proof.
  intros rnd deck. split; [apply shuffle_perm|].
  split; [apply shuffle_length|].
  intros i. pose proof (floorMul_lt (rnd i) (i + 1)). lia.
Qed.

(** X3. Every arrangement of a deck is an outcome of [shuffle]: for each
    permutation of the argument there are random numbers under which the
    loop returns it. *)
Theorem shuffle_reaches_every_order :
  forall deck target,
    Permutation deck target -> exists rnd, shuffle rnd deck = target.
Proof.
  intros deck target H. unfold shuffle.
  destruct deck as [|c t].
  - apply Permutation_nil in H. subst. now exists rnd_id.
  - apply shuffle_from_reaches; [|exact H]. simpl. lia.
Qed.

Lemma shuffle_reaches_every_order_witness :
  exists rnd, shuffle rnd createDeck = rev createDeck.
Proof.
  apply (shuffle_reaches_every_order createDeck (rev createDeck)).
  apply Permutation_rev.
Defined.

(** ** The deal *)

Lemma deal_split (L : list CardData) :
  length L = 52 ->
  exists x, skipn 8 (skipn 8 L) = firstn 35 (skipn 16 L) ++ [x] /\
            skipn 51 L = [x].
Proof.
  intros HL.
  assert (E16 : skipn 8 (skipn 8 L) = skipn 16 L).
  { rewrite skipn_skipn. reflexivity. }
  assert (E51 : skipn 35 (skipn 16 L) = skipn 51 L).
  { rewrite skipn_skipn. reflexivity. }
  assert (Hlen : length (skipn 51 L) = 1) by (rewrite length_skipn; lia).
  destruct (skipn 51 L) as [|x [|? ?]] eqn:E; try discriminate Hlen.
  exists x. split; [|reflexivity].
  rewrite E16, <- (firstn_skipn 35 (skipn 16 L)) at 1. now rewrite E51.
Qed.

Lemma initGame_fields rnd s0 :
  exists s d,
    initGame rnd s0 = Some s /\
    playerHand s = firstn 8 (shuffle rnd createDeck) /\
    aiHand s = firstn 8 (skipn 8 (shuffle rnd createDeck)) /\
    deck s = firstn 35 (skipn 16 (shuffle rnd createDeck)) /\
    discardPile s = [d] /\ skipn 51 (shuffle rnd createDeck) = [d] /\
    length (playerHand s) = 8 /\ length (aiHand s) = 8 /\
    length (deck s) = 35 /\
    currentSuit s = Some (suit d) /\
    turn s = player /\ phase s = playing /\ message s = MsgYourTurn /\
    showSuitPicker s = showSuitPicker s0 /\
    pendingEightCard s = pendingEightCard s0.
Proof.
  unfold initGame.
  pose proof (shuffle_length rnd createDeck) as HL.
  rewrite createDeck_length in HL.
  generalize dependent (shuffle rnd createDeck). intros L HL.
  destruct (deal_split L HL) as (x & E & E51).
  rewrite E, pop_snoc.
  eexists. exists x. split; [reflexivity|]. fields.
  repeat (split; [reflexivity|]). split; [exact E51|].
  rewrite !length_firstn, !length_skipn, HL.
  repeat split.
Qed.

(** X4. [initGame] returns for every shuffle and from every state.  It
    deals the first 8 cards of the shuffled deck to the player, the next 8
    to the AI, the last one to the discard pile and leaves the 35 in between
    as the draw pile; the active suit is the suit of the first discard, the
    player is to move and the phase is playing.  The suit picker and the
    pending eight are not touched: a restart does not reset them. *)
Theorem deal_shape :
  forall rnd s0,
  exists s d,
    initGame rnd s0 = Some s /\
    playerHand s = firstn 8 (shuffle rnd createDeck) /\
    aiHand s = firstn 8 (skipn 8 (shuffle rnd createDeck)) /\
    deck s = firstn 35 (skipn 16 (shuffle rnd createDeck)) /\
    discardPile s = [d] /\ skipn 51 (shuffle rnd createDeck) = [d] /\
    length (playerHand s) = 8 /\ length (aiHand s) = 8 /\
    length (deck s) = 35 /\
    currentSuit s = Some (suit d) /\
    turn s = player /\ phase s = playing /\ message s = MsgYourTurn /\
    showSuitPicker s = showSuitPicker s0 /\
    pendingEightCard s = pendingEightCard s0.
Proof. exact initGame_fields. Qed.

(** ** The paths through the handlers *)

Lemma handleDraw_Outcome s s' : playerDraw s = Some s' -> Outcome s s'.
Proof.
  unfold playerDraw, handleDraw.
  destruct (turn_eqb (turn s) player) eqn:Et; simpl.
  2:{ intros H. injection H as <-. constructor. }
  destruct (phase_eqb (phase s) playing) eqn:Ep; simpl.
  2:{ intros H. injection H as <-. constructor. }
  destruct (showSuitPicker s) eqn:Es; simpl.
  { intros H. injection H as <-. constructor. }
  apply turn_eqb_eq in Et. apply phase_eqb_eq in Ep.
  destruct (length (deck s) =? 0) eqn:El.
  { simpl. intros H. injection H as <-. apply Nat.eqb_eq in El.
    apply out_player_skips; auto. now apply length_zero_iff_nil. }
  destruct (pop (deck s)) as [[d x]|] eqn:Epop; [|discriminate].
  apply pop_Some in Epop.
  destruct (isValidMoveIn s x) as [[|]|] eqn:Ev; simpl; intros H;
    try discriminate; injection H as <-.
  - now apply out_player_keeps.
  - now apply out_player_passes.
Qed.

Lemma aiTurn_Outcome u s s' : aiTurn u s = Some s' -> Outcome s s'.
Proof.
  unfold aiTurn, aiEffect.
  destruct (turn_eqb (turn s) ai) eqn:Et; simpl.
  2:{ intros H. injection H as <-. constructor. }
  destruct (phase_eqb (phase s) playing) eqn:Ep; simpl.
  2:{ intros H. injection H as <-. constructor. }
  apply turn_eqb_eq in Et. apply phase_eqb_eq in Ep.
  destruct (filterOpt _ _) as [pl|] eqn:Ef; [|discriminate].
  destruct (0 <? length pl) eqn:Epl.
  { destruct (cardToPlay u pl) as [c|] eqn:Ec; [|discriminate].
    simpl. intros H. injection H as <-.
    apply cardToPlay_In in Ec.
    destruct (filterOpt_In _ _ _ _ Ef Ec). now apply out_ai_plays. }
  assert (pl = []) as ->.
  { destruct pl; [reflexivity|discriminate]. }
  destruct (0 <? length (deck s)) eqn:El.
  2:{ simpl. intros H. injection H as <-. apply out_ai_skips; auto.
      destruct (deck s); [reflexivity|discriminate]. }
  destruct (pop (deck s)) as [[d x]|] eqn:Epop; [|discriminate].
  apply pop_Some in Epop.
  destruct (isValidMoveIn s x) as [[|]|] eqn:Ev; simpl; intros H;
    try discriminate; injection H as <-.
  - now apply out_ai_draws_plays.
  - now apply out_ai_draws_passes.
Qed.

Lemma step_Outcome e s s' : step e s = Some s' -> Outcome s s'.
Proof.
  destruct e as [|i|chosen|u]; simpl.
  - apply handleDraw_Outcome.
  - destruct (nth_error (playerHand s) i) as [c|] eqn:E; [|discriminate].
    apply nth_error_In in E. unfold cardClick.
    destruct (isPlayable s c) as [[|]|] eqn:Ep; intros H; try discriminate;
      injection H as <-.
    + now apply out_player_plays.
    + constructor.
  - intros H. injection H as <-.
    destruct (pendingEightCard s) as [c|] eqn:E.
    + now apply (out_suit_picked s c).
    + unfold handleSuitPick. rewrite E. constructor.
  - apply aiTurn_Outcome.
Qed.

(** ** Fields after a play *)

Lemma playCard_ai_rest snap c cur :
  phase (playCard snap c false cur)
    = (if length (aiHand snap) =? 1 then gameOver else phase cur) /\
  turn (playCard snap c false cur)
    = (if length (aiHand snap) =? 1 then turn cur else player) /\
  showSuitPicker (playCard snap c false cur) = showSuitPicker cur /\
  pendingEightCard (playCard snap c false cur) = pendingEightCard cur /\
  ((length (aiHand snap) =? 1) = true ->
   message (playCard snap c false cur) = MsgAiWins).
Proof.
  unfold playCard.
  destruct (rank_eqb (rank c) R8); destruct (length (aiHand snap) =? 1);
    fields; repeat split; auto; discriminate.
Qed.

Lemma playCard_player_eight snap c cur :
  rank c = R8 ->
  playCard snap c true cur
    = set_showSuitPicker true (set_pendingEightCard (Some c) cur).
Proof.
  intros H. unfold playCard.
  now replace (rank_eqb (rank c) R8) with true
    by (symmetry; now apply rank_eqb_eq).
Qed.

Lemma rank_eqb_neq a b : rank_eqb a b = false <-> a <> b.
Proof.
  split.
  - intros H E. apply rank_eqb_eq in E. congruence.
  - intros H. destruct (rank_eqb a b) eqn:E; [|reflexivity].
    apply rank_eqb_eq in E. contradiction.
Qed.

Lemma playCard_player_fields snap c cur :
  rank c <> R8 ->
  deck (playCard snap c true cur) = deck cur /\
  playerHand (playCard snap c true cur) = removeById c (playerHand cur) /\
  aiHand (playCard snap c true cur) = aiHand cur /\
  discardPile (playCard snap c true cur) = discardPile cur ++ [c] /\
  currentSuit (playCard snap c true cur) = Some (suit c) /\
  phase (playCard snap c true cur)
    = (if length (playerHand snap) =? 1 then gameOver else phase cur) /\
  turn (playCard snap c true cur)
    = (if length (playerHand snap) =? 1 then turn cur else ai) /\
  showSuitPicker (playCard snap c true cur) = showSuitPicker cur /\
  pendingEightCard (playCard snap c true cur) = pendingEightCard cur /\
  message (playCard snap c true cur)
    = (if length (playerHand snap) =? 1 then MsgYouWin else MsgAiThinking).
Proof.
  intros H. apply rank_eqb_neq in H. unfold playCard. rewrite H.
  destruct (length (playerHand snap) =? 1); fields; repeat split.
Qed.

Lemma handleSuitPick_fields chosen c s :
  pendingEightCard s = Some c ->
  deck (handleSuitPick chosen s) = deck s /\
  playerHand (handleSuitPick chosen s) = removeById c (playerHand s) /\
  aiHand (handleSuitPick chosen s) = aiHand s /\
  discardPile (handleSuitPick chosen s) = discardPile s ++ [c] /\
  currentSuit (handleSuitPick chosen s) = Some chosen /\
  phase (handleSuitPick chosen s)
    = (if length (playerHand s) =? 1 then gameOver else phase s) /\
  turn (handleSuitPick chosen s)
    = (if length (playerHand s) =? 1 then turn s else ai) /\
  showSuitPicker (handleSuitPick chosen s) = false /\
  pendingEightCard (handleSuitPick chosen s) = None /\
  message (handleSuitPick chosen s)
    = (if length (playerHand s) =? 1 then MsgYouWin else MsgYouChose chosen).
Proof.
  intros H. unfold handleSuitPick. rewrite H.
  destruct (length (playerHand s) =? 1); fields; repeat split.
Qed.

(** ** The table and the suit picker *)

Ltac drawn_fields := unfold afterPlayerDraw, afterAiDraw; fields.

Ltac outcomes H :=
  destruct H as [ |Ht Hp Hs Hd|d x Ht Hp Hs Hd Hv|d x Ht Hp Hs Hd Hv
                |c Hin Hpl|c chosen Hpe|c Ht Hp Hin Hv
                |d x Ht Hp Hf Hd Hv|d x Ht Hp Hf Hd Hv|Ht Hp Hf Hd].

Lemma Table_kept s s' :
  discardPile s' = discardPile s -> currentSuit s' = currentSuit s ->
  Table s -> Table s'.
Proof.
  intros Hd Hc (top & cs & H1 & H2 & H3). exists top, cs.
  unfold topDiscard in *. rewrite Hd, Hc. auto.
Qed.

Lemma Table_played s s' c cs :
  discardPile s' = discardPile s ++ [c] -> currentSuit s' = Some cs ->
  (rank c <> R8 -> cs = suit c) -> Table s'.
Proof.
  intros Hd Hc H. exists c, cs. unfold topDiscard.
  rewrite Hd, lastOf_snoc. auto.
Qed.

Lemma Picker_kept s s' :
  showSuitPicker s' = showSuitPicker s ->
  pendingEightCard s' = pendingEightCard s -> Picker s -> Picker s'.
Proof. intros H1 H2 [P1 P2]. split; rewrite ?H1, H2; assumption. Qed.

Lemma Outcome_Picker s s' : Picker s -> Outcome s s' -> Picker s'.
Proof.
  intros HP H.
  outcomes H;
    try (exact HP); try (now apply (Picker_kept s)).
  - destruct (rank_eqb (rank c) R8) eqn:E.
    + apply rank_eqb_eq in E. rewrite (playCard_player_eight s c s E).
      split; fields; [discriminate|]. intros c' H. now injection H as <-.
    + apply rank_eqb_neq in E.
      destruct (playCard_player_fields s c s E)
        as (_ & _ & _ & _ & _ & _ & _ & H1 & H2 & _).
      now apply (Picker_kept s).
  - destruct (handleSuitPick_fields chosen c s Hpe)
      as (_ & _ & _ & _ & _ & _ & _ & H1 & H2 & _).
    split; rewrite ?H1, ?H2; discriminate.
  - destruct (playCard_ai_rest s c s) as (_ & _ & H1 & H2 & _).
    now apply (Picker_kept s).
  - destruct (playCard_ai_rest s x (afterAiDraw d x s)) as (_ & _ & H1 & H2 & _).
    now apply (Picker_kept s).
Qed.

Lemma Outcome_Table s s' : Picker s -> Table s -> Outcome s s' -> Table s'.
Proof.
  intros [_ HP] HT H.
  outcomes H;
    try (exact HT); try (now apply (Table_kept s)).
  - destruct (rank_eqb (rank c) R8) eqn:E.
    + apply rank_eqb_eq in E. rewrite (playCard_player_eight s c s E).
      now apply (Table_kept s).
    + apply rank_eqb_neq in E.
      destruct (playCard_player_fields s c s E)
        as (_ & _ & _ & H1 & H2 & _).
      now apply (Table_played s _ c (suit c)).
  - destruct (handleSuitPick_fields chosen c s Hpe)
      as (_ & _ & _ & H1 & H2 & _).
    apply (Table_played s _ c chosen); auto.
    intros N. now destruct (N (HP c Hpe)).
  - destruct (playCard_ai_containers s c s) as (_ & _ & _ & H1).
    pose proof (playCard_ai_suit s c s) as H2.
    apply (Table_played s _ c _ H1 H2).
    intros N. apply rank_eqb_neq in N. now rewrite N.
  - destruct (playCard_ai_containers s x (afterAiDraw d x s))
      as (_ & _ & _ & H1).
    pose proof (playCard_ai_suit s x (afterAiDraw d x s)) as H2.
    apply (Table_played s _ x _ H1 H2).
    intros N. apply rank_eqb_neq in N. now rewrite N.
Qed.

Lemma reachable_Picker s : reachable s -> Picker s.
Proof.
  induction 1 as [rnd s H|e s s' _ IH H].
  - destruct (initGame_fields rnd initialState)
      as (s1 & d & E & F). rewrite E in H. injection H as <-.
    decompose [and] F. split.
    + intros Hs. simpl in *. congruence.
    + intros c Hc. simpl in *. congruence.
  - apply (Outcome_Picker s); [exact IH|]. now apply (step_Outcome e).
Qed.

Lemma reachable_Table s : reachable s -> Table s.
Proof.
  induction 1 as [rnd s H|e s s' Hr IH H].
  - destruct (initGame_fields rnd initialState)
      as (s1 & d & E & F). rewrite E in H. injection H as <-.
    decompose [and] F. exists d, (suit d). unfold topDiscard.
    repeat split; auto.
    match goal with Hd : discardPile s1 = [d] |- _ => now rewrite Hd end.
  - apply (Outcome_Table s); auto using reachable_Picker.
    now apply (step_Outcome e).
Qed.

(** ** The active suit *)

Lemma removeById_last c l :
  In c l -> (length l =? 1) = true -> removeById c l = [].
Proof.
  intros Hin Hlen. apply Nat.eqb_eq in Hlen.
  destruct l as [|h [|? ?]]; try discriminate.
  destruct Hin as [->|[]]. apply removeById_self.
Qed.

Lemma stale_win_reachable : reachable stale_win.
Proof.
  apply (run_reachable stale_win_trace dealt); [exact dealt_reachable|].
  vm_compute. reflexivity.
Qed.

Lemma queen_drawn_reachable : reachable queen_drawn.
Proof.
  apply (run_reachable [Draw] dealt); [exact dealt_reachable|].
  vm_compute. reflexivity.
Qed.

(** X7. The active suit follows the discard pile.  In every state of a game
    there is a top discard and an active suit, and unless the top discard is
    an eight the active suit is the suit of the top discard. *)
Theorem active_suit_follows_top :
  forall s,
    reachable s ->
    exists top cs,
      topDiscard s = Some top /\ currentSuit s = Some cs /\
      (rank top <> R8 -> cs = suit top).
Proof. intros s Hr. exact (reachable_Table s Hr). Qed.

Lemma active_suit_follows_top_witness :
  exists top cs,
    topDiscard queen_drawn = Some top /\ currentSuit queen_drawn = Some cs /\
    (rank top <> R8 -> cs = suit top).
Proof.
  apply (active_suit_follows_top queen_drawn). exact queen_drawn_reachable.
Defined.

(** ** No handler throws during a game *)

Lemma filterOpt_total {A} (f : A -> option bool) l :
  (forall x, exists b, f x = Some b) -> exists r, filterOpt f l = Some r.
Proof.
  intros H. induction l as [|h t [r IH]]; simpl; [eauto|].
  destruct (H h) as [b ->]. rewrite IH. eauto.
Qed.

Lemma pop_nonempty {A} (l : list A) :
  l <> [] -> exists d x, pop l = Some (d, x).
Proof.
  intros H. destruct (pop l) as [[d x]|] eqn:E; [eauto|].
  now apply pop_None in E.
Qed.

Lemma playerDraw_total s top :
  topDiscard s = Some top -> exists s', playerDraw s = Some s'.
Proof.
  intros Ht. unfold playerDraw, handleDraw.
  destruct (_ || _ || _); [simpl; eauto|].
  destruct (length (deck s) =? 0) eqn:El; [simpl; eauto|].
  destruct (pop_nonempty (deck s)) as (d & x & ->).
  { intros E. rewrite E in El. discriminate. }
  destruct (isValidMoveIn_total s top x Ht) as [[|] ->]; simpl; eauto.
Qed.

Lemma aiTurn_total u s top :
  topDiscard s = Some top -> exists s', aiTurn u s = Some s'.
Proof.
  intros Ht. unfold aiTurn, aiEffect.
  destruct (_ && _); [|simpl; eauto].
  destruct (filterOpt_total (isValidMoveIn s) (aiHand s)) as [pl ->].
  { intros x. now apply (isValidMoveIn_total s top). }
  destruct (0 <? length pl) eqn:El.
  { destruct (cardToPlay_Some u pl) as [c ->]; [|simpl; eauto].
    intros ->. discriminate. }
  destruct (0 <? length (deck s)) eqn:Ed; [|simpl; eauto].
  destruct (pop_nonempty (deck s)) as (d & x & ->).
  { intros E. rewrite E in Ed. discriminate. }
  destruct (isValidMoveIn_total s top x Ht) as [[|] ->]; simpl; eauto.
Qed.

Lemma cardClick_total c s top :
  topDiscard s = Some top -> exists s', cardClick c s = Some s'.
Proof.
  intros Ht. unfold cardClick, isPlayable.
  destruct (_ && _); [|eauto].
  destruct (isValidMoveIn_total s top c Ht) as [v ->].
  destruct (v && negb (showSuitPicker s)); eauto.
Qed.

(** X9. No handler throws during a game.  In every state of a game a draw,
    a suit pick and the AI timer run to their end, and so does a click on
    any card the hand shows; the only event without a result is a click at
    a position where the hand shows no card. *)
Theorem handlers_never_throw :
  forall s e,
    reachable s ->
    ((exists s', step e s = Some s') <->
     match e with
     | Click i => i < length (playerHand s)
     | _ => True
     end).
Proof.
  intros s e Hr. destruct (reachable_Table s Hr) as (top & _ & Ht & _).
  destruct e as [|i|chosen|u]; simpl.
  - split; [trivial|]. intros _. now apply (playerDraw_total s top).
  - destruct (nth_error (playerHand s) i) as [c|] eqn:E.
    + split.
      * intros _. apply nth_error_Some. congruence.
      * intros _. now apply (cardClick_total c s top).
    + split.
      * intros [s' H]. discriminate.
      * intros H. apply nth_error_None in E. lia.
  - split; [trivial|]. eauto.
  - split; [trivial|]. intros _. now apply (aiTurn_total u s top).
Qed.

Lemma handlers_never_throw_witness :
  (exists s', step (Click 8) queen_drawn = Some s') <->
  8 < length (playerHand queen_drawn).
Proof.
  apply (handlers_never_throw queen_drawn (Click 8)).
  exact queen_drawn_reachable.
Defined.

(** ** The piles only move one way *)

(** X11. The deck never takes a card back and the discard pile never gives
    one up.  An event leaves the discard pile as it was or puts one card on
    top of it, and leaves the deck as it was or takes the card at its end;
    when it takes a card from the deck, the discard pile keeps its cards and
    can only have gained that card. *)
Theorem piles_move_one_way :
  forall e s s',
    step e s = Some s' ->
    (discardPile s' = discardPile s \/
     exists c, discardPile s' = discardPile s ++ [c]) /\
    (deck s' = deck s \/
     exists x, deck s = deck s' ++ [x] /\
       (discardPile s' = discardPile s \/
        discardPile s' = discardPile s ++ [x])).
Proof.
  intros e s s' H. apply step_Outcome in H.
  outcomes H; drawn_fields; try (split; left; reflexivity).
  - split; [now left|]. right. exists x. auto.
  - split; [now left|]. right. exists x. auto.
  - destruct (rank_eqb (rank c) R8) eqn:E.
    + apply rank_eqb_eq in E. rewrite (playCard_player_eight s c s E).
      split; now left.
    + apply rank_eqb_neq in E.
      destruct (playCard_player_fields s c s E) as (F1 & _ & _ & F4 & _).
      rewrite F1, F4. split; [right; eauto|now left].
  - destruct (handleSuitPick_fields chosen c s Hpe) as (F1 & _ & _ & F4 & _).
    rewrite F1, F4. split; [right; eauto|now left].
  - destruct (playCard_ai_containers s c s) as (F1 & _ & _ & F4).
    rewrite F1, F4. split; [right; eauto|now left].
  - destruct (playCard_ai_containers s x (afterAiDraw d x s))
      as (F1 & _ & _ & F4).
    unfold afterAiDraw in F1, F4. rewrite F1, F4. fields.
    split; [right; eauto|]. right. exists x. auto.
  - split; [now left|]. right. exists x. auto.
Qed.

Lemma piles_move_one_way_witness :
  (discardPile queen_drawn = discardPile dealt \/
   exists c, discardPile queen_drawn = discardPile dealt ++ [c]) /\
  (deck queen_drawn = deck dealt \/
   exists x, deck dealt = deck queen_drawn ++ [x] /\
     (discardPile queen_drawn = discardPile dealt \/
      discardPile queen_drawn = discardPile dealt ++ [x])).
Proof.
  apply (piles_move_one_way Draw dealt queen_drawn). reflexivity.
Defined.

(** ** Playing a card *)

Lemma hand_after_play c l :
  In c l -> NoDup (map id l) ->
  Permutation l (c :: removeById c l) /\ ~ In c (removeById c l) /\
  ((length l =? 1) = true <-> removeById c l = []).
Proof.
  intros Hin Hnd. split; [now apply removeById_perm|].
  split; [apply removeById_not_In|].
  rewrite Nat.eqb_eq, (removeById_length c l Hin Hnd).
  split.
  - intros H. apply length_zero_iff_nil. lia.
  - intros ->. reflexivity.
Qed.

(** X12. A click on a playable card of the player's hand that is not an
    eight takes exactly that card out of the hand and puts it on top of the
    discard pile; its suit becomes the active suit; the deck and the AI's
    hand stay as they are.  If the hand is now empty the phase is gameOver
    and the turn stays with the player, otherwise the turn goes to the
    AI. *)
Theorem player_plays_card :
  forall s c,
    In c (playerHand s) -> NoDup (map id (playerHand s)) ->
    isPlayable s c = Some true -> rank c <> R8 ->
    exists s',
      cardClick c s = Some s' /\
      Permutation (playerHand s) (c :: playerHand s') /\
      ~ In c (playerHand s') /\
      discardPile s' = discardPile s ++ [c] /\
      topDiscard s' = Some c /\
      currentSuit s' = Some (suit c) /\
      deck s' = deck s /\ aiHand s' = aiHand s /\
      pendingEightCard s' = pendingEightCard s /\
      (playerHand s' = [] ->
       phase s' = gameOver /\ turn s' = player /\ message s' = MsgYouWin) /\
      (playerHand s' <> [] -> phase s' = playing /\ turn s' = ai).
Proof.
  intros s c Hin Hnd Hpl H8. unfold cardClick. rewrite Hpl.
  apply isPlayable_true in Hpl as (Ht & Hp & _ & _).
  exists (playCard s c true s). split; [reflexivity|].
  destruct (playCard_player_fields s c s H8)
    as (F1 & F2 & F3 & F4 & F5 & F6 & F7 & F8 & F9 & F10).
  destruct (hand_after_play c (playerHand s) Hin Hnd) as (P1 & P2 & P3).
  unfold topDiscard. rewrite F1, F2, F3, F4, F5, F6, F7, F9, F10, lastOf_snoc.
  repeat (split; [assumption || reflexivity|]). split.
  - intros E. apply P3 in E. rewrite E. auto.
  - intros E. destruct (length (playerHand s) =? 1).
    + exfalso. apply E. now apply P3.
    + auto.
Qed.

Lemma player_plays_card_witness :
  exists s',
    cardClick (newCard spades RQ) queen_drawn = Some s' /\
    Permutation (playerHand queen_drawn) (newCard spades RQ :: playerHand s') /\
    ~ In (newCard spades RQ) (playerHand s') /\
    discardPile s' = discardPile queen_drawn ++ [newCard spades RQ] /\
    topDiscard s' = Some (newCard spades RQ) /\
    currentSuit s' = Some (suit (newCard spades RQ)) /\
    deck s' = deck queen_drawn /\ aiHand s' = aiHand queen_drawn /\
    pendingEightCard s' = pendingEightCard queen_drawn /\
    (playerHand s' = [] ->
     phase s' = gameOver /\ turn s' = player /\ message s' = MsgYouWin) /\
    (playerHand s' <> [] -> phase s' = playing /\ turn s' = ai).
Proof.
  apply (player_plays_card queen_drawn (newCard spades RQ)).
  - apply (nth_error_In _ 8). reflexivity.
  - apply distinctb_NoDup. vm_compute. reflexivity.
  - vm_compute. reflexivity.
  - discriminate.
Defined.

(** ** Drawing a card and playing it *)

Lemma deck_card_fresh s d x :
  Inv s -> deck s = d ++ [x] ->
  ~ In (id x) (map id (playerHand s)) /\ ~ In (id x) (map id (aiHand s)).
Proof.
  intros HI Hd. apply Inv_ids in HI. unfold allCards in HI.
  rewrite Hd, <- app_assoc, !map_app in HI. simpl in HI.
  apply NoDup_remove_2 in HI.
  split; intros H; apply HI; apply in_or_app; right;
    apply in_or_app; [left|right; apply in_or_app; left]; exact H.
Qed.

Lemma removeById_drawn x l :
  ~ In (id x) (map id l) -> removeById x (l ++ [x]) = l.
Proof.
  intros H.
  now rewrite removeById_app, removeById_self, app_nil_r, removeById_fresh.
Qed.

(** X15. Drawing a card and playing it.  When the player, in a state of a
    game, draws a legal card that is not an eight and then clicks it (it is
    the last card shown in the hand), the hand is what it was before the
    draw, the card has gone from the end of the deck to the top of the
    discard pile, its suit is the active suit and the AI is to move. *)
Theorem draw_then_play :
  forall s d x,
    reachable s ->
    turn s = player -> phase s = playing -> showSuitPicker s = false ->
    deck s = d ++ [x] -> isValidMoveIn s x = Some true -> rank x <> R8 ->
    exists s',
      run [Draw; Click (length (playerHand s))] s = Some s' /\
      playerHand s' = playerHand s /\ deck s' = d /\
      discardPile s' = discardPile s ++ [x] /\
      currentSuit s' = Some (suit x) /\
      aiHand s' = aiHand s /\ phase s' = playing /\ turn s' = ai.
Proof.
  intros s d x Hr Ht Hp Hs Hd Hv H8.
  pose proof (reachable_Inv s Hr) as HI.
  destruct (reachable_Live s Hr) as (_ & Hh & _).
  destruct (Hh Hp) as [Hne _].
  destruct (deck_card_fresh s d x HI Hd) as [Hfresh _].
  cbn [run step]. rewrite (playerDraw_legal s d x Ht Hp Hs Hd Hv).
  fold (afterPlayerDraw d x s). set (s1 := afterPlayerDraw d x s).
  assert (E1 : playerHand s1 = playerHand s ++ [x]) by reflexivity.
  rewrite E1, nth_error_app2, Nat.sub_diag by lia. cbn [nth_error].
  assert (Hpl : isPlayable s1 x = Some true).
  { unfold isPlayable.
    replace (turn s1) with player by (symmetry; exact Ht).
    replace (phase s1) with playing by (symmetry; exact Hp).
    replace (isValidMoveIn s1 x) with (Some true) by (symmetry; exact Hv).
    replace (showSuitPicker s1) with false by (symmetry; exact Hs).
    reflexivity. }
  unfold cardClick. rewrite Hpl. eexists. split; [reflexivity|].
  destruct (playCard_player_fields s1 x s1 H8)
    as (F1 & F2 & F3 & F4 & F5 & F6 & F7 & _).
  rewrite F1, F2, F3, F4, F5, F6, F7, E1, removeById_drawn by assumption.
  assert (El : (length (playerHand s ++ [x]) =? 1) = false).
  { rewrite length_app. simpl. apply Nat.eqb_neq.
    destruct (playerHand s); [congruence|simpl; lia]. }
  rewrite El. repeat split. exact Hp.
Qed.

Lemma draw_then_play_witness :
  exists s',
    run [Draw; Click (length (playerHand dealt))] dealt = Some s' /\
    playerHand s' = playerHand dealt /\ deck s' = removelast (deck dealt) /\
    discardPile s' = discardPile dealt ++ [newCard spades RQ] /\
    currentSuit s' = Some (suit (newCard spades RQ)) /\
    aiHand s' = aiHand dealt /\ phase s' = playing /\ turn s' = ai.
Proof.
  apply (draw_then_play dealt (removelast (deck dealt)) (newCard spades RQ));
    try reflexivity; try discriminate.
  exact dealt_reachable.
Defined.

(** ** Ties between suits *)

Lemma suitCounts_tally hand card :
  suitCounts hand card = tally (removeById card hand).
Proof.
  unfold suitCounts, tally. generalize (@nil (Suit * nat)).
  induction hand as [|c l IH]; intros acc; simpl; [reflexivity|].
  destruct (negb (String.eqb (id c) (id card))); simpl; apply IH.
Qed.

Lemma tally_snoc l c : tally (l ++ [c]) = bump (suit c) (tally l).
Proof. unfold tally. now rewrite fold_left_app. Qed.

Lemma In_keys_bump k s acc :
  In k (map fst (bump s acc)) <-> k = s \/ In k (map fst acc).
Proof.
  induction acc as [|[k' n] r IH]; simpl.
  - intuition.
  - destruct (suit_eqb k' s) eqn:E; simpl.
    + apply suit_eqb_eq in E. subst. intuition.
    + rewrite IH. intuition.
Qed.

Lemma keys_bump_old s acc :
  In s (map fst acc) -> map fst (bump s acc) = map fst acc.
Proof.
  induction acc as [|[k n] r IH]; simpl; [contradiction|].
  destruct (suit_eqb k s) eqn:E; simpl; [reflexivity|].
  intros [->|H].
  - assert (suit_eqb s s = true) by now apply suit_eqb_eq. congruence.
  - f_equal. now apply IH.
Qed.

Lemma keys_bump_new s acc :
  ~ In s (map fst acc) -> map fst (bump s acc) = map fst acc ++ [s].
Proof.
  induction acc as [|[k n] r IH]; simpl; [reflexivity|].
  intros H. destruct (suit_eqb k s) eqn:E; simpl.
  - apply suit_eqb_eq in E. tauto.
  - f_equal. apply IH. tauto.
Qed.

Lemma suit_in_or_not (t : Suit) l : In t l \/ ~ In t l.
Proof.
  induction l as [|h r [IH|IH]]; simpl; [tauto| tauto |].
  destruct (suit_eqb h t) eqn:E.
  - apply suit_eqb_eq in E. tauto.
  - right. intros [H|H]; [|tauto].
    apply suit_eqb_eq in H. congruence.
Qed.

Lemma tally_keys_In l c : In c l -> In (suit c) (map fst (tally l)).
Proof.
  induction l as [|c0 l IH] using rev_ind; [contradiction|].
  intros H. rewrite tally_snoc. apply In_keys_bump.
  apply in_app_or in H as [H|[->|[]]]; auto.
Qed.

(** The keys of the tally stand in the order in which their suits first
    occur in the hand. *)
Lemma tally_first l p b q :
  map fst (tally l) = p ++ b :: q ->
  exists pre c post,
    l = pre ++ c :: post /\ suit c = b /\
    forall x, In x pre -> In (suit x) p.
Proof.
  revert p b q. induction l as [|c0 l IH] using rev_ind; intros p b q H.
  - destruct p; discriminate.
  - rewrite tally_snoc in H.
    destruct (suit_in_or_not (suit c0) (map fst (tally l))) as [Hin|Hnew].
    + rewrite (keys_bump_old _ _ Hin) in H.
      destruct (IH p b q H) as (pre & c & post & -> & Hc & Hpre).
      exists pre, c, (post ++ [c0]). split; [|auto].
      now rewrite <- app_assoc.
    + rewrite (keys_bump_new _ _ Hnew) in H.
      destruct (exists_last (l := b :: q)) as (q' & z & Eq); [discriminate|].
      rewrite Eq, app_assoc in H. apply app_inj_tail in H as [H Hz].
      destruct q' as [|b' q'].
      * simpl in Eq. injection Eq as ->. rewrite app_nil_r in H. subst.
        exists l, c0, []. split; [reflexivity|]. split; [reflexivity|].
        intros x Hx. now apply tally_keys_In.
      * simpl in Eq. injection Eq as <- Eq.
        destruct (IH p b q' H) as (pre & c & post & -> & Hc & Hpre).
        exists pre, c, (post ++ [c0]). split; [|auto].
        now rewrite <- app_assoc.
Qed.

Section FirstOfTheLargest.
Context {A : Type} (f : A -> nat).

Let cmp (a b : A) : Z := (Z.of_nat (f b) - Z.of_nat (f a))%Z.

(** The head of the sorted list is the first element of the list with the
    largest value: what stands before it is strictly smaller. *)
Lemma sortBy_head_first l h t :
  sortBy cmp l = h :: t ->
  exists p q, l = p ++ h :: q /\
    (forall y, In y p -> f y < f h) /\ (forall y, In y q -> f y <= f h).
Proof.
  revert h t. induction l as [|x l IH]; intros h t H; [discriminate|].
  simpl in H. destruct (sortBy cmp l) as [|h0 t0] eqn:E.
  - apply sortBy_nil in E. subst. simpl in H. injection H as <- <-.
    exists [], []. simpl. intuition.
  - destruct (IH h0 t0 eq_refl) as (p & q & -> & Hp & Hq).
    simpl in H. destruct (0 <? cmp x h0)%Z eqn:Ec.
    + injection H as <- <-. apply Z.ltb_lt in Ec. unfold cmp in Ec.
      exists (x :: p), q. split; [reflexivity|]. split; [|exact Hq].
      intros y [<-|Hy]; [lia|auto].
    + injection H as <- <-. apply Z.ltb_ge in Ec. unfold cmp in Ec.
      exists [], (p ++ h0 :: q). split; [reflexivity|].
      split; [intros y []|].
      intros y Hy. apply in_app_or in Hy as [Hy|[<-|Hy]].
      * specialize (Hp y Hy). lia.
      * lia.
      * specialize (Hq y Hy). lia.
Qed.
End FirstOfTheLargest.

(** X17. Ties between suits.  When the AI plays an eight and is left with
    cards, the suit it names is the suit of one of them, [c]; every card
    that stands before [c] in the hand is of a suit with strictly fewer
    cards in the hand, and no card after it is of a suit with more: among
    the suits with the most cards, the one met first in the hand wins. *)
Theorem best_suit_is_first_of_the_largest :
  forall hand card,
    removeById card hand <> [] ->
    exists pre c post,
      removeById card hand = pre ++ c :: post /\
      suit c = bestSuit hand card /\
      (forall x, In x pre ->
         countSuit (suit x) (removeById card hand)
         < countSuit (bestSuit hand card) (removeById card hand)) /\
      (forall x, In x post ->
         countSuit (suit x) (removeById card hand)
         <= countSuit (bestSuit hand card) (removeById card hand)).
Proof.
  intros hand card Hne.
  assert (Hmax := bestSuit_max hand card).
  revert Hmax. unfold bestSuit.
  set (counts := suitCounts hand card).
  assert (Hcount : forall t, getCount t counts
                             = countSuit t (removeById card hand)).
  { intros t. apply suitCounts_count. }
  assert (Hkeys : map fst counts = map fst (tally (removeById card hand))).
  { unfold counts. now rewrite suitCounts_tally. }
  destruct (sortBy _ (map fst counts)) as [|b r] eqn:E.
  - exfalso. apply (sortBy_nil (fun k => getCount k counts)) in E.
    rewrite Hkeys in E. destruct (removeById card hand) as [|c l]; [congruence|].
    assert (H : In (suit c) (map fst (tally (c :: l))))
      by (apply tally_keys_In; now left).
    rewrite E in H. contradiction.
  - intros Hmax.
    apply (sortBy_head_first (fun k => getCount k counts)) in E
      as (p & q & Epq & Hp & _).
    rewrite Hkeys in Epq.
    destruct (tally_first _ p b q Epq) as (pre & c & post & El & Hc & Hpre).
    exists pre, c, post. split; [exact El|]. split; [exact Hc|]. split.
    + intros x Hx. rewrite <- !Hcount. apply Hp. now apply Hpre.
    + intros x _. apply Hmax.
Qed.

Lemma best_suit_is_first_of_the_largest_witness :
  exists pre c post,
    removeById (newCard spades R8) scenarioC_hand = pre ++ c :: post /\
    suit c = bestSuit scenarioC_hand (newCard spades R8) /\
    (forall x, In x pre ->
       countSuit (suit x) (removeById (newCard spades R8) scenarioC_hand)
       < countSuit (bestSuit scenarioC_hand (newCard spades R8))
           (removeById (newCard spades R8) scenarioC_hand)) /\
    (forall x, In x post ->
       countSuit (suit x) (removeById (newCard spades R8) scenarioC_hand)
       <= countSuit (bestSuit scenarioC_hand (newCard spades R8))
            (removeById (newCard spades R8) scenarioC_hand)).
Proof.
  apply (best_suit_is_first_of_the_largest scenarioC_hand (newCard spades R8)).
  discriminate.
Defined.

(** ** A game nobody can move in *)

Lemma filterOpt_nil_In {A} (f : A -> option bool) l x :
  filterOpt f l = Some [] -> In x l -> f x = Some false.
Proof.
  induction l as [|h t IH]; simpl; [contradiction|].
  destruct (f h) as [[|]|] eqn:Eh; try discriminate;
    destruct (filterOpt f t) as [r'|]; try discriminate; intros H.
  intros [<-|Hx]; [exact Eh|]. apply IH; [exact H|exact Hx].
Qed.

Lemma Stalemate_kept s s' :
  phase s' = phase s -> showSuitPicker s' = showSuitPicker s ->
  pendingEightCard s' = pendingEightCard s -> deck s' = deck s ->
  playerHand s' = playerHand s -> aiHand s' = aiHand s ->
  discardPile s' = discardPile s -> currentSuit s' = currentSuit s ->
  Stalemate s -> Stalemate s'.
Proof.
  intros E1 E2 E3 E4 E5 E6 E7 E8. unfold Stalemate, isValidMoveIn, topDiscard.
  now rewrite E1, E2, E3, E4, E5, E6, E7, E8.
Qed.

(** ** Hands during play *)

(** X21. During play nobody is out of cards.  In every state of a game the
    deal is over (the phase is playing or gameOver), and while the phase is
    playing both hands hold at least one card. *)
Theorem playing_hands_are_nonempty :
  forall s,
    reachable s ->
    phase s <> dealing /\
    (phase s = playing -> playerHand s <> [] /\ aiHand s <> []).
Proof.
  intros s Hr. destruct (reachable_Live s Hr) as (H1 & H2 & _). auto.
Qed.

Lemma playing_hands_are_nonempty_witness :
  phase queen_drawn <> dealing /\
  (phase queen_drawn = playing ->
   playerHand queen_drawn <> [] /\ aiHand queen_drawn <> []).
Proof.
  apply (playing_hands_are_nonempty queen_drawn). exact queen_drawn_reachable.
Defined.
(** * The page with its timers *)

(** ** Dependencies of the AI effect *)

Lemma card_eqb_eq a b : card_eqb a b = true -> a = b.
Proof.
  unfold card_eqb. intros H.
  apply andb_prop in H as [H Hr]. apply andb_prop in H as [Hi Hs].
  apply String.eqb_eq in Hi. apply suit_eqb_eq in Hs. apply rank_eqb_eq in Hr.
  destruct a, b. simpl in *. congruence.
Qed.

Lemma cards_eqb_eq a b : cards_eqb a b = true -> a = b.
Proof.
  revert b. induction a as [|x a IH]; intros [|y b]; simpl;
    try discriminate; [reflexivity|].
  intros H. apply andb_prop in H as [Hx Hr].
  apply card_eqb_eq in Hx. apply IH in Hr. congruence.
Qed.

Lemma suitOpt_eqb_eq a b : suitOpt_eqb a b = true -> a = b.
Proof.
  destruct a, b; simpl; try discriminate; [|reflexivity].
  intros H. apply suit_eqb_eq in H. congruence.
Qed.

Lemma sameDeps_eq s s' :
  sameDeps s s' = true ->
  turn s = turn s' /\ aiHand s = aiHand s' /\ phase s = phase s' /\
  deck s = deck s' /\ currentSuit s = currentSuit s'.
Proof.
  unfold sameDeps. intros H.
  apply andb_prop in H as [H H5]. apply andb_prop in H as [H H4].
  apply andb_prop in H as [H H3]. apply andb_prop in H as [H1 H2].
  apply turn_eqb_eq in H1. apply cards_eqb_eq in H2.
  apply phase_eqb_eq in H3. apply cards_eqb_eq in H4.
  apply suitOpt_eqb_eq in H5. auto.
Qed.

(** The timeout the AI effect has pending after a render is a new one, which
    closes over that render, or the one it had, when no dependency
    changed. *)
Lemma aiEffectTimer_cases now renewed old s s' due snap :
  aiEffectTimer now renewed old s s' = Some (due, snap) ->
  (snap = s' /\ due = now + 1500 /\ turn s' = ai /\ phase s' = playing) \/
  (renewed = false /\ sameDeps s s' = true /\ old = Some (due, snap)).
Proof.
  unfold aiEffectTimer.
  destruct (renewed || negb (sameDeps s s')) eqn:E.
  - destruct (turn_eqb (turn s') ai && phase_eqb (phase s') playing) eqn:G;
      [|discriminate].
    intros H. injection H as <- <-. left.
    apply andb_prop in G as [G1 G2].
    apply turn_eqb_eq in G1. apply phase_eqb_eq in G2. auto.
  - intros H. right. apply orb_false_elim in E as [-> E].
    apply negb_false_iff in E. auto.
Qed.

Lemma lags_refl s :
  turn s = ai -> phase s = playing -> discardPile s <> [] -> lags s s.
Proof. intros Ht Hp Hd. unfold lags. repeat split; auto. Qed.

(** ** The handlers, field by field *)

Lemma handleDraw_keeps s s' t :
  handleDraw s = Some (s', t) ->
  showSuitPicker s' = showSuitPicker s /\
  pendingEightCard s' = pendingEightCard s /\
  aiHand s' = aiHand s /\ discardPile s' = discardPile s /\
  currentSuit s' = currentSuit s /\ turn s' = turn s /\ phase s' = phase s /\
  (t = None \/ exists ms, t = Some (SetTurnAi ms)).
Proof.
  unfold handleDraw.
  destruct (_ || _ || _).
  { intros H. injection H as <- <-. repeat split; auto. }
  destruct (length (deck s) =? 0).
  { intros H. injection H as <- <-. fields. repeat split; eauto. }
  destruct (pop (deck s)) as [[nd x]|]; [|discriminate].
  destruct (isValidMoveIn s x) as [[|]|]; intros H; try discriminate;
    injection H as <- <-; fields; repeat split; eauto.
Qed.

Lemma handleDraw_not_player s :
  turn s <> player -> handleDraw s = Some (s, None).
Proof.
  intros Ht. unfold handleDraw.
  destruct (turn_eqb (turn s) player) eqn:E; [|reflexivity].
  apply turn_eqb_eq in E. contradiction.
Qed.

Lemma cardClick_not_player c s :
  turn s <> player -> cardClick c s = Some s.
Proof.
  intros Ht. unfold cardClick, isPlayable.
  destruct (turn_eqb (turn s) player) eqn:E; [|reflexivity].
  apply turn_eqb_eq in E. contradiction.
Qed.

(** During the AI's turn the human can change the state in one way only:
    by naming the suit of an eight that is still pending. *)
Lemma human_during_ai_turn act s s' t :
  turn s = ai -> handle act s = Some (s', t) -> isRestart act = false ->
  t = None /\
  (s' = s \/
   exists c chosen, pendingEightCard s = Some c /\
                    s' = handleSuitPick chosen s).
Proof.
  intros Ht H Hr.
  assert (Hn : turn s <> player) by (rewrite Ht; discriminate).
  destruct act as [|i|chosen|rnd]; simpl in H; try discriminate Hr.
  - rewrite (handleDraw_not_player s Hn) in H. injection H as <- <-. auto.
  - destruct (nth_error (playerHand s) i) as [c|]; [|discriminate].
    rewrite (cardClick_not_player c s Hn) in H. simpl in H.
    injection H as <- <-. auto.
  - injection H as <- <-. split; [reflexivity|].
    destruct (pendingEightCard s) as [c|] eqn:E.
    + right. exists c, chosen. auto.
    + left. unfold handleSuitPick. now rewrite E.
Qed.

Lemma aiCallback_keeps u snap cur s' t :
  aiCallback u snap cur = Some (s', t) ->
  showSuitPicker s' = showSuitPicker cur /\
  pendingEightCard s' = pendingEightCard cur /\
  playerHand s' = playerHand cur.
Proof.
  unfold aiCallback.
  destruct (filterOpt _ _) as [pl|]; [|discriminate].
  destruct (0 <? length pl).
  { destruct (cardToPlay u pl) as [c|]; [|discriminate].
    intros H. injection H as <- <-.
    destruct (playCard_ai_rest snap c cur) as (_ & _ & E1 & E2 & _).
    destruct (playCard_ai_containers snap c cur) as (_ & E3 & _).
    auto. }
  destruct (0 <? length (deck snap)).
  2:{ intros H. injection H as <- <-. fields. auto. }
  destruct (pop (deck snap)) as [[nd x]|]; [|discriminate].
  destruct (isValidMoveIn snap x) as [[|]|]; intros H; try discriminate;
    injection H as <- <-; fields; auto.
Qed.

Lemma fire_keeps t s :
  showSuitPicker (fire t s) = showSuitPicker s /\
  pendingEightCard (fire t s) = pendingEightCard s /\
  playerHand (fire t s) = playerHand s /\ deck (fire t s) = deck s.
Proof.
  destruct t as [ms|snap c ms]; simpl; [auto|].
  destruct (playCard_ai_rest snap c s) as (_ & _ & E1 & E2 & _).
  destruct (playCard_ai_containers snap c s) as (E3 & E4 & _). auto.
Qed.

(** ** The suit picker *)

Lemma Waiting_kept s s' :
  showSuitPicker s' = showSuitPicker s ->
  pendingEightCard s' = pendingEightCard s -> Waiting s -> Waiting s'.
Proof. intros H1 H2 [P1 P2]. split; rewrite ?H1, H2; assumption. Qed.


Lemma Some_eq {A} (x y : A) : Some x = Some y -> x = y.
Proof. congruence. Qed.

Lemma Some_pair_eq {A B} (x y : A) (u v : B) :
  Some (x, u) = Some (y, v) -> x = y /\ u = v.
Proof. intros H. split; congruence. Qed.

Lemma eight_or_not (r : Rank) : r = R8 \/ r <> R8.
Proof. destruct r; (now left) || (right; discriminate). Qed.

Lemma cardClick_Waiting c s s' :
  Waiting s -> cardClick c s = Some s' -> Waiting s'.
Proof.
  intros W. unfold cardClick.
  destruct (isPlayable s c) as [[|]|] eqn:E; intros H; try discriminate;
    apply Some_eq in H; subst s'; [|exact W].
  apply isPlayable_true in E as (_ & _ & Hs & _).
  destruct (eight_or_not (rank c)) as [E8|E8].
  - rewrite (playCard_player_eight s c s E8).
    split; fields.
    + split; [discriminate|reflexivity].
    + intros c' H. injection H as <-. exact E8.
  - destruct (playCard_player_fields s c s E8)
      as (_ & _ & _ & _ & _ & _ & _ & E1 & E2 & _).
    now apply (Waiting_kept s).
Qed.

Lemma handleSuitPick_Waiting chosen s :
  Waiting s -> Waiting (handleSuitPick chosen s).
Proof.
  intros W. destruct (pendingEightCard s) as [c|] eqn:E.
  - destruct (handleSuitPick_fields chosen c s E)
      as (_ & _ & _ & _ & _ & _ & _ & E1 & E2 & _).
    split; rewrite ?E1, E2.
    + split; [discriminate|congruence].
    + discriminate.
  - unfold handleSuitPick. now rewrite E.
Qed.

Lemma initGame_keeps rnd s0 s :
  initGame rnd s0 = Some s ->
  showSuitPicker s = showSuitPicker s0 /\
  pendingEightCard s = pendingEightCard s0 /\
  turn s = player /\ phase s = playing.
Proof.
  intros H. destruct (initGame_fields rnd s0) as (s1 & d & E & F).
  rewrite H in E. injection E as <-. tauto.
Qed.

Lemma handle_Waiting act s s' t :
  Waiting s -> handle act s = Some (s', t) -> Waiting s'.
Proof.
  intros W. destruct act as [|i|chosen|rnd]; simpl.
  - intros H. apply handleDraw_keeps in H as (E1 & E2 & _).
    now apply (Waiting_kept s).
  - destruct (nth_error _ i) as [c|]; [|discriminate].
    destruct (cardClick c s) as [s1|] eqn:E; [|discriminate].
    simpl. intros H. injection H as <- <-. now apply (cardClick_Waiting c s).
  - intros H. injection H as <- <-. now apply handleSuitPick_Waiting.
  - destruct (initGame rnd s) as [s1|] eqn:E; [|discriminate].
    simpl. intros H. injection H as <- <-.
    apply initGame_keeps in E as (E1 & E2 & _).
    now apply (Waiting_kept s).
Qed.

(** ** Due times *)

Lemma noneBefore_Forall t a :
  noneBefore t a = true -> Forall (fun d => t <= d) (dues a).
Proof.
  unfold noneBefore. intros H. apply Forall_forall. intros d Hd.
  rewrite forallb_forall in H. apply Nat.leb_le. now apply H.
Qed.

Lemma dues_split a :
  Forall (fun d => clock a <= d) (dues a) <->
  (forall d sn, aiTimer a = Some (d, sn) -> clock a <= d) /\
  Forall (fun p => clock a <= fst p) (timers a).
Proof.
  unfold dues. rewrite Forall_app, Forall_map. split; intros [H1 H2].
  - split; [|exact H2]. intros d sn E. rewrite E in H1.
    now apply Forall_inv in H1.
  - split; [|exact H2]. destruct (aiTimer a) as [[d sn]|]; [|constructor].
    constructor; [eauto|constructor].
Qed.

Lemma In_dropNth {A} (x : A) k l : In x (dropNth k l) -> In x l.
Proof.
  unfold dropNth. revert k. induction l as [|h t IH]; intros [|k]; simpl;
    auto.
  - intros [<-|H]; [now left|]. right. now apply (IH k).
Qed.

Lemma Forall_dropNth {A} (P : A -> Prop) k l :
  Forall P l -> Forall P (dropNth k l).
Proof.
  rewrite !Forall_forall. intros H x Hx. apply H.
  now apply (In_dropNth x k).
Qed.

Lemma Forall_started (now : nat) t :
  Forall (fun p : nat * Timer => now <= fst p) (started now t).
Proof.
  destruct t as [t|]; simpl; [|constructor].
  constructor; [simpl; lia|constructor].
Qed.

(** After an event no pending timeout is overdue. *)
Lemma dues_after now renewed old s s' ts :
  (forall d sn, old = Some (d, sn) -> now <= d) ->
  Forall (fun p : nat * Timer => now <= fst p) ts ->
  DuesOk (mkApp s' now (aiEffectTimer now renewed old s s') ts).
Proof.
  intros Hold Hts. apply dues_split. simpl. split; [|exact Hts].
  intros d sn E. apply aiEffectTimer_cases in E as [(_ & -> & _)|(_ & _ & E)].
  - lia.
  - eauto.
Qed.

Lemma appStep_DuesOk e a a' : DuesOk a -> appStep e a = Some a' -> DuesOk a'.
Proof.
  intros HD. destruct e as [dt act|k|u]; simpl.
  - destruct (noneBefore (clock a + dt) a) eqn:N; [|discriminate].
    destruct (handle act (state a)) as [[s' t]|]; [|discriminate].
    intros H. injection H as <-.
    apply noneBefore_Forall in N.
    assert (N' : Forall (fun d => clock (mkApp (state a) (clock a + dt)
                                   (aiTimer a) (timers a)) <= d)
                   (dues (mkApp (state a) (clock a + dt)
                            (aiTimer a) (timers a)))) by exact N.
    apply dues_split in N' as [N1 N2]. simpl in N1, N2.
    apply dues_after; [exact N1|].
    apply Forall_app. split; [exact N2|apply Forall_started].
  - destruct (nth_error (timers a) k) as [[due t]|]; [|discriminate].
    destruct (noneBefore due a) eqn:N; [|discriminate].
    intros H. injection H as <-.
    apply noneBefore_Forall in N.
    assert (N' : Forall (fun d => clock (mkApp (state a) due
                                   (aiTimer a) (timers a)) <= d)
                   (dues (mkApp (state a) due (aiTimer a) (timers a))))
      by exact N.
    apply dues_split in N' as [N1 N2]. simpl in N1, N2.
    apply dues_after; [exact N1|].
    now apply Forall_dropNth.
  - destruct (aiTimer a) as [[due snap]|] eqn:Ea; [|discriminate].
    destruct (noneBefore due a) eqn:N; [|discriminate].
    destruct (aiCallback u snap (state a)) as [[s' t]|]; [|discriminate].
    intros H. injection H as <-.
    apply noneBefore_Forall in N.
    assert (N' : Forall (fun d => clock (mkApp (state a) due
                                   (aiTimer a) (timers a)) <= d)
                   (dues (mkApp (state a) due (aiTimer a) (timers a))))
      by exact N.
    apply dues_split in N' as [_ N2]. simpl in N2.
    apply dues_after; [discriminate|].
    apply Forall_app. split; [exact N2|apply Forall_started].
Qed.

(** ** The discard pile is never empty *)

Lemma cardClick_discard c s s' :
  cardClick c s = Some s' ->
  discardPile s' = discardPile s \/ discardPile s' = discardPile s ++ [c].
Proof.
  unfold cardClick.
  destruct (isPlayable s c) as [[|]|]; intros H; try discriminate;
    apply Some_eq in H; subst s'; [|now left].
  destruct (eight_or_not (rank c)) as [E8|E8].
  - left. now rewrite (playCard_player_eight s c s E8).
  - right. now destruct (playCard_player_fields s c s E8) as (_ & _ & _ & E & _).
Qed.

Lemma handleSuitPick_discard chosen s :
  discardPile (handleSuitPick chosen s) = discardPile s \/
  exists c, discardPile (handleSuitPick chosen s) = discardPile s ++ [c].
Proof.
  destruct (pendingEightCard s) as [c|] eqn:E.
  - right. exists c.
    now destruct (handleSuitPick_fields chosen c s E) as (_ & _ & _ & F & _).
  - left. unfold handleSuitPick. now rewrite E.
Qed.

Lemma snoc_not_empty {A} (l : list A) x : l ++ [x] <> [].
Proof. destruct l; discriminate. Qed.

Lemma handle_laid act s s' t :
  discardPile s <> [] -> handle act s = Some (s', t) -> discardPile s' <> [].
Proof.
  intros Hd. destruct act as [|i|chosen|rnd]; simpl.
  - intros H. apply handleDraw_keeps in H as (_ & _ & _ & E & _). congruence.
  - destruct (nth_error (playerHand s) i) as [c|]; [|discriminate].
    destruct (cardClick c s) as [s1|] eqn:E; [|discriminate].
    simpl. intros H. apply Some_pair_eq in H as [<- _].
    apply cardClick_discard in E as [->| ->];
      [exact Hd|apply snoc_not_empty].
  - intros H. apply Some_pair_eq in H as [<- _].
    destruct (handleSuitPick_discard chosen s) as [->|[c ->]];
      [exact Hd|apply snoc_not_empty].
  - destruct (initGame rnd s) as [s1|] eqn:E; [|discriminate].
    simpl. intros H. apply Some_pair_eq in H as [<- _].
    destruct (initGame_fields rnd s)
      as (s2 & d & E2 & _ & _ & _ & Q & _).
    rewrite E in E2. apply Some_eq in E2. subst s2. rewrite Q. discriminate.
Qed.

Lemma fire_laid t s : discardPile s <> [] -> discardPile (fire t s) <> [].
Proof.
  intros Hd. destruct t as [ms|snap c ms]; cbn [fire]; [exact Hd|].
  destruct (playCard_ai_containers snap c s) as (_ & _ & _ & ->).
  apply snoc_not_empty.
Qed.

Lemma aiCallback_laid u snap cur s' t :
  discardPile cur <> [] -> aiCallback u snap cur = Some (s', t) ->
  discardPile s' <> [].
Proof.
  intros Hd. unfold aiCallback.
  destruct (filterOpt _ _) as [pl|]; [|discriminate].
  destruct (0 <? length pl).
  { destruct (cardToPlay u pl) as [c|]; [|discriminate].
    intros H. apply Some_pair_eq in H as [<- _].
    destruct (playCard_ai_containers snap c cur) as (_ & _ & _ & ->).
    apply snoc_not_empty. }
  destruct (0 <? length (deck snap)).
  2:{ intros H. apply Some_pair_eq in H as [<- _]. exact Hd. }
  destruct (pop (deck snap)) as [[nd x]|]; [|discriminate].
  destruct (isValidMoveIn snap x) as [[|]|]; intros H; try discriminate;
    apply Some_pair_eq in H as [<- _]; exact Hd.
Qed.

Lemma appStep_laid e a a' :
  discardPile (state a) <> [] -> appStep e a = Some a' ->
  discardPile (state a') <> [].
Proof.
  intros Hd. destruct e as [dt act|k|u]; simpl.
  - destruct (noneBefore (clock a + dt) a); [|discriminate].
    destruct (handle act (state a)) as [[s' t]|] eqn:Eh; [|discriminate].
    intros H. apply Some_eq in H. subst a'. simpl.
    now apply (handle_laid act (state a) s' t).
  - destruct (nth_error (timers a) k) as [[due0 t]|]; [|discriminate].
    destruct (noneBefore due0 a); [|discriminate].
    intros H. apply Some_eq in H. subst a'. simpl. now apply fire_laid.
  - destruct (aiTimer a) as [[due0 sn]|]; [|discriminate].
    destruct (noneBefore due0 a); [|discriminate].
    destruct (aiCallback u sn (state a)) as [[s' t]|] eqn:Ec; [|discriminate].
    intros H. apply Some_eq in H. subst a'. simpl.
    now apply (aiCallback_laid u sn (state a) s' t).
Qed.

(** ** The render of the AI effect's timeout *)

Lemma lags_suit_pick snap s chosen c :
  lags snap s -> Waiting s -> pendingEightCard s = Some c ->
  sameDeps s (handleSuitPick chosen s) = true ->
  lags snap (handleSuitPick chosen s).
Proof.
  intros (L1 & L2 & L3 & L4 & L5 & L6 & L7 & L0 & L8) [_ W8] Hpe D.
  apply sameDeps_eq in D as (D1 & D2 & D3 & D4 & D5).
  destruct (handleSuitPick_fields chosen c s Hpe)
    as (_ & _ & _ & F4 & _ & _ & _ & _ & F9 & _).
  unfold lags. rewrite <- D1, <- D2, <- D3, <- D4, <- D5.
  repeat (split; [assumption|]).
  right. split; [exact F9|]. exists c. split; [now apply W8|].
  rewrite F4. destruct L8 as [->|[Hn _]]; [reflexivity|congruence].
Qed.

Lemma lags_turn snap s : lags snap s -> lags snap (set_turn ai s).
Proof.
  intros (L1 & L2 & L3 & L4 & L5 & L6 & L7 & L0 & L8).
  unfold lags. fields. repeat split; assumption.
Qed.

Lemma appStep_Fresh e a a' :
  Fresh a -> Waiting (state a) -> discardPile (state a) <> [] ->
  appStep e a = Some a' -> Fresh a'.
Proof.
  intros HF HW Hd Hstep. pose proof (appStep_laid e a a' Hd Hstep) as Hd'.
  revert Hstep Hd'. destruct e as [dt act|k|u]; simpl.
  - destruct (noneBefore (clock a + dt) a); [|discriminate].
    destruct (handle act (state a)) as [[s' t]|] eqn:Eh; [|discriminate].
    intros H. apply Some_eq in H. subst a'. simpl.
    intros Hd' due snap E. simpl in E |- *.
    apply aiEffectTimer_cases in E
      as [(-> & _ & Ht & Hp)|(Hr & D & E)]; [now apply lags_refl|].
    pose proof (HF due snap E) as L.
    assert (Ht : turn (state a) = ai) by apply L.
    destruct (human_during_ai_turn act _ _ _ Ht Eh Hr)
      as (_ & [->|(c & chosen & Hpe & ->)]); [exact L|].
    now apply (lags_suit_pick snap (state a) chosen c).
  - destruct (nth_error (timers a) k) as [[due0 t]|]; [|discriminate].
    destruct (noneBefore due0 a); [|discriminate].
    intros H. apply Some_eq in H. subst a'. simpl.
    intros Hd' due snap E. simpl in E |- *.
    apply aiEffectTimer_cases in E
      as [(-> & _ & Ht & Hp)|(Hr & D & E)]; [now apply lags_refl|].
    destruct t as [ms|sn c ms]; [|discriminate Hr].
    simpl. apply lags_turn. now apply (HF due).
  - destruct (aiTimer a) as [[due0 sn]|]; [|discriminate].
    destruct (noneBefore due0 a); [|discriminate].
    destruct (aiCallback u sn (state a)) as [[s' t]|]; [|discriminate].
    intros H. apply Some_eq in H. subst a'. simpl.
    intros Hd' due snap E. simpl in E |- *.
    apply aiEffectTimer_cases in E
      as [(-> & _ & Ht & Hp)|(Hr & _)]; [now apply lags_refl|discriminate].
Qed.

Lemma appStep_Waiting e a a' :
  Waiting (state a) -> appStep e a = Some a' -> Waiting (state a').
Proof.
  intros HW. destruct e as [dt act|k|u]; simpl.
  - destruct (noneBefore (clock a + dt) a); [|discriminate].
    destruct (handle act (state a)) as [[s' t]|] eqn:Eh; [|discriminate].
    intros H. apply Some_eq in H. subst a'. simpl.
    now apply (handle_Waiting act (state a) s' t).
  - destruct (nth_error (timers a) k) as [[due0 t]|]; [|discriminate].
    destruct (noneBefore due0 a); [|discriminate].
    intros H. apply Some_eq in H. subst a'. simpl.
    destruct (fire_keeps t (state a)) as (E1 & E2 & _).
    now apply (Waiting_kept (state a)).
  - destruct (aiTimer a) as [[due0 sn]|]; [|discriminate].
    destruct (noneBefore due0 a); [|discriminate].
    destruct (aiCallback u sn (state a)) as [[s' t]|] eqn:Ec; [|discriminate].
    intros H. apply Some_eq in H. subst a'. simpl.
    apply aiCallback_keeps in Ec as (E1 & E2 & _).
    now apply (Waiting_kept (state a)).
Qed.

(** The effect has a timeout pending whenever the AI is to move in a
    running game. *)
Lemma aiEffectTimer_armed now renewed old s s' :
  renewed = true \/ (turn s = ai -> phase s = playing -> old <> None) ->
  turn s' = ai -> phase s' = playing ->
  aiEffectTimer now renewed old s s' <> None.
Proof.
  intros Hold Ht Hp. unfold aiEffectTimer.
  destruct (renewed || negb (sameDeps s s')) eqn:E.
  - rewrite Ht, Hp. discriminate.
  - apply orb_false_elim in E as [-> E]. apply negb_false_iff in E.
    apply sameDeps_eq in E as (E1 & _ & E3 & _).
    destruct Hold as [Hold|Hold]; [discriminate|].
    apply Hold; congruence.
Qed.

Lemma appStep_Armed e a a' : Armed a -> appStep e a = Some a' -> Armed a'.
Proof.
  intros HA. destruct e as [dt act|k|u]; simpl.
  - destruct (noneBefore (clock a + dt) a); [|discriminate].
    destruct (handle act (state a)) as [[s' t]|]; [|discriminate].
    intros H. apply Some_eq in H. subst a'. intros Ht Hp. simpl in *.
    apply aiEffectTimer_armed; auto.
  - destruct (nth_error (timers a) k) as [[due0 t]|]; [|discriminate].
    destruct (noneBefore due0 a); [|discriminate].
    intros H. apply Some_eq in H. subst a'. intros Ht Hp. simpl in *.
    apply aiEffectTimer_armed; auto.
  - destruct (aiTimer a) as [[due0 sn]|]; [|discriminate].
    destruct (noneBefore due0 a); [|discriminate].
    destruct (aiCallback u sn (state a)) as [[s' t]|]; [|discriminate].
    intros H. apply Some_eq in H. subst a'. intros Ht Hp. simpl in *.
    apply aiEffectTimer_armed; auto.
Qed.

Lemma appStep_AppOk e a a' : AppOk a -> appStep e a = Some a' -> AppOk a'.
Proof.
  intros (HF & HW & HD & HA & HL) H.
  split; [|split; [|split; [|split]]].
  - now apply (appStep_Fresh e a).
  - now apply (appStep_Waiting e a).
  - now apply (appStep_DuesOk e a).
  - now apply (appStep_Armed e a).
  - now apply (appStep_laid e a).
Qed.

Lemma mount_AppOk rnd s : initGame rnd initialState = Some s -> AppOk (mount s).
Proof.
  intros H.
  destruct (initGame_fields rnd initialState)
    as (s1 & d & E & _ & _ & _ & Q & _).
  rewrite H in E. apply Some_eq in E. subst s1.
  apply initGame_keeps in H as (E1 & E2 & Et & _).
  split; [|split; [|split; [|split]]].
  - intros due snap E. discriminate E.
  - simpl. split; rewrite ?E1, E2; simpl.
    + split; [discriminate|congruence].
    + discriminate.
  - constructor.
  - intros Ht. simpl in Ht. congruence.
  - simpl. rewrite Q. discriminate.
Qed.

Lemma appReach_AppOk allowed a : appReach allowed a -> AppOk a.
Proof.
  induction 1 as [rnd s H|e a a' _ IH _ H].
  - now apply (mount_AppOk rnd).
  - now apply (appStep_AppOk e a).
Qed.


(** A run of events that are allowed wherever they occur stays within the
    reachable states. *)
Lemma appRun_reach allowed es a a' :
  (forall e b, In e es -> allowed e b) ->
  appReach allowed a -> appRun es a = Some a' -> appReach allowed a'.
Proof.
  revert a. induction es as [|e es IH]; simpl; intros a Hal Hr H.
  - apply Some_eq in H. now subst.
  - destruct (appStep e a) as [a1|] eqn:E; [|discriminate].
    apply (IH a1); [auto| |exact H].
    apply (reach_event allowed e a); auto.
Qed.

(** ** Conservation of the cards on the page *)

(** A deal onto any state holds the 52 cards; an eight left pending by the
    game before is the one thing that can spoil [Inv]. *)
Lemma initGame_Inv_any rnd s0 s :
  initGame rnd s0 = Some s -> pendingEightCard s0 = None -> Inv s.
Proof.
  intros H Hpe.
  destruct (initGame_fields rnd s0)
    as (s1 & d1 & E1 & P1 & A1 & D1 & Q1 & K1 & _ & _ & _ & _ & _ & _ & _
           & _ & Hp).
  rewrite H in E1. apply Some_eq in E1. subst s1.
  destruct (initGame_fields rnd initialState)
    as (s2 & d2 & E2 & P2 & A2 & D2 & Q2 & K2 & _).
  destruct (initGame_Inv rnd s2 E2) as [Hperm _].
  split.
  - unfold allCards in *. rewrite P1, A1, D1, Q1.
    rewrite P2, A2, D2, Q2 in Hperm.
    assert (d1 = d2) by congruence. now subst.
  - intros c Hc. congruence.
Qed.

Lemma handle_Inv act s s' t :
  Inv s -> (isRestart act = true -> pendingEightCard s = None) ->
  handle act s = Some (s', t) -> Inv s'.
Proof.
  intros HI Hq. destruct act as [|i|chosen|rnd]; simpl.
  - intros H. now destruct (handleDraw_Inv _ _ _ HI H).
  - destruct (nth_error (playerHand s) i) as [c|] eqn:En; [|discriminate].
    destruct (cardClick c s) as [s1|] eqn:E; [|discriminate].
    simpl. intros H. apply Some_pair_eq in H as [<- _].
    apply (cardClick_Inv c s); auto. now apply nth_error_In in En.
  - intros H. apply Some_pair_eq in H as [<- _].
    now apply handleSuitPick_Inv.
  - destruct (initGame rnd s) as [s1|] eqn:E; [|discriminate].
    simpl. intros H. apply Some_pair_eq in H as [<- _].
    apply (initGame_Inv_any rnd s); auto.
Qed.

Lemma cardClick_aiHand c s s' : cardClick c s = Some s' -> aiHand s' = aiHand s.
Proof.
  unfold cardClick.
  destruct (isPlayable s c) as [[|]|]; intros H; try discriminate;
    apply Some_eq in H; subst s'; [|reflexivity].
  destruct (eight_or_not (rank c)) as [E8|E8].
  - now rewrite (playCard_player_eight s c s E8).
  - now destruct (playCard_player_fields s c s E8) as (_ & _ & E & _).
Qed.

Lemma handleSuitPick_aiHand chosen s :
  aiHand (handleSuitPick chosen s) = aiHand s.
Proof.
  destruct (pendingEightCard s) as [c|] eqn:E.
  - now destruct (handleSuitPick_fields chosen c s E) as (_ & _ & F & _).
  - unfold handleSuitPick. now rewrite E.
Qed.

(** The human's handlers leave the AI's hand alone and start no timer but
    the one that passes the turn. *)
Lemma handle_aiHand act s s' t :
  handle act s = Some (s', t) -> isRestart act = false ->
  aiHand s' = aiHand s /\ (t = None \/ exists ms, t = Some (SetTurnAi ms)).
Proof.
  destruct act as [|i|chosen|rnd]; simpl; intros H Hr; try discriminate Hr.
  - apply handleDraw_keeps in H as (_ & _ & E & _ & _ & _ & _ & Ht). auto.
  - destruct (nth_error (playerHand s) i) as [c|]; [|discriminate].
    destruct (cardClick c s) as [s1|] eqn:E; [|discriminate].
    simpl in H. apply Some_pair_eq in H as [<- <-].
    split; [now apply (cardClick_aiHand c)|now left].
  - apply Some_pair_eq in H as [<- <-].
    split; [apply handleSuitPick_aiHand|now left].
Qed.

Lemma handle_restart_timer rnd s s' t :
  handle (Restart rnd) s = Some (s', t) -> t = None.
Proof.
  simpl. destruct (initGame rnd s); [|discriminate].
  simpl. intros H. now apply Some_pair_eq in H as [_ <-].
Qed.

(** The AI callback keeps the 52 cards when its render agrees with the
    state on the AI's hand and on the deck. *)
Lemma aiCallback_Inv u snap cur s' t :
  Inv cur -> aiHand snap = aiHand cur -> deck snap = deck cur ->
  aiCallback u snap cur = Some (s', t) ->
  Inv s' /\
  (t = None \/
   exists x, t = Some (PlayDrawn snap x 1000) /\
             aiHand s' = aiHand cur ++ [x]).
Proof.
  intros HI Ha Hd. unfold aiCallback.
  destruct (filterOpt _ _) as [pl|] eqn:Ef; [|discriminate].
  destruct (0 <? length pl).
  { destruct (cardToPlay u pl) as [c|] eqn:Ec; [|discriminate].
    intros H. apply Some_pair_eq in H as [<- <-]. split; [|now left].
    apply playCard_ai_Inv; [exact HI|].
    apply cardToPlay_In in Ec. rewrite <- Ha.
    now apply (filterOpt_In _ _ _ _ Ef). }
  destruct (0 <? length (deck snap)).
  2:{ intros H. apply Some_pair_eq in H as [<- <-]. split; [|now left].
      destruct HI as [Hperm Hpend]. split; [exact Hperm|exact Hpend]. }
  destruct (pop (deck snap)) as [[nd x]|] eqn:Ep; [|discriminate].
  apply pop_Some in Ep. rewrite Hd in Ep. destruct HI as [Hperm Hpend].
  assert (P : Permutation (nd ++ playerHand cur ++ (aiHand cur ++ [x])
                              ++ discardPile cur) createDeck).
  { rewrite <- Hperm. unfold allCards. rewrite Ep.
    symmetry. apply move_deck_ai. }
  destruct (isValidMoveIn snap x) as [[|]|]; intros H; try discriminate;
    apply Some_pair_eq in H as [<- <-].
  - split; [split; [exact P | exact Hpend]|].
    right. exists x. split; reflexivity.
  - split; [split; [exact P | exact Hpend] | now left].
Qed.

(** *** The timeouts that play a drawn card *)

Lemma nth_error_split3 {A} (l : list A) k x :
  nth_error l k = Some x -> l = firstn k l ++ x :: skipn (S k) l.
Proof.
  revert k. induction l as [|h t IH]; intros [|k] H; simpl in *;
    try discriminate.
  - now apply Some_eq in H as ->.
  - f_equal. now apply IH.
Qed.

Lemma filter_dropNth {A} (f : A -> bool) l k x :
  nth_error l k = Some x ->
  (f x = false -> filter f (dropNth k l) = filter f l) /\
  (f x = true -> forall y, filter f l = [y] ->
                 y = x /\ filter f (dropNth k l) = []).
Proof.
  intros H. pose proof (nth_error_split3 _ _ _ H) as E. unfold dropNth.
  assert (F : filter f l = filter f (firstn k l)
                ++ (if f x then [x] else []) ++ filter f (skipn (S k) l)).
  { rewrite E at 1. rewrite filter_app. simpl. now destruct (f x). }
  rewrite filter_app. split; intros Ex; rewrite Ex in F.
  - now rewrite F.
  - intros y Hy. rewrite F in Hy.
    destruct (filter f (firstn k l)) as [|a r].
    + cbn [app] in Hy.
      assert (Hx : x = y /\ filter f (skipn (S k) l) = [])
        by (split; congruence).
      destruct Hx as [-> ->]. auto.
    + cbn [app] in Hy. exfalso.
      assert (Hr : r ++ x :: filter f (skipn (S k) l) = []) by congruence.
      apply app_eq_nil in Hr as [_ Hr]. discriminate.
Qed.

Lemma drawnPending_started a s' now ai' t :
  t = None \/ (exists ms, t = Some (SetTurnAi ms)) ->
  drawnPending (mkApp s' now ai' (timers a ++ started now t))
    = drawnPending a.
Proof.
  unfold drawnPending. simpl. rewrite filter_app.
  intros [->|[ms ->]]; simpl; now rewrite app_nil_r.
Qed.

Lemma DrawnOk_nil_before a due snap :
  DrawnOk a -> aiTimer a = Some (due, snap) -> noneBefore due a = true ->
  drawnPending a = [].
Proof.
  intros [H|(d & sn & c & ms & H & _ & _ & Hlt)] Ea N; [exact H|].
  exfalso. specialize (Hlt due snap Ea).
  apply noneBefore_Forall in N. unfold dues in N. rewrite Ea in N.
  apply Forall_app in N as [_ N]. rewrite Forall_map in N.
  rewrite Forall_forall in N.
  assert (Hin : In (d, PlayDrawn sn c ms) (drawnPending a))
    by (rewrite H; now left).
  apply filter_In in Hin as [Hin _]. specialize (N _ Hin). simpl in N. lia.
Qed.

(** *** The invariant *)

Lemma mount_Sound rnd s : initGame rnd initialState = Some s -> Sound (mount s).
Proof.
  intros H. split; [now apply (initGame_Inv rnd)|now left].
Qed.

Lemma appStep_Sound e a a' :
  AppOk a -> Sound a -> quietRestart e a -> appStep e a = Some a' -> Sound a'.
Proof.
  intros (HF & HW & HD & _ & _) [HI HP] Hq.
  apply dues_split in HD as [HDa HDt].
  destruct e as [dt act|k|u]; simpl.
  - destruct (noneBefore (clock a + dt) a) eqn:N; [|discriminate].
    destruct (handle act (state a)) as [[s' t]|] eqn:Eh; [|discriminate].
    intros H. apply Some_eq in H. subst a'.
    assert (Hpe : isRestart act = true -> pendingEightCard (state a) = None).
    { destruct act; try discriminate. intros _. apply Hq. }
    split; [exact (handle_Inv act _ _ _ HI Hpe Eh)|].
    destruct (isRestart act) eqn:Er.
    + destruct act; try discriminate Er. destruct Hq as [_ Hq].
      left. rewrite (handle_restart_timer _ _ _ _ Eh). simpl.
      unfold drawnPending in *. simpl. now rewrite app_nil_r.
    + destruct (handle_aiHand act _ _ _ Eh Er) as [Ea Ht].
      unfold DrawnOk. rewrite (drawnPending_started a _ _ _ _ Ht).
      destruct HP as [HP|(d & sn & c & ms & HP & Hin & Hd & Hlt)];
        [now left|].
      right. exists d, sn, c, ms. simpl. rewrite Ea.
      split; [exact HP|]. split; [exact Hin|]. split; [lia|].
      intros d' sn' E. apply aiEffectTimer_cases in E
        as [(_ & -> & _)|(_ & _ & E)]; [lia|eauto].
  - destruct (nth_error (timers a) k) as [[due0 t]|] eqn:En; [|discriminate].
    destruct (noneBefore due0 a) eqn:N; [|discriminate].
    intros H. apply Some_eq in H. subst a'.
    assert (Hdue : clock a <= due0).
    { rewrite Forall_forall in HDt. apply nth_error_In in En.
      now apply (HDt _ En). }
    destruct (filter_dropNth (fun p => isPlayDrawn (snd p)) _ _ _ En)
      as [Dset Dplay].
    destruct t as [ms0|sn0 c0 ms0]; simpl in Dset, Dplay.
    + split.
      { simpl. destruct HI as [Hperm Hpend]. split; [exact Hperm|exact Hpend]. }
      unfold DrawnOk, drawnPending. simpl. rewrite (Dset eq_refl).
      destruct HP as [HP|(d & sn & c & ms & HP & Hin & Hd & Hlt)];
        [now left|].
      right. exists d, sn, c, ms.
      split; [exact HP|]. split; [exact Hin|]. split; [lia|].
      intros d' sn' E. apply aiEffectTimer_cases in E
        as [(_ & -> & _)|(_ & _ & E)]; [lia|eauto].
    + destruct HP as [HP|(d & sn & c & ms & HP & Hin & Hd & Hlt)].
      { exfalso. apply nth_error_In in En.
        assert (Hin : In (due0, PlayDrawn sn0 c0 ms0) (drawnPending a))
          by (apply filter_In; auto).
        rewrite HP in Hin. contradiction. }
      destruct (Dplay eq_refl _ HP) as [Eq Hnil].
      injection Eq as -> -> -> ->.
      split; [|left; exact Hnil].
      apply playCard_ai_Inv; [exact HI|].
      rewrite Hin. apply in_or_app. right. now left.
  - destruct (aiTimer a) as [[due0 snap]|] eqn:Ea; [|discriminate].
    destruct (noneBefore due0 a) eqn:N; [|discriminate].
    destruct (aiCallback u snap (state a)) as [[s' t]|] eqn:Ec;
      [|discriminate].
    intros H. apply Some_eq in H. subst a'.
    pose proof (DrawnOk_nil_before a due0 snap HP Ea N) as Hnil.
    destruct (HF due0 snap Ea) as (_ & _ & _ & _ & La & Ld & _).
    destruct (aiCallback_Inv u snap _ _ _ HI La Ld Ec)
      as [HI' [->|(x & -> & Hx)]].
    + split; [exact HI'|]. left. unfold drawnPending in *. simpl.
      now rewrite app_nil_r.
    + split; [exact HI'|]. right. exists (due0 + 1000), snap, x, 1000.
      unfold drawnPending in *. simpl. rewrite filter_app, Hnil. simpl.
      split; [reflexivity|]. split; [now rewrite Hx, La|]. split; [lia|].
      intros d' sn' E. apply aiEffectTimer_cases in E
        as [(_ & -> & _)|(Hr & _)]; [lia|discriminate].
Qed.

Lemma appReach_Sound a : appReach quietRestart a -> Sound a.
Proof.
  induction 1 as [rnd s H|e a a' Hr IH Hq H].
  - now apply (mount_Sound rnd).
  - apply (appStep_Sound e a); auto. now apply (appReach_AppOk quietRestart).
Qed.

(** ** Where the page departs from the specification *)

Lemma mount_dealt_reachable allowed : appReach allowed (mount dealt).
Proof. apply (reach_mount allowed rnd_id). exact dealt_is_the_deal. Qed.


(** C2, where the code departs from it.  [initGame] deals a new game but
    leaves the pending timeouts and the pending eight of the game before.
    In [restart_in_window] the AI has drawn the queen of spades and the
    timeout that will play it is pending when the human restarts; the
    identity shuffle deals the queen of spades into the new deck, and the old
    timeout then puts a queen of spades on the new discard pile.  In
    [restart_with_picker] the eight of hearts is pending when the human
    restarts; the new deal puts it into the deck, and the suit pick puts it
    on the discard pile as well.  Either way the four containers hold 53
    cards and one id is in two of them. *)
Theorem restart_duplicates_a_card :
  (exists a,
     appRun restart_in_window (mount dealt) = Some a /\
     appReach anyEvent a /\
     length (deck (state a)) + length (playerHand (state a))
       + length (aiHand (state a)) + length (discardPile (state a)) = 53 /\
     In (newCard spades RQ) (deck (state a)) /\
     In (newCard spades RQ) (discardPile (state a))) /\
  (exists a,
     appRun restart_with_picker (mount dealt) = Some a /\
     appReach anyEvent a /\
     length (deck (state a)) + length (playerHand (state a))
       + length (aiHand (state a)) + length (discardPile (state a)) = 53 /\
     In (newCard hearts R8) (deck (state a)) /\
     In (newCard hearts R8) (discardPile (state a))).
Proof.
  split.
  - eexists. split; [vm_compute; reflexivity|]. split.
    { apply (appRun_reach anyEvent restart_in_window (mount dealt));
        [intros; exact I|apply mount_dealt_reachable|vm_compute; reflexivity]. }
    split; [vm_compute; reflexivity|]. split.
    + apply (nth_error_In _ 34). vm_compute. reflexivity.
    + apply (nth_error_In _ 1). vm_compute. reflexivity.
  - eexists. split; [vm_compute; reflexivity|]. split.
    { apply (appRun_reach anyEvent restart_with_picker (mount dealt));
        [intros; exact I|apply mount_dealt_reachable|vm_compute; reflexivity]. }
    split; [vm_compute; reflexivity|]. split.
    + apply (nth_error_In _ 0). vm_compute. reflexivity.
    + apply (nth_error_In _ 1). vm_compute. reflexivity.
Qed.

Lemma stale_draw_reachable allowed :
  (forall e b, In e late_eight -> allowed e b) ->
  appReach allowed stale_draw.
Proof.
  intros Hal.
  apply (appRun_reach allowed late_eight (mount dealt_king)); [exact Hal| |].
  - apply (reach_mount allowed
             (pickAt 50 16 (pickAt 49 12 (pickAt 17 12 rnd_id)))).
    vm_compute. reflexivity.
  - vm_compute. reflexivity.
Qed.

Lemma stale_table_reachable allowed :
  (forall e b, In e late_eight -> allowed e b) ->
  appReach allowed stale_table.
Proof.
  intros Hal.
  apply (appRun_reach allowed late_eight (mount dealt_spade)); [exact Hal| |].
  - apply (reach_mount allowed (pickAt 50 16 (pickAt 40 15 rnd_id))).
    vm_compute. reflexivity.
  - vm_compute. reflexivity.
Qed.

Lemma late_eight_quiet e b : In e late_eight -> quietRestart e b.
Proof. intros [<-|[<-|[<-|[<-|[]]]]]; exact I. Qed.

(** C6, where the code departs from it.  In [stale_draw] the AI is to move,
    the eight of hearts is on top of the discard pile and spades is the
    active suit; no card of the AI's hand is legal and neither is the king of
    hearts, the last card of the deck.  The timeout of the AI effect was
    started before the player named the suit, spades again, and its
    [isValidMove] still sees the king of spades on top.  When it fires the
    AI draws the king of hearts, finds it legal, keeps the turn and starts
    the timeout that plays it: a second later the king of hearts lies on the
    eight of hearts. *)
Theorem ai_plays_rejected_draw :
  exists snap a1 a2,
    appReach anyEvent stale_draw /\
    turn (state stale_draw) = ai /\ phase (state stale_draw) = playing /\
    topDiscard (state stale_draw) = Some (newCard hearts R8) /\
    currentSuit (state stale_draw) = Some spades /\
    filterOpt (isValidMoveIn (state stale_draw)) (aiHand (state stale_draw))
      = Some [] /\
    lastOf (deck (state stale_draw)) = Some (newCard hearts RK) /\
    isValidMoveIn (state stale_draw) (newCard hearts RK) = Some false /\
    aiTimer stale_draw = Some (2500, snap) /\
    topDiscard snap = Some (newCard spades RK) /\
    appStep (AiTimerFires first) stale_draw = Some a1 /\
    aiHand (state a1) = aiHand (state stale_draw) ++ [newCard hearts RK] /\
    turn (state a1) = ai /\
    timers a1 = [(3500, PlayDrawn snap (newCard hearts RK) 1000)] /\
    appStep (TimerFires 0) a1 = Some a2 /\
    discardPile (state a2)
      = discardPile (state stale_draw) ++ [newCard hearts RK] /\
    aiHand (state a2) = aiHand (state stale_draw) /\
    turn (state a2) = player.
Proof.
  eexists. eexists. eexists.
  split; [apply stale_draw_reachable; intros; exact I|].
  repeat (split; [vm_compute; reflexivity|]).
  vm_compute. reflexivity.
Qed.

(** C7, where the code departs from it.  In [stale_table] the AI is to
    move, the eight of hearts is on top of the discard pile and spades is the
    active suit: the two of spades in the AI's hand is legal and not an
    eight, the king of hearts is not legal.  The [isValidMove] of the AI
    effect's timeout still sees the king of spades on top, so both are
    candidates, and with [Math.random()] returning 0 the AI plays the king of
    hearts and keeps the two of spades. *)
Theorem ai_plays_illegal_card :
  exists a',
    appReach anyEvent stale_table /\
    turn (state stale_table) = ai /\ phase (state stale_table) = playing /\
    topDiscard (state stale_table) = Some (newCard hearts R8) /\
    currentSuit (state stale_table) = Some spades /\
    In (newCard spades R2) (aiHand (state stale_table)) /\
    isValidMoveIn (state stale_table) (newCard spades R2) = Some true /\
    rank (newCard spades R2) <> R8 /\
    isValidMoveIn (state stale_table) (newCard hearts RK) = Some false /\
    appStep (AiTimerFires first) stale_table = Some a' /\
    discardPile (state a')
      = discardPile (state stale_table) ++ [newCard hearts RK] /\
    aiHand (state a')
      = removeById (newCard hearts RK) (aiHand (state stale_table)) /\
    In (newCard spades R2) (aiHand (state a')).
Proof.
  eexists.
  split; [apply stale_table_reachable; intros; exact I|].
  do 4 (split; [vm_compute; reflexivity|]).
  split; [apply (nth_error_In _ 7); vm_compute; reflexivity|].
  split; [vm_compute; reflexivity|].
  split; [discriminate|].
  do 4 (split; [vm_compute; reflexivity|]).
  apply (nth_error_In _ 6). vm_compute. reflexivity.
Qed.

(** ** What the page keeps *)

(** X22. Conservation of the cards on the page.  Whatever the order in
    which the human's clicks and the timeouts follow each other, and however
    often the game is restarted at a moment when no eight waits for its suit
    and no drawn card waits to be played, the deck, the two hands and the
    discard pile hold 52 cards with pairwise different ids. *)
Theorem cards_conserved_on_the_page :
  forall a,
    appReach quietRestart a ->
    length (deck (state a)) + length (playerHand (state a))
      + length (aiHand (state a)) + length (discardPile (state a)) = 52 /\
    NoDup (map id (deck (state a) ++ playerHand (state a)
                     ++ aiHand (state a) ++ discardPile (state a))).
Proof.
  intros a Hr. apply appReach_Sound in Hr as [HI _]. split.
  - destruct HI as [Hperm _]. apply Permutation_length in Hperm.
    unfold allCards in Hperm. rewrite !length_app, createDeck_length in Hperm.
    lia.
  - now apply Inv_ids.
Qed.

Lemma cards_conserved_on_the_page_witness :
  length (deck (state stale_table)) + length (playerHand (state stale_table))
    + length (aiHand (state stale_table))
    + length (discardPile (state stale_table)) = 52 /\
  NoDup (map id (deck (state stale_table) ++ playerHand (state stale_table)
                   ++ aiHand (state stale_table)
                   ++ discardPile (state stale_table))).
Proof.
  apply (cards_conserved_on_the_page stale_table).
  apply stale_table_reachable. exact late_eight_quiet.
Defined.

(** X8. The pending eight.  In every state of the page, restarts and
    interleavings included, the suit picker is open exactly while a card is
    pending, and a pending card is an eight.  As long as the game is not
    restarted while it is pending, the pending card is a card of the
    player's hand. *)
Theorem pending_eight_on_the_page :
  (forall a,
     appReach anyEvent a ->
     (showSuitPicker (state a) = true <-> pendingEightCard (state a) <> None)
     /\ forall c, pendingEightCard (state a) = Some c -> rank c = R8) /\
  (forall a c,
     appReach quietRestart a ->
     pendingEightCard (state a) = Some c -> In c (playerHand (state a))).
Proof.
  split.
  - intros a Hr. apply appReach_AppOk in Hr as (_ & HW & _). exact HW.
  - intros a c Hr Hc. apply appReach_Sound in Hr as [[_ Hpend] _].
    now destruct (Hpend c Hc).
Qed.

(** X24. The render the AI plays from.  While the timeout of the AI effect
    is pending the AI is to move in a running game, and the other way
    round.  The render [snap] the timeout closed over agrees with the
    current state on the turn, the phase, the AI's hand, the deck and the
    active suit, the five dependencies of the effect.  Its discard pile is
    the current one, or the current one without the eight on top of it: the
    effect does not depend on [discardPile], and a suit pick that names the
    suit already active puts the player's eight on the pile without the
    effect running again. *)
Theorem ai_render_lags_by_one_eight :
  forall a,
    appReach anyEvent a ->
    (aiTimer a <> None <->
     turn (state a) = ai /\ phase (state a) = playing) /\
    forall due snap,
      aiTimer a = Some (due, snap) ->
      clock a <= due /\
      turn snap = turn (state a) /\ phase snap = phase (state a) /\
      aiHand snap = aiHand (state a) /\ deck snap = deck (state a) /\
      currentSuit snap = currentSuit (state a) /\
      (discardPile (state a) = discardPile snap \/
       exists c, rank c = R8 /\
                 discardPile (state a) = discardPile snap ++ [c]).
Proof.
  intros a Hr. apply appReach_AppOk in Hr as (HF & _ & HD & HA & _).
  apply dues_split in HD as [HD _]. split.
  - split.
    + intros Hn. destruct (aiTimer a) as [[due snap]|] eqn:E; [|congruence].
      destruct (HF due snap E) as (L1 & L2 & _). auto.
    + intros [Ht Hp]. now apply HA.
  - intros due snap E.
    destruct (HF due snap E) as (L1 & L2 & L3 & L4 & L5 & L6 & L7 & _ & L8).
    split; [now apply (HD due snap)|].
    repeat (split; [congruence|]).
    destruct L8 as [L8|(_ & c & Hc & L8)]; [now left|right; eauto].
Qed.

Lemma ai_render_lags_by_one_eight_witness :
  (aiTimer stale_table <> None <->
   turn (state stale_table) = ai /\ phase (state stale_table) = playing) /\
  forall due snap,
    aiTimer stale_table = Some (due, snap) ->
    clock stale_table <= due /\
    turn snap = turn (state stale_table) /\
    phase snap = phase (state stale_table) /\
    aiHand snap = aiHand (state stale_table) /\
    deck snap = deck (state stale_table) /\
    currentSuit snap = currentSuit (state stale_table) /\
    (discardPile (state stale_table) = discardPile snap \/
     exists c, rank c = R8 /\
               discardPile (state stale_table) = discardPile snap ++ [c]).
Proof.
  apply (ai_render_lags_by_one_eight stale_table).
  apply stale_table_reachable. intros; exact I.
Defined.

(** ** The AI's move on the page *)

Lemma aiCallback_play u snap cur playable c :
  filterOpt (isValidMoveIn snap) (aiHand snap) = Some playable ->
  cardToPlay u playable = Some c ->
  aiCallback u snap cur = Some (playCard snap c false cur, None).
Proof.
  intros Hf Hc. unfold aiCallback. rewrite Hf, Hc.
  rewrite length_pos_ltb; [reflexivity|].
  intros ->. unfold cardToPlay in Hc. simpl in Hc. discriminate.
Qed.

Lemma aiCallback_skip u snap cur :
  filterOpt (isValidMoveIn snap) (aiHand snap) = Some [] -> deck snap = [] ->
  aiCallback u snap cur
    = Some (set_turn player (set_message MsgAiSkip cur), None).
Proof. intros Hf Hd. unfold aiCallback. now rewrite Hf, Hd. Qed.

Lemma aiCallback_draw u snap cur d x v :
  filterOpt (isValidMoveIn snap) (aiHand snap) = Some [] ->
  deck snap = d ++ [x] -> isValidMoveIn snap x = Some v ->
  aiCallback u snap cur
    = Some (if v then (afterAiDraw d x cur, Some (PlayDrawn snap x 1000))
            else (set_turn player (afterAiDraw d x cur), None)).
Proof.
  intros Hf Hd Hv. unfold aiCallback, afterAiDraw. rewrite Hf, Hd.
  simpl (0 <? length []). cbv iota.
  rewrite length_snoc_ltb, pop_snoc, Hv. now destruct v.
Qed.

(** After a move that gives the turn to the player or ends the game the
    effect has no timeout pending. *)
Lemma aiEffectTimer_none now old s s' :
  turn s' = player \/ phase s' = gameOver ->
  aiEffectTimer now true old s s' = None.
Proof.
  unfold aiEffectTimer. simpl. intros [-> | ->]; [reflexivity|].
  now rewrite andb_false_r.
Qed.

Lemma aiEffectTimer_some now old s s' :
  turn s' = ai -> phase s' = playing ->
  aiEffectTimer now true old s s' = Some (now + 1500, s').
Proof. unfold aiEffectTimer. simpl. now intros -> ->. Qed.

(** The verdict of [isValidMove] depends on the render through the active
    suit and the discard pile only. *)
Lemma isValidMoveIn_same snap s c :
  currentSuit snap = currentSuit s -> discardPile snap = discardPile s ->
  isValidMoveIn snap c = isValidMoveIn s c.
Proof. intros E1 E2. unfold isValidMoveIn, topDiscard. now rewrite E1, E2. Qed.

Lemma lastOf_Some {A} (l : list A) : l <> [] -> exists x, lastOf l = Some x.
Proof.
  intros H. destruct (lastOf l) as [x|] eqn:E; [eauto|].
  apply lastOf_None in E. contradiction.
Qed.

(** X13. The AI plays a card.  When the timeout of the AI effect is the
    next to fire and the [isValidMove] of its render [snap] accepts a card of
    the AI's hand, the callback plays one such card [c] and draws none: a
    card that is not an eight whenever one is accepted, and otherwise the
    first accepted card of the hand, an eight.  [c] leaves the AI's hand,
    which gets one card shorter, for the top of the discard pile; the deck
    and the player's hand stay; the active suit becomes the suit of [c], or
    for an eight the suit the AI names.  The game is over when that was the
    AI's last card, and otherwise the player is to move; no timeout of the
    effect is pending afterwards.  [c] is legal on the current table when
    the discard pile is the one [snap] saw. *)
Theorem ai_timer_plays_a_card :
  forall u a due snap playable,
    appReach quietRestart a ->
    aiTimer a = Some (due, snap) -> noneBefore due a = true ->
    filterOpt (isValidMoveIn snap) (aiHand (state a)) = Some playable ->
    playable <> [] ->
    exists c a',
      appStep (AiTimerFires u) a = Some a' /\
      In c playable /\ In c (aiHand (state a)) /\
      isValidMoveIn snap c = Some true /\
      (discardPile snap = discardPile (state a) ->
       isValidMoveIn (state a) c = Some true) /\
      (nonEights playable <> [] -> rank c <> R8) /\
      (nonEights playable = [] -> exists r, playable = c :: r) /\
      deck (state a') = deck (state a) /\
      playerHand (state a') = playerHand (state a) /\
      aiHand (state a') = removeById c (aiHand (state a)) /\
      length (aiHand (state a)) = S (length (aiHand (state a'))) /\
      discardPile (state a') = discardPile (state a) ++ [c] /\
      currentSuit (state a')
        = Some (if rank_eqb (rank c) R8 then bestSuit (aiHand (state a)) c
                else suit c) /\
      (length (aiHand (state a)) = 1 ->
       phase (state a') = gameOver /\ aiHand (state a') = []) /\
      (length (aiHand (state a)) <> 1 ->
       phase (state a') = playing /\ turn (state a') = player) /\
      timers a' = timers a /\ aiTimer a' = None /\ clock a' = due.
Proof.
  intros u a due snap playable Hr Ea N Hf Hne.
  pose proof (appReach_AppOk _ _ Hr) as (HF & _).
  apply appReach_Sound in Hr as [HI _].
  destruct (HF due snap Ea) as (L1 & L2 & _ & _ & La & Ld & Ls & _).
  rewrite <- La in Hf.
  destruct (cardToPlay_Some u playable Hne) as [c Hc]. exists c.
  pose proof (cardToPlay_In _ _ _ Hc) as Hin.
  destruct (filterOpt_In _ _ _ _ Hf Hin) as [Hhand Hvalid].
  rewrite La in Hhand.
  destruct (playCard_ai_containers snap c (state a)) as (C1 & C2 & C3 & C4).
  destruct (playCard_ai_rest snap c (state a)) as (R1 & R2 & _).
  pose proof (playCard_ai_suit snap c (state a)) as Hsuit.
  rewrite La in R1, R2, Hsuit.
  eexists. split.
  { simpl. rewrite Ea, N, (aiCallback_play u snap _ playable c Hf Hc).
    reflexivity. }
  cbn [state clock aiTimer timers started].
  split; [exact Hin|]. split; [exact Hhand|]. split; [exact Hvalid|].
  split. { intros Hd. now rewrite <- (isValidMoveIn_same snap). }
  split.
  { intros H8. destruct (cardToPlay_nonEight u playable H8) as [E _].
    rewrite Hc in E. symmetry in E. apply nth_error_In in E.
    now apply In_nonEights in E. }
  split.
  { intros H8. rewrite (cardToPlay_eight u playable H8) in Hc.
    destruct playable as [|h r]; [discriminate|]. simpl in Hc.
    apply Some_eq in Hc. subst h. eauto. }
  split; [exact C1|]. split; [exact C2|]. split; [exact C3|].
  split.
  { rewrite C3. apply removeById_length; [exact Hhand|].
    now apply Inv_ai_ids. }
  split; [exact C4|]. split; [exact Hsuit|].
  split.
  { intros H1. apply Nat.eqb_eq in H1. rewrite H1 in R1. split; [exact R1|].
    rewrite C3. now apply removeById_last. }
  split.
  { intros H1. apply Nat.eqb_neq in H1. rewrite H1 in R1, R2.
    split; congruence. }
  split; [apply app_nil_r|]. split; [|reflexivity].
  apply aiEffectTimer_none.
  destruct (length (aiHand (state a)) =? 1); auto.
Qed.

Lemma stale_table_quiet : appReach quietRestart stale_table.
Proof. apply stale_table_reachable. exact late_eight_quiet. Qed.

Lemma ai_timer_plays_a_card_witness :
  exists snap c a',
    aiTimer stale_table = Some (2500, snap) /\
    appStep (AiTimerFires first) stale_table = Some a' /\
    In c [newCard hearts RK; newCard spades R2] /\
    In c (aiHand (state stale_table)) /\
    isValidMoveIn snap c = Some true /\
    (discardPile snap = discardPile (state stale_table) ->
     isValidMoveIn (state stale_table) c = Some true) /\
    (nonEights [newCard hearts RK; newCard spades R2] <> [] ->
     rank c <> R8) /\
    (nonEights [newCard hearts RK; newCard spades R2] = [] ->
     exists r, [newCard hearts RK; newCard spades R2] = c :: r) /\
    deck (state a') = deck (state stale_table) /\
    playerHand (state a') = playerHand (state stale_table) /\
    aiHand (state a') = removeById c (aiHand (state stale_table)) /\
    length (aiHand (state stale_table)) = S (length (aiHand (state a'))) /\
    discardPile (state a') = discardPile (state stale_table) ++ [c] /\
    currentSuit (state a')
      = Some (if rank_eqb (rank c) R8
              then bestSuit (aiHand (state stale_table)) c
              else suit c) /\
    (length (aiHand (state stale_table)) = 1 ->
     phase (state a') = gameOver /\ aiHand (state a') = []) /\
    (length (aiHand (state stale_table)) <> 1 ->
     phase (state a') = playing /\ turn (state a') = player) /\
    timers a' = timers stale_table /\ aiTimer a' = None /\ clock a' = 2500.
Proof.
  eexists.
  destruct (ai_timer_plays_a_card first stale_table 2500 _
              [newCard hearts RK; newCard spades R2] stale_table_quiet
              eq_refl eq_refl eq_refl ltac:(discriminate))
    as (c & a' & H).
  exists c, a'. split; [reflexivity|exact H].
Defined.

(** X16. The AI draws.  When the timeout of the AI effect is the next to
    fire and the [isValidMove] of its render [snap] accepts no card of the
    AI's hand, the callback plays nothing.  On an empty deck it gives the
    turn to the player and moves no card.  On a deck that ends with [x] it
    moves [x] to the end of the AI's hand; if [snap] rejects [x] the turn
    goes to the player at once, and if [snap] accepts [x] the AI keeps the
    turn, the timeout that will play [x] is due a second later, and the
    effect's next timeout half a second after that. *)
Theorem ai_timer_draws :
  forall u a due snap,
    appReach quietRestart a ->
    aiTimer a = Some (due, snap) -> noneBefore due a = true ->
    filterOpt (isValidMoveIn snap) (aiHand (state a)) = Some [] ->
    (deck (state a) = [] ->
     exists a',
       appStep (AiTimerFires u) a = Some a' /\
       deck (state a') = [] /\ playerHand (state a') = playerHand (state a) /\
       aiHand (state a') = aiHand (state a) /\
       discardPile (state a') = discardPile (state a) /\
       turn (state a') = player /\ phase (state a') = playing /\
       timers a' = timers a /\ aiTimer a' = None) /\
    (forall d x,
       deck (state a) = d ++ [x] ->
       exists v a',
         isValidMoveIn snap x = Some v /\
         appStep (AiTimerFires u) a = Some a' /\
         deck (state a') = d /\ aiHand (state a') = aiHand (state a) ++ [x] /\
         playerHand (state a') = playerHand (state a) /\
         discardPile (state a') = discardPile (state a) /\
         phase (state a') = playing /\
         (v = false ->
          turn (state a') = player /\ timers a' = timers a /\
          aiTimer a' = None) /\
         (v = true ->
          turn (state a') = ai /\
          timers a' = timers a ++ [(due + 1000, PlayDrawn snap x 1000)] /\
          aiTimer a' = Some (due + 1500, state a'))).
Proof.
  intros u a due snap Hr Ea N Hf.
  pose proof (appReach_AppOk _ _ Hr) as (HF & _).
  destruct (HF due snap Ea) as (L1 & L2 & _ & _ & La & Ld & Ls & L0 & _).
  rewrite <- La in Hf. split.
  - intros Hd. rewrite <- Ld in Hd. eexists. split.
    { simpl. rewrite Ea, N, (aiCallback_skip u snap _ Hf Hd). reflexivity. }
    cbn [state clock aiTimer timers started]. fields.
    rewrite <- Ld, Hd, app_nil_r. repeat split; auto.
  - intros d x Hd. rewrite <- Ld in Hd.
    destruct (lastOf_Some _ L0) as [top Htop].
    destruct (isValidMoveIn_total snap top x Htop) as [v Hv].
    exists v. destruct v.
    + eexists. split; [exact Hv|]. split.
      { simpl. rewrite Ea, N, (aiCallback_draw u snap _ d x true Hf Hd Hv).
        reflexivity. }
      cbn [state clock aiTimer timers started fst snd delay].
      unfold afterAiDraw; fields.
      repeat (split; [reflexivity || assumption|]).
      split; [discriminate|]. intros _. split; [exact L1|].
      split; [reflexivity|].
      now apply aiEffectTimer_some.
    + eexists. split; [exact Hv|]. split.
      { simpl. rewrite Ea, N, (aiCallback_draw u snap _ d x false Hf Hd Hv).
        reflexivity. }
      cbn [state clock aiTimer timers started fst snd delay].
      unfold afterAiDraw; fields.
      repeat (split; [reflexivity || assumption|]).
      split; [|discriminate]. intros _. split; [reflexivity|].
      split; [apply app_nil_r|]. apply aiEffectTimer_none. now left.
Qed.

Lemma stale_draw_quiet : appReach quietRestart stale_draw.
Proof. apply stale_draw_reachable. exact late_eight_quiet. Qed.

Lemma ai_timer_draws_witness :
  exists snap,
    aiTimer stale_draw = Some (2500, snap) /\
    (deck (state stale_draw) = [] ->
     exists a',
       appStep (AiTimerFires first) stale_draw = Some a' /\
       deck (state a') = [] /\
       playerHand (state a') = playerHand (state stale_draw) /\
       aiHand (state a') = aiHand (state stale_draw) /\
       discardPile (state a') = discardPile (state stale_draw) /\
       turn (state a') = player /\ phase (state a') = playing /\
       timers a' = timers stale_draw /\ aiTimer a' = None) /\
    (forall d x,
       deck (state stale_draw) = d ++ [x] ->
       exists v a',
         isValidMoveIn snap x = Some v /\
         appStep (AiTimerFires first) stale_draw = Some a' /\
         deck (state a') = d /\
         aiHand (state a') = aiHand (state stale_draw) ++ [x] /\
         playerHand (state a') = playerHand (state stale_draw) /\
         discardPile (state a') = discardPile (state stale_draw) /\
         phase (state a') = playing /\
         (v = false ->
          turn (state a') = player /\ timers a' = timers stale_draw /\
          aiTimer a' = None) /\
         (v = true ->
          turn (state a') = ai /\
          timers a'
            = timers stale_draw ++ [(2500 + 1000, PlayDrawn snap x 1000)] /\
          aiTimer a' = Some (2500 + 1500, state a'))).
Proof.
  eexists. split; [reflexivity|].
  apply (ai_timer_draws first stale_draw 2500 _ stale_draw_quiet
           eq_refl eq_refl eq_refl).
Defined.

(** ** The drawn card's timeout *)

Lemma drawn_timer_known a k d snap x ms :
  DrawnOk a -> nth_error (timers a) k = Some (d, PlayDrawn snap x ms) ->
  aiHand (state a) = aiHand snap ++ [x].
Proof.
  intros HP En. apply nth_error_In in En.
  assert (Hin : In (d, PlayDrawn snap x ms) (drawnPending a))
    by (apply filter_In; auto).
  destruct HP as [HP|(d0 & sn & c & ms0 & HP & Hh & _)];
    rewrite HP in Hin; [contradiction|].
  destruct Hin as [Hin|[]]. injection Hin as -> -> -> ->. exact Hh.
Qed.

(** X14. The drawn card is played.  When the timeout started for a drawn
    card [x] fires, in a game not restarted since the draw, [x] is still the
    last card of the AI's hand, behind the hand [aiHand snap] the AI drew
    with.  The callback moves [x] to the top of the discard pile, whatever
    the table has become, and sets the active suit; the deck and the
    player's hand stay.  Its test of the AI's last card reads
    [aiHand snap]: with one card in that hand the game is declared won by
    the AI, which keeps that card; otherwise the player is to move.  No
    timeout of the AI effect is pending afterwards. *)
Theorem drawn_card_is_played :
  forall a k d snap x ms,
    appReach quietRestart a ->
    nth_error (timers a) k = Some (d, PlayDrawn snap x ms) ->
    noneBefore d a = true ->
    exists a',
      appStep (TimerFires k) a = Some a' /\
      aiHand (state a) = aiHand snap ++ [x] /\
      aiHand (state a') = aiHand snap /\
      discardPile (state a') = discardPile (state a) ++ [x] /\
      deck (state a') = deck (state a) /\
      playerHand (state a') = playerHand (state a) /\
      currentSuit (state a')
        = Some (if rank_eqb (rank x) R8 then bestSuit (aiHand snap) x
                else suit x) /\
      (length (aiHand snap) = 1 ->
       phase (state a') = gameOver /\ message (state a') = MsgAiWins /\
       length (aiHand (state a')) = 1) /\
      (length (aiHand snap) <> 1 ->
       turn (state a') = player /\ phase (state a') = phase (state a)) /\
      aiTimer a' = None /\ clock a' = d.
Proof.
  intros a k d snap x ms Hr En N.
  apply appReach_Sound in Hr as [HI HP].
  pose proof (drawn_timer_known a k d snap x ms HP En) as Hh.
  destruct (playCard_ai_containers snap x (state a)) as (C1 & C2 & C3 & C4).
  destruct (playCard_ai_rest snap x (state a)) as (R1 & R2 & _ & _ & R5).
  pose proof (playCard_ai_suit snap x (state a)) as Hsuit.
  assert (Hfresh : ~ In (id x) (map id (aiHand snap))).
  { pose proof (Inv_ai_ids _ HI) as Hnd. rewrite Hh, map_app in Hnd.
    simpl in Hnd. apply NoDup_remove_2 in Hnd. now rewrite app_nil_r in Hnd. }
  assert (Hleft : aiHand (playCard snap x false (state a)) = aiHand snap).
  { rewrite C3, Hh. now apply removeById_drawn. }
  eexists. split.
  { simpl. rewrite En, N. reflexivity. }
  cbn [state clock aiTimer timers fire].
  split; [exact Hh|]. split; [exact Hleft|]. split; [exact C4|].
  split; [exact C1|]. split; [exact C2|]. split; [exact Hsuit|].
  split.
  { intros H1. rewrite Hleft. apply Nat.eqb_eq in H1. rewrite H1 in R1.
    split; [exact R1|]. split; [now apply R5|]. now apply Nat.eqb_eq. }
  split.
  { intros H1. apply Nat.eqb_neq in H1. rewrite H1 in R1, R2. auto. }
  split; [|reflexivity].
  apply aiEffectTimer_none.
  destruct (length (aiHand snap) =? 1); auto.
Qed.

Lemma king_drawn_quiet : appReach quietRestart king_drawn.
Proof.
  apply (appRun_reach quietRestart [AiTimerFires first] stale_draw).
  - intros e b [<-|[]]. exact I.
  - exact stale_draw_quiet.
  - vm_compute. reflexivity.
Qed.

Lemma drawn_card_is_played_witness :
  exists snap a',
    nth_error (timers king_drawn) 0
      = Some (3500, PlayDrawn snap (newCard hearts RK) 1000) /\
    appStep (TimerFires 0) king_drawn = Some a' /\
    aiHand (state king_drawn) = aiHand snap ++ [newCard hearts RK] /\
    aiHand (state a') = aiHand snap /\
    discardPile (state a')
      = discardPile (state king_drawn) ++ [newCard hearts RK] /\
    deck (state a') = deck (state king_drawn) /\
    playerHand (state a') = playerHand (state king_drawn) /\
    currentSuit (state a')
      = Some (if rank_eqb (rank (newCard hearts RK)) R8
              then bestSuit (aiHand snap) (newCard hearts RK)
              else suit (newCard hearts RK)) /\
    (length (aiHand snap) = 1 ->
     phase (state a') = gameOver /\ message (state a') = MsgAiWins /\
     length (aiHand (state a')) = 1) /\
    (length (aiHand snap) <> 1 ->
     turn (state a') = player /\
     phase (state a') = phase (state king_drawn)) /\
    aiTimer a' = None /\ clock a' = 3500.
Proof.
  eexists.
  destruct (drawn_card_is_played king_drawn 0 3500 _ (newCard hearts RK) 1000
              king_drawn_quiet eq_refl eq_refl) as (a' & H).
  exists a'. split; [reflexivity|exact H].
Defined.

(** ** A page nobody can move on *)

Lemma filterOpt_ext {A} (f g : A -> option bool) l :
  (forall x, f x = g x) -> filterOpt f l = filterOpt g l.
Proof.
  intros H. induction l as [|h t IH]; simpl; [reflexivity|].
  now rewrite H, IH.
Qed.

Lemma handleDraw_empty s :
  deck s = [] ->
  handleDraw s = Some (s, None) \/
  handleDraw s = Some (set_message MsgDeckEmptySkip s, Some (SetTurnAi 1500)).
Proof.
  intros Hd. unfold handleDraw. rewrite Hd.
  destruct (_ || _ || _); auto.
Qed.

Lemma cardClick_illegal c s :
  isValidMoveIn s c = Some false -> cardClick c s = Some s.
Proof.
  intros Hv. unfold cardClick, isPlayable. rewrite Hv.
  destruct (turn_eqb (turn s) player && phase_eqb (phase s) playing);
    reflexivity.
Qed.

Lemma aiEffectTimer_origin now renewed old s s' due snap :
  aiEffectTimer now renewed old s s' = Some (due, snap) ->
  snap = s' \/ old = Some (due, snap).
Proof.
  intros E. apply aiEffectTimer_cases in E as [(-> & _)|(_ & _ & E)]; auto.
Qed.

Lemma seesTable_refl s : seesTable s s.
Proof. unfold seesTable. auto. Qed.

Lemma seesTable_kept snap s s' :
  aiHand s' = aiHand s -> deck s' = deck s ->
  currentSuit s' = currentSuit s -> discardPile s' = discardPile s ->
  seesTable snap s -> seesTable snap s'.
Proof. unfold seesTable. intros -> -> -> ->. auto. Qed.

Lemma appStep_Deadlock e a a' :
  Deadlock a -> restarts e = false -> appStep e a = Some a' ->
  Deadlock a' /\
  playerHand (state a') = playerHand (state a) /\
  aiHand (state a') = aiHand (state a) /\
  discardPile (state a') = discardPile (state a) /\
  currentSuit (state a') = currentSuit (state a).
Proof.
  intros (HS & HP & HT) Hre.
  pose proof HS as (Sp & Ss & Spe & Sd & Sph & Sah).
  destruct e as [dt act|k|u]; simpl.
  - destruct (noneBefore (clock a + dt) a); [|discriminate].
    assert (Hh : handle act (state a) = None \/
                 handle act (state a) = Some (state a, None) \/
                 handle act (state a)
                   = Some (set_message MsgDeckEmptySkip (state a),
                           Some (SetTurnAi 1500))).
    { destruct act as [|i|chosen|rnd]; simpl; try discriminate Hre.
      - right. now apply handleDraw_empty.
      - destruct (nth_error (playerHand (state a)) i) as [c|] eqn:En;
          [|now left].
        apply nth_error_In in En.
        rewrite (cardClick_illegal c _ (filterOpt_nil_In _ _ c Sph En)).
        right. now left.
      - right. left. unfold handleSuitPick. now rewrite Spe. }
    destruct Hh as [->|[->| ->]]; [discriminate| |];
      intros H; apply Some_eq in H; subst a'; simpl.
    + split; [|auto]. split; [exact HS|]. split.
      { unfold drawnPending in *. simpl. now rewrite app_nil_r. }
      simpl. intros due snap E.
      apply aiEffectTimer_origin in E as [->|E];
        [apply seesTable_refl|eauto].
    + split; [|auto]. split; [now apply (Stalemate_kept (state a))|]. split.
      { unfold drawnPending in *. simpl. rewrite filter_app, HP.
        reflexivity. }
      simpl. intros due snap E.
      apply aiEffectTimer_origin in E as [->|E];
        [apply seesTable_refl|].
      apply (seesTable_kept snap (state a)); eauto.
  - destruct (nth_error (timers a) k) as [[due0 t]|] eqn:En; [|discriminate].
    destruct (noneBefore due0 a); [|discriminate].
    intros H. apply Some_eq in H. subst a'.
    destruct (filter_dropNth (fun p => isPlayDrawn (snd p)) _ _ _ En)
      as [Dset _].
    destruct t as [ms0|sn0 c0 ms0].
    2:{ exfalso. apply nth_error_In in En.
        assert (Hin : In (due0, PlayDrawn sn0 c0 ms0) (drawnPending a))
          by (apply filter_In; auto).
        rewrite HP in Hin. contradiction. }
    cbn [state fire]. split; [|auto].
    split; [now apply (Stalemate_kept (state a))|]. split.
    { unfold drawnPending in *. simpl. now rewrite (Dset eq_refl). }
    simpl. intros due snap E.
    apply aiEffectTimer_origin in E as [->|E]; [apply seesTable_refl|].
    apply (seesTable_kept snap (state a)); eauto.
  - destruct (aiTimer a) as [[due0 snap]|] eqn:Ea; [|discriminate].
    destruct (noneBefore due0 a); [|discriminate].
    destruct (HT due0 snap eq_refl) as (Ta & Td & Ts & Tq).
    assert (Hf : filterOpt (isValidMoveIn snap) (aiHand snap) = Some []).
    { rewrite Ta, <- Sah. apply filterOpt_ext. intros x.
      now apply isValidMoveIn_same. }
    rewrite (aiCallback_skip u snap (state a) Hf) by congruence.
    intros H. apply Some_eq in H. subst a'. cbn [state]. split; [|auto].
    split; [now apply (Stalemate_kept (state a))|]. split.
    { unfold drawnPending in *. simpl. now rewrite app_nil_r. }
    simpl. intros due sn E.
    rewrite aiEffectTimer_none in E by now left. discriminate.
Qed.

(** X20. A page nobody can move on stays as it is.  With the deck empty, no
    legal card in either hand, no drawn card waiting to be played and the
    AI's timeout seeing the current table, whatever clicks and timeouts
    follow, short of a restart, the hands, the discard pile and the active
    suit stay as they are and the phase stays at playing: a draw and the
    AI's timeout only pass the turn, and the discard pile is never turned
    into a new deck. *)
Theorem deadlock_lasts :
  forall es a a',
    Deadlock a -> forallb (fun e => negb (restarts e)) es = true ->
    appRun es a = Some a' ->
    Deadlock a' /\ phase (state a') = playing /\ deck (state a') = [] /\
    playerHand (state a') = playerHand (state a) /\
    aiHand (state a') = aiHand (state a) /\
    discardPile (state a') = discardPile (state a) /\
    currentSuit (state a') = currentSuit (state a).
Proof.
  induction es as [|e es IH]; simpl; intros a a' HD Hes H.
  - apply Some_eq in H. subst a'. split; [exact HD|].
    destruct HD as ((Sp & _ & _ & Sd & _) & _). repeat split; auto.
  - destruct (appStep e a) as [a1|] eqn:E; [|discriminate].
    apply andb_prop in Hes as [He Hes]. apply negb_true_iff in He.
    destruct (appStep_Deadlock e a a1 HD He E) as (HD1 & E1 & E2 & E3 & E4).
    destruct (IH a1 a' HD1 Hes H) as (HD' & Hp & Hd & F1 & F2 & F3 & F4).
    split; [exact HD'|]. repeat split; congruence.
Qed.

Lemma deadlock_lasts_witness :
  exists a',
    appRun [AiTimerFires first; User 100 DrawPile; User 200 (HandCard 0);
            TimerFires 0; AiTimerFires first] stuck_page = Some a' /\
    Deadlock a' /\ phase (state a') = playing /\ deck (state a') = [] /\
    playerHand (state a') = playerHand (state stuck_page) /\
    aiHand (state a') = aiHand (state stuck_page) /\
    discardPile (state a') = discardPile (state stuck_page) /\
    currentSuit (state a') = currentSuit (state stuck_page).
Proof.
  eexists. split; [vm_compute; reflexivity|].
  apply (deadlock_lasts
           [AiTimerFires first; User 100 DrawPile; User 200 (HandCard 0);
            TimerFires 0; AiTimerFires first] stuck_page).
  - split; [repeat split|]. split; [reflexivity|].
    intros due snap E. injection E as _ <-. apply seesTable_refl.
  - reflexivity.
  - vm_compute. reflexivity.
Defined.

(** ** After the game *)

Lemma handleDraw_not_playing s :
  phase s <> playing -> handleDraw s = Some (s, None).
Proof.
  intros Hp. unfold handleDraw.
  destruct (phase_eqb (phase s) playing) eqn:E.
  - apply phase_eqb_eq in E. contradiction.
  - simpl. now rewrite orb_true_r.
Qed.

Lemma cardClick_not_playing c s :
  phase s <> playing -> cardClick c s = Some s.
Proof.
  intros Hp. unfold cardClick, isPlayable.
  destruct (phase_eqb (phase s) playing) eqn:E.
  - apply phase_eqb_eq in E. contradiction.
  - now rewrite andb_false_r.
Qed.

Lemma handleSuitPick_over chosen s :
  phase s = gameOver ->
  phase (handleSuitPick chosen s) = gameOver /\
  deck (handleSuitPick chosen s) = deck s.
Proof.
  intros Hp. destruct (pendingEightCard s) as [c|] eqn:E.
  - destruct (handleSuitPick_fields chosen c s E)
      as (F1 & _ & _ & _ & _ & F6 & _).
    split; [|exact F1]. rewrite F6, Hp. now destruct (_ =? _).
  - unfold handleSuitPick. rewrite E. auto.
Qed.

(** X5. After the game.  Once the phase is gameOver it stays gameOver until
    the game is restarted, the deck is not touched any more, and the AI
    effect has no timeout pending; a click on the draw pile or on a card
    changes nothing.  What can still move a card is a suit pick for an eight
    that was pending when the game ended, or the timeout of a card the AI
    had drawn. *)
Theorem game_over_until_restart :
  forall e a a',
    appReach anyEvent a -> phase (state a) = gameOver ->
    restarts e = false -> appStep e a = Some a' ->
    phase (state a') = gameOver /\ deck (state a') = deck (state a) /\
    aiTimer a = None /\ aiTimer a' = None /\
    (forall dt, e = User dt DrawPile -> state a' = state a) /\
    (forall dt i, e = User dt (HandCard i) -> state a' = state a).
Proof.
  intros e a a' Hr Hp Hre Hstep.
  pose proof (appReach_AppOk _ _ Hr) as HOk.
  pose proof (appStep_AppOk e a a' HOk Hstep) as (HF' & _).
  destruct HOk as (HF & _).
  assert (Hnp : phase (state a) <> playing) by (rewrite Hp; discriminate).
  assert (Hnone : forall b, Fresh b -> phase (state b) = gameOver ->
                            aiTimer b = None).
  { intros b Hb Hpb. destruct (aiTimer b) as [[due snap]|] eqn:E;
      [|reflexivity].
    destruct (Hb due snap E) as (_ & L2 & _). congruence. }
  assert (Main : phase (state a') = gameOver /\
                 deck (state a') = deck (state a) /\
                 (forall dt, e = User dt DrawPile -> state a' = state a) /\
                 (forall dt i, e = User dt (HandCard i) ->
                               state a' = state a)).
  { revert Hstep. destruct e as [dt act|k|u]; simpl.
    - destruct (noneBefore (clock a + dt) a); [|discriminate].
      destruct act as [|i|chosen|rnd]; simpl; try discriminate Hre.
      + rewrite (handleDraw_not_playing _ Hnp).
        intros H. apply Some_eq in H. subst a'. simpl. auto.
      + destruct (nth_error (playerHand (state a)) i) as [c|];
          [|discriminate].
        rewrite (cardClick_not_playing c _ Hnp). simpl.
        intros H. apply Some_eq in H. subst a'. simpl. auto.
      + intros H. apply Some_eq in H. subst a'. simpl.
        destruct (handleSuitPick_over chosen _ Hp) as [E1 E2].
        repeat split; auto; discriminate.
    - destruct (nth_error (timers a) k) as [[due0 t]|]; [|discriminate].
      destruct (noneBefore due0 a); [|discriminate].
      intros H. apply Some_eq in H. subst a'. cbn [state].
      destruct (fire_keeps t (state a)) as (_ & _ & _ & E2).
      split; [|split; [exact E2|split; discriminate]].
      destruct t as [ms|snap c ms]; cbn [fire]; [exact Hp|].
      destruct (playCard_ai_rest snap c (state a)) as (R1 & _).
      rewrite R1, Hp. now destruct (_ =? _).
    - rewrite (Hnone a HF Hp). discriminate. }
  destruct Main as (M1 & M2 & M3 & M4).
  split; [exact M1|]. split; [exact M2|].
  split; [now apply Hnone|]. split; [now apply Hnone|]. auto.
Qed.

Lemma stale_win_page_reachable : appReach anyEvent stale_win_page.
Proof.
  apply (appRun_reach anyEvent stale_win_events (mount dealt)).
  - intros; exact I.
  - apply mount_dealt_reachable.
  - vm_compute. reflexivity.
Qed.

Lemma game_over_until_restart_witness :
  exists a',
    appStep (User 100 DrawPile) stale_win_page = Some a' /\
    phase (state a') = gameOver /\
    deck (state a') = deck (state stale_win_page) /\
    aiTimer stale_win_page = None /\ aiTimer a' = None /\
    (forall dt, User 100 DrawPile = User dt DrawPile ->
                state a' = state stale_win_page) /\
    (forall dt i, User 100 DrawPile = User dt (HandCard i) ->
                  state a' = state stale_win_page).
Proof.
  eexists. split; [vm_compute; reflexivity|].
  apply (game_over_until_restart (User 100 DrawPile) stale_win_page).
  - exact stale_win_page_reachable.
  - reflexivity.
  - reflexivity.
  - vm_compute. reflexivity.
Defined.

(** ** The operations are runs of the page *)

Lemma playCard_ai_snap snap snap' c cur :
  aiHand snap = aiHand snap' ->
  playCard snap c false cur = playCard snap' c false cur.
Proof. intros E. unfold playCard. now rewrite E. Qed.

(** With a render that sees the current table, the AI callback is the AI
    effect of the operations. *)
Lemma aiEffect_callback u s :
  turn s = ai -> phase s = playing -> aiEffect u s = aiCallback u s s.
Proof.
  intros Ht Hp. unfold aiEffect, aiCallback.
  now rewrite (ai_guard_open s Ht Hp).
Qed.

Lemma aiEffect_idle u s :
  turn s <> ai \/ phase s <> playing -> aiEffect u s = Some (s, None).
Proof.
  intros H. unfold aiEffect.
  destruct (turn_eqb (turn s) ai) eqn:Et; [|reflexivity].
  destruct (phase_eqb (phase s) playing) eqn:Ep; [|reflexivity].
  apply turn_eqb_eq in Et. apply phase_eqb_eq in Ep. tauto.
Qed.

Lemma aiCallback_seesTable u snap s s' t0 :
  seesTable snap s -> aiCallback u s s = Some (s', t0) ->
  (t0 = None /\ aiCallback u snap s = Some (s', None)) \/
  (exists x, t0 = Some (PlayDrawn s x 1000) /\
             aiCallback u snap s = Some (s', Some (PlayDrawn snap x 1000))).
Proof.
  intros (Ta & Td & Ts & Tq). unfold aiCallback.
  rewrite Ta, Td.
  rewrite (filterOpt_ext (isValidMoveIn snap) (isValidMoveIn s))
    by (intros x; now apply isValidMoveIn_same).
  destruct (filterOpt _ _) as [pl|]; [|discriminate].
  destruct (0 <? length pl).
  { destruct (cardToPlay u pl) as [c|]; [|discriminate].
    intros H. apply Some_pair_eq in H as [<- <-]. left.
    now rewrite (playCard_ai_snap snap s c s Ta). }
  destruct (0 <? length (deck s)).
  2:{ intros H. apply Some_pair_eq in H as [<- <-]. now left. }
  destruct (pop (deck s)) as [[nd x]|]; [|discriminate].
  rewrite (isValidMoveIn_same snap s x Ts Tq).
  destruct (isValidMoveIn s x) as [[|]|]; intros H; try discriminate;
    apply Some_pair_eq in H as [<- <-]; [right; eauto|now left].
Qed.

Lemma DuesOk_now a : DuesOk a -> noneBefore (clock a + 0) a = true.
Proof.
  intros H. unfold noneBefore. rewrite Nat.add_0_r. apply forallb_forall.
  intros d Hd. apply Nat.leb_le. unfold DuesOk in H.
  rewrite Forall_forall in H. now apply H.
Qed.

Lemma handleDraw_timer s s' t :
  handleDraw s = Some (s', Some t) -> turn s = player.
Proof.
  unfold handleDraw.
  destruct (turn_eqb (turn s) player) eqn:E; [|discriminate].
  intros _. now apply turn_eqb_eq.
Qed.

(** The page in step with the operations: no handler timeout is pending and
    the render of the AI effect's timeout sees the current table. *)
Lemma bridge_user act a s' t :
  AppOk a -> Live (state a) -> timers a = [] ->
  (forall due snap, aiTimer a = Some (due, snap) -> seesTable snap (state a)) ->
  handle act (state a) = Some (s', t) -> isRestart act = false ->
  exists a1,
    appStep (User 0 act) a = Some a1 /\ state a1 = s' /\
    timers a1 = started (clock a + 0) t /\
    (forall due snap, aiTimer a1 = Some (due, snap) -> seesTable snap s').
Proof.
  intros HOk HL Hts Hsee Hh Hr. pose proof HOk as (HF & _ & HD & _).
  eexists. split.
  { simpl. rewrite (DuesOk_now a HD), Hh. reflexivity. }
  cbn [state timers aiTimer]. rewrite Hts. split; [reflexivity|].
  split; [reflexivity|].
  intros due snap E. rewrite Hr in E.
  apply aiEffectTimer_cases in E
    as [(-> & _)|(_ & _ & E)]; [apply seesTable_refl|].
  destruct (HF due snap E) as (Ht & _).
  destruct (human_during_ai_turn act _ _ _ Ht Hh Hr)
    as (_ & [->|(c & chosen & Hpe & _)]); [eauto|].
  destruct HL as (_ & _ & HL). destruct (HL c Hpe) as [Hp _]. congruence.
Qed.

Lemma bridge_fire a due t :
  timers a = [(due, t)] ->
  (forall d sn, aiTimer a = Some (d, sn) -> due <= d) ->
  exists a2,
    appStep (TimerFires 0) a = Some a2 /\ state a2 = fire t (state a) /\
    timers a2 = [] /\
    (forall d snap, aiTimer a2 = Some (d, snap) ->
       snap = fire t (state a) \/
       (isPlayDrawn t = false /\ aiTimer a = Some (d, snap))).
Proof.
  intros Hts Hai.
  assert (N : noneBefore due a = true).
  { unfold noneBefore, dues. rewrite Hts. apply forallb_forall.
    intros d Hd. apply Nat.leb_le. apply in_app_or in Hd as [Hd|Hd].
    - destruct (aiTimer a) as [[d0 sn]|] eqn:E; [|contradiction].
      destruct Hd as [<-|[]]. eauto.
    - destruct Hd as [<-|[]]. simpl. lia. }
  eexists. split.
  { simpl. rewrite Hts. simpl. rewrite N. reflexivity. }
  cbn [state timers aiTimer]. split; [reflexivity|].
  split; [reflexivity|].
  intros d snap E. apply aiEffectTimer_cases in E
    as [(-> & _)|(Hr & _ & E)]; auto.
Qed.


Lemma bridge_step e s s1 a :
  Live s -> appReach noRestart a -> state a = s -> timers a = [] ->
  (forall due snap, aiTimer a = Some (due, snap) -> seesTable snap s) ->
  step e s = Some s1 ->
  exists a',
    appReach noRestart a' /\ state a' = s1 /\ timers a' = [] /\
    (forall due snap, aiTimer a' = Some (due, snap) -> seesTable snap s1).
Proof.
  intros HL Hr Hs Hts Hsee Hstep. subst s.
  pose proof (appReach_AppOk _ _ Hr) as HOk.
  assert (User1 : forall act s' ,
            handle act (state a) = Some (s', None) -> isRestart act = false ->
            exists a',
              appReach noRestart a' /\ state a' = s' /\ timers a' = [] /\
              (forall due snap, aiTimer a' = Some (due, snap) ->
                                seesTable snap s')).
  { intros act s' Hh Ha.
    destruct (bridge_user act a s' None HOk HL Hts Hsee Hh Ha)
      as (a1 & E1 & E2 & E3 & E4).
    exists a1. split; [|auto].
    apply (reach_event noRestart (User 0 act) a); auto.
    destruct act; try exact I. discriminate. }
  destruct e as [|i|chosen|u]; simpl in Hstep.
  - unfold playerDraw in Hstep.
    destruct (handleDraw (state a)) as [[s' t]|] eqn:Eh; [|discriminate].
    simpl in Hstep. apply Some_eq in Hstep. subst s1.
    destruct t as [t|]; [|now apply (User1 DrawPile)].
    pose proof (handleDraw_timer _ _ _ Eh) as Htp.
    pose proof (handleDraw_keeps _ _ _ Eh)
      as (_ & _ & _ & _ & _ & Ht' & _ & Hform).
    destruct Hform as [Hn|[ms Hm]]; [discriminate|].
    apply Some_eq in Hm. subst t.
    destruct (bridge_user DrawPile a s' _ HOk HL Hts Hsee Eh eq_refl)
      as (a1 & E1 & E2 & E3 & E4).
    assert (Hr1 : appReach noRestart a1)
      by (apply (reach_event noRestart (User 0 DrawPile) a); auto; exact I).
    pose proof (appReach_AppOk _ _ Hr1) as (HF1 & _).
    assert (Hnone : aiTimer a1 = None).
    { destruct (aiTimer a1) as [[d sn]|] eqn:E; [|reflexivity].
      destruct (HF1 d sn E) as (L1 & _). congruence. }
    destruct (bridge_fire a1 _ (SetTurnAi ms) E3) as (a2 & F1 & F2 & F3 & F4).
    { intros d sn E. congruence. }
    exists a2. split.
    { apply (reach_event noRestart (TimerFires 0) a1); auto. exact I. }
    unfold settle. cbn [snd fst]. rewrite F2, E2.
    split; [reflexivity|]. split; [exact F3|].
    intros d snap E. destruct (F4 d snap E) as [->|[_ E']].
    + rewrite E2. apply seesTable_refl.
    + congruence.
  - destruct (nth_error (playerHand (state a)) i) as [c|] eqn:En;
      [|discriminate].
    apply (User1 (HandCard i)); [|reflexivity].
    simpl. now rewrite En, Hstep.
  - apply Some_eq in Hstep. subst s1.
    now apply (User1 (PickSuit chosen)).
  - unfold aiTurn in Hstep.
    destruct (aiEffect u (state a)) as [[s' t0]|] eqn:Ee; [|discriminate].
    simpl in Hstep. apply Some_eq in Hstep. subst s1.
    destruct (turn_eqb (turn (state a)) ai && phase_eqb (phase (state a)) playing)
      eqn:G.
    2:{ rewrite aiEffect_idle in Ee.
        - apply Some_pair_eq in Ee as [<- <-]. exists a.
          unfold settle. simpl. auto.
        - apply andb_false_iff in G as [G|G]; [left|right]; intros E;
            rewrite E in G; discriminate. }
    apply andb_prop in G as [Gt Gp].
    apply turn_eqb_eq in Gt. apply phase_eqb_eq in Gp.
    rewrite (aiEffect_callback u _ Gt Gp) in Ee.
    destruct HOk as (HF & _ & HD & HA & _).
    destruct (aiTimer a) as [[due snap]|] eqn:Ea;
      [|now destruct (HA Gt Gp)].
    pose proof (Hsee due snap eq_refl) as Hsees.
    assert (N : noneBefore due a = true).
    { unfold noneBefore, dues. rewrite Ea, Hts. simpl.
      now rewrite Nat.leb_refl. }
    destruct (aiCallback_seesTable u snap _ _ _ Hsees Ee)
      as [[-> Ec]|(x & -> & Ec)].
    + eexists. split.
      { apply (reach_event noRestart (AiTimerFires u) a); [exact Hr|exact I|].
        simpl. rewrite Ea, N, Ec. reflexivity. }
      cbn [state timers aiTimer started]. rewrite Hts.
      split; [reflexivity|]. split; [reflexivity|].
      intros d sn E. apply aiEffectTimer_origin in E as [->|E];
        [apply seesTable_refl|discriminate].
    + pose (a1 := mkApp s' due (aiEffectTimer due true None (state a) s')
                    (timers a ++ started due (Some (PlayDrawn snap x 1000)))).
      assert (Hr1 : appReach noRestart a1).
      { apply (reach_event noRestart (AiTimerFires u) a); [exact Hr|exact I|].
        simpl. rewrite Ea, N, Ec. reflexivity. }
      destruct (bridge_fire a1 (due + 1000) (PlayDrawn snap x 1000))
        as (a2 & F1 & F2 & F3 & F4).
      { unfold a1. simpl. now rewrite Hts. }
      { unfold a1. simpl. intros d sn E. apply aiEffectTimer_cases in E
          as [(_ & -> & _)|(D & _)]; [lia|discriminate]. }
      exists a2. split.
      { apply (reach_event noRestart (TimerFires 0) a1 a2 Hr1); [exact I|].
        exact F1. }
      unfold settle. cbn [snd fst fire]. unfold a1 in F2. cbn [state fire] in F2.
      rewrite F2.
      destruct Hsees as (Ta & _).
      split; [now apply playCard_ai_snap|]. split; [exact F3|].
      intros d sn E. destruct (F4 d sn E) as [->|[D _]]; [|discriminate].
      unfold a1. cbn [state fire].
      rewrite (playCard_ai_snap snap (state a) x s' Ta).
      apply seesTable_refl.
Qed.

(** X23. The operations are runs of the page.  Every state of a game played
    operation by operation, each handler together with the timeout it
    starts, is a state of the page, reached without a restart, the human
    acting as soon as each timeout has fired. *)
Theorem operations_are_page_runs :
  forall s,
    reachable s ->
    exists a, appReach noRestart a /\ state a = s /\ timers a = [].
Proof.
  intros s Hr.
  assert (H : exists a,
             appReach noRestart a /\ state a = s /\ timers a = [] /\
             (forall due snap, aiTimer a = Some (due, snap) ->
                               seesTable snap s)).
  { induction Hr as [rnd s H|e s s' Hr IH H].
    - exists (mount s). split; [now apply (reach_mount noRestart rnd)|].
      split; [reflexivity|]. split; [reflexivity|].
      intros due snap E. discriminate E.
    - destruct IH as (a & Ha & Es & Et & Hsee).
      apply (bridge_step e s s' a); auto. now apply reachable_Live. }
  destruct H as (a & Ha & Es & Et & _). eauto.
Qed.

Lemma operations_are_page_runs_witness :
  exists a, appReach noRestart a /\ state a = stale_win /\ timers a = [].
Proof. apply (operations_are_page_runs stale_win). exact stale_win_reachable. Defined.

(** ** The human's draw on the page *)

Lemma Fresh_player a :
  Fresh a -> turn (state a) = player -> aiTimer a = None.
Proof.
  intros HF Ht. destruct (aiTimer a) as [[d sn]|] eqn:E; [|reflexivity].
  destruct (HF d sn E) as (L1 & _). congruence.
Qed.

Lemma snoc_cases {A} (l : list A) : l = [] \/ exists d x, l = d ++ [x].
Proof.
  induction l as [|x l _] using rev_ind; [now left|right; eauto].
Qed.

(** X25. The human's draw on the page.  A click on the draw pile, when the
    player is to move with the picker closed, leaves the turn with the
    player: the AI's hand, the discard pile and the active suit stay, and
    the AI effect starts nothing.  On an empty deck no card moves and the
    timeout that passes the turn is due 1500 ms later.  Otherwise the last
    card [x] of the deck goes to the end of the player's hand, and the
    timeout that passes the turn, due 1000 ms later, is started exactly when
    [isValidMove] rejects [x].  Until that timeout fires the player is still
    to move.  When it fires the turn is the AI's, nothing else changes, and
    in a running game the timeout of the AI effect is pending. *)
Theorem human_draw_on_the_page :
  (forall dt a,
     appReach anyEvent a ->
     turn (state a) = player -> phase (state a) = playing ->
     showSuitPicker (state a) = false ->
     noneBefore (clock a + dt) a = true ->
     exists a',
       appStep (User dt DrawPile) a = Some a' /\
       turn (state a') = player /\ phase (state a') = playing /\
       aiHand (state a') = aiHand (state a) /\
       discardPile (state a') = discardPile (state a) /\
       currentSuit (state a') = currentSuit (state a) /\
       aiTimer a' = None /\
       (deck (state a) = [] ->
        deck (state a') = [] /\
        playerHand (state a') = playerHand (state a) /\
        timers a' = timers a ++ [(clock a + dt + 1500, SetTurnAi 1500)]) /\
       (forall d x,
          deck (state a) = d ++ [x] ->
          deck (state a') = d /\
          playerHand (state a') = playerHand (state a) ++ [x] /\
          exists v,
            isValidMoveIn (state a) x = Some v /\
            timers a'
              = timers a ++
                (if v then []
                 else [(clock a + dt + 1000, SetTurnAi 1000)]))) /\
  (forall a k due ms,
     appReach anyEvent a ->
     nth_error (timers a) k = Some (due, SetTurnAi ms) ->
     noneBefore due a = true ->
     exists a',
       appStep (TimerFires k) a = Some a' /\
       state a' = set_turn ai (state a) /\
       timers a' = dropNth k (timers a) /\
       (phase (state a) = playing -> aiTimer a' <> None)).
Proof.
  split.
  - intros dt a Hr Ht Hp Hs N.
    pose proof (appReach_AppOk _ _ Hr) as HOk.
    destruct HOk as (HF & _ & _ & _ & Hlaid).
    destruct (lastOf_Some _ Hlaid) as [top Htop].
    assert (Hstep : exists s' t, handleDraw (state a) = Some (s', t)).
    { destruct (snoc_cases (deck (state a))) as [Ed|(l & x & Ed)].
      - rewrite (playerDraw_empty _ Ht Hp Hs Ed). eauto.
      - destruct (isValidMoveIn_total (state a) top x Htop) as [v Hv].
        rewrite (playerDraw_card _ l x v Ht Hp Hs Ed Hv). eauto. }
    destruct Hstep as (s' & t & Eh).
    pose proof (handleDraw_keeps _ _ _ Eh)
      as (_ & _ & K3 & K4 & K5 & K6 & K7 & _).
    assert (Estep : appStep (User dt DrawPile) a
                    = Some (mkApp s' (clock a + dt)
                              (aiEffectTimer (clock a + dt) false (aiTimer a)
                                 (state a) s')
                              (timers a ++ started (clock a + dt) t))).
    { simpl. now rewrite N, Eh. }
    eexists. split; [exact Estep|].
    cbn [state timers aiTimer].
    split; [congruence|]. split; [congruence|].
    split; [exact K3|]. split; [exact K4|]. split; [exact K5|].
    split.
    { apply (Fresh_player (mkApp s' (clock a + dt)
                             (aiEffectTimer (clock a + dt) false (aiTimer a)
                                (state a) s')
                             (timers a ++ started (clock a + dt) t))).
      - pose proof (reach_event anyEvent _ _ _ Hr I Estep) as Hr'.
        now apply appReach_AppOk in Hr' as (HF' & _).
      - simpl. congruence. }
    split.
    + intros Ed. rewrite (playerDraw_empty _ Ht Hp Hs Ed) in Eh.
      apply Some_pair_eq in Eh as [<- <-]. fields.
      split; [exact Ed|]. split; reflexivity.
    + intros d x Ed.
      destruct (isValidMoveIn_total (state a) top x Htop) as [v Hv].
      rewrite (playerDraw_card _ d x v Ht Hp Hs Ed Hv) in Eh.
      apply Some_pair_eq in Eh as [<- <-]. fields.
      split; [reflexivity|]. split; [reflexivity|].
      exists v. split; [exact Hv|]. now destruct v.
  - intros a k due ms Hr En N.
    assert (Estep : appStep (TimerFires k) a
                    = Some (mkApp (set_turn ai (state a)) due
                              (aiEffectTimer due false (aiTimer a) (state a)
                                 (set_turn ai (state a)))
                              (dropNth k (timers a)))).
    { simpl. now rewrite En, N. }
    eexists. split; [exact Estep|].
    cbn [state timers aiTimer].
    split; [reflexivity|]. split; [reflexivity|].
    intros Hp.
    pose proof (reach_event anyEvent _ _ _ Hr I Estep) as Hr'.
    apply appReach_AppOk in Hr' as (_ & _ & _ & HA & _).
    apply HA; [reflexivity|exact Hp].
Qed.

Lemma human_draw_on_the_page_witness :
  exists a',
    appStep (User 0 DrawPile) (mount dealt_spade) = Some a' /\
    turn (state a') = player /\ phase (state a') = playing /\
    aiHand (state a') = aiHand (state (mount dealt_spade)) /\
    discardPile (state a') = discardPile (state (mount dealt_spade)) /\
    currentSuit (state a') = currentSuit (state (mount dealt_spade)) /\
    aiTimer a' = None /\
    (deck (state (mount dealt_spade)) = [] ->
     deck (state a') = [] /\
     playerHand (state a') = playerHand (state (mount dealt_spade)) /\
     timers a'
       = timers (mount dealt_spade)
         ++ [(clock (mount dealt_spade) + 0 + 1500, SetTurnAi 1500)]) /\
    (forall d x,
       deck (state (mount dealt_spade)) = d ++ [x] ->
       deck (state a') = d /\
       playerHand (state a') = playerHand (state (mount dealt_spade)) ++ [x] /\
       exists v,
         isValidMoveIn (state (mount dealt_spade)) x = Some v /\
         timers a'
           = timers (mount dealt_spade) ++
             (if v then []
              else [(clock (mount dealt_spade) + 0 + 1000, SetTurnAi 1000)])).
Proof.
  destruct human_draw_on_the_page as [H _].
  apply (H 0 (mount dealt_spade)); try reflexivity.
  apply (reach_mount anyEvent (pickAt 50 16 (pickAt 40 15 rnd_id))).
  vm_compute. reflexivity.
Defined.

(** ** Every candidate can be chosen *)

(** X26. No candidate is left out.  When the timeout of the AI effect is the
    next to fire, every card of the AI's hand that is not an eight and that
    the [isValidMove] of the timeout's render accepts is the card played for
    some value of [Math.random()]: it then leaves the AI's hand for the top
    of the discard pile. *)
Theorem every_candidate_can_be_played :
  forall a due snap playable c,
    appReach anyEvent a ->
    aiTimer a = Some (due, snap) -> noneBefore due a = true ->
    filterOpt (isValidMoveIn snap) (aiHand (state a)) = Some playable ->
    In c (nonEights playable) ->
    exists u a',
      appStep (AiTimerFires u) a = Some a' /\
      discardPile (state a') = discardPile (state a) ++ [c] /\
      aiHand (state a') = removeById c (aiHand (state a)) /\
      deck (state a') = deck (state a) /\
      playerHand (state a') = playerHand (state a).
Proof.
  intros a due snap playable c Hr Ea N Hf Hc.
  apply appReach_AppOk in Hr as (HF & _).
  destruct (HF due snap Ea) as (_ & _ & _ & _ & La & _).
  rewrite <- La in Hf.
  destruct (In_nth_error _ _ Hc) as [j Hj].
  assert (Hlt : j < length (nonEights playable))
    by (apply nth_error_Some; congruence).
  assert (Hne : nonEights playable <> []).
  { destruct (nonEights playable); [contradiction|discriminate]. }
  set (n := length (nonEights playable)) in *.
  exists (ratio j (n - j - 1)).
  assert (Hidx : floorMul (ratio j (n - j - 1)) n = j).
  { replace n with (j + S (n - j - 1)) at 2 by lia. apply floorMul_ratio. }
  destruct (cardToPlay_nonEight (ratio j (n - j - 1)) playable Hne) as [E _].
  fold n in E. rewrite Hidx, Hj in E.
  destruct (playCard_ai_containers snap c (state a)) as (C1 & C2 & C3 & C4).
  eexists. split.
  { simpl. rewrite Ea, N, (aiCallback_play _ snap _ playable c Hf E).
    reflexivity. }
  cbn [state]. auto.
Qed.

Lemma every_candidate_can_be_played_witness :
  exists u a',
    appStep (AiTimerFires u) stale_table = Some a' /\
    discardPile (state a')
      = discardPile (state stale_table) ++ [newCard spades R2] /\
    aiHand (state a')
      = removeById (newCard spades R2) (aiHand (state stale_table)) /\
    deck (state a') = deck (state stale_table) /\
    playerHand (state a') = playerHand (state stale_table).
Proof.
  eapply (every_candidate_can_be_played stale_table 2500 _
           [newCard hearts RK; newCard spades R2] (newCard spades R2)).
  - apply stale_table_reachable. intros; exact I.
  - reflexivity.
  - reflexivity.
  - reflexivity.
  - right. now left.
Defined.
